(** * mSheet core: normalization, conditional logic, validation and the
    engine store, embedded from the TypeScript sources of
    [packages/core/src/lib]. *)

From Stdlib Require Import ZArith NArith String Ascii List Bool Lia.
From Stdlib Require Import Floats.SpecFloat.
From stdpp Require Import gmap strings list.

Open Scope string_scope.
Open Scope list_scope.

(** * Part I: the model *)

(** * Strings

    A JavaScript string is modelled as a Rocq [string], one character per
    UTF-16 code unit; the model covers code units below 256 (Latin-1). *)

Definition isDigit (c : ascii) : bool :=
  let n := nat_of_ascii c in (48 <=? n)%nat && (n <=? 57)%nat.

Definition digitValue (c : ascii) : N := N.of_nat (nat_of_ascii c - 48).

Definition digitChar (d : N) : ascii := ascii_of_nat (48 + N.to_nat d).

Fixpoint allDigits (s : string) : bool :=
  match s with
  | EmptyString => true
  | String c s' => isDigit c && allDigits s'
  end.

(** [s.startsWith(p)], returning what follows the prefix. *)
Fixpoint stripPrefix (p s : string) : option string :=
  match p with
  | EmptyString => Some s
  | String a p' =>
      match s with
      | String b s' => if Ascii.eqb a b then stripPrefix p' s' else None
      | EmptyString => None
      end
  end.

(** [parseInt(digits, 10)] on a run of decimal digits. *)
Fixpoint parseDigits (acc : N) (s : string) : N :=
  match s with
  | EmptyString => acc
  | String c s' => parseDigits (10 * acc + digitValue c) s'
  end.

Definition parseInt10 (s : string) : N := parseDigits 0 s.

(** Decimal digits of a natural number, most significant first. *)
Fixpoint digitsOf (fuel : nat) (n : N) (acc : string) : string :=
  match fuel with
  | O => acc
  | S fuel' =>
      let acc' := String (digitChar (n mod 10)) acc in
      if (n <? 10)%N then acc' else digitsOf fuel' (n / 10) acc'
  end.

(** [String(n)] for a non-negative integer [n]. *)
Definition numberToString (n : N) : string :=
  digitsOf (S (N.to_nat (N.log2 n))) n EmptyString.

(** * ID generation (functions/ids.ts) *)

(** [pattern.exec(id)] for [pattern = /^escaped-(\d+)$/]: group 1 on a match. *)
Definition execSuffixPattern (prefix id : string) : option string :=
  match stripPrefix (prefix +:+ "-") id with
  | Some rest =>
      if negb (rest =? "") && allDigits rest then Some rest else None
  | None => None
  end.

(** The loop of [generateId]: the largest numeric suffix seen so far. *)
Definition maxSuffixStep (prefix : string) (max : N) (id : string) : N :=
  match execSuffixPattern prefix id with
  | Some digits =>
      let num := parseInt10 digits in
      if (max <? num)%N then num else max
  | None => max
  end.

Definition maxSuffix (prefix : string) (existingIds : list string) : N :=
  fold_left (maxSuffixStep prefix) existingIds 0%N.

(** [existingIds] lists the JavaScript [Set] in its iteration order. Numeric
    suffixes are natural numbers ([N]): JavaScript numbers are exact on them
    below 2^53. *)
Definition generateId (prefix : string) (existingIds : list string) : string :=
  if negb (existsb (String.eqb prefix) existingIds) then prefix
  else prefix +:+ "-" +:+ numberToString (maxSuffix prefix existingIds + 1).

(** JavaScript truthiness of a [string | null | undefined] value. *)
Definition truthy (s : option string) : bool :=
  match s with
  | Some s' => negb (s' =? "")
  | None => false
  end.

Definition generateFieldId (fieldType : string) (existingIds : list string)
    (parentId : option string) : string :=
  let fallback := if fieldType =? "" then "field" else fieldType in
  let prefix :=
    match parentId with
    | Some p => if truthy parentId then p +:+ "-" +:+ fieldType else fallback
    | None => fallback
    end in
  generateId prefix existingIds.

Definition scopedPrefix (fieldId : option string) (suffix : string) : string :=
  match fieldId with
  | Some f => if truthy fieldId then f +:+ "-" +:+ suffix else suffix
  | None => suffix
  end.

Definition generateOptionId (existingIds : list string) (fieldId : option string) : string :=
  generateId (scopedPrefix fieldId "option") existingIds.

Definition generateRowId (existingIds : list string) (fieldId : option string) : string :=
  generateId (scopedPrefix fieldId "row") existingIds.

Definition generateColumnId (existingIds : list string) (fieldId : option string) : string :=
  generateId (scopedPrefix fieldId "col") existingIds.

(** * Data model (types.ts) *)

Record FieldOption := {
  opt_id : string;
  opt_value : string;
  opt_text : option string
}.

Record MatrixRow := { row_id : string; row_value : string }.
Record MatrixColumn := { col_id : string; col_value : string }.

Inductive LogicMode := AND | OR.

Module Op.
Inductive ConditionOperator :=
  | equals | notEquals | contains | includes | empty | notEmpty
  | greaterThan | greaterThanOrEqual | lessThan | lessThanOrEqual.
End Op.
Abbreviation ConditionOperator := Op.ConditionOperator.

Inductive ConditionalEffect := visible | enable | required.

#[global] Instance ConditionalEffect_eq_dec : EqDecision ConditionalEffect.
Proof. solve_decision. Defined.

Record Condition := {
  targetId : string;
  operator : ConditionOperator;
  expected : string;
  propertyAccessor : option string
}.

Record ConditionalRule := {
  effect : ConditionalEffect;
  logic : LogicMode;
  conditions : list Condition
}.

(** [Omit<FieldDefinition, 'fields'>]: every attribute of a field but its
    nested children. Optional attributes are [option]s; the adapter metadata
    ([_sourceData], [_conversionWarnings]) is left out. *)
Record FieldDef := {
  def_id : string;
  def_fieldType : string;
  def_question : option string;
  def_required : option bool;
  def_rules : option (list ConditionalRule);
  def_inputType : option string;
  def_unit : option string;
  def_options : option (list FieldOption);
  def_rows : option (list MatrixRow);
  def_columns : option (list MatrixColumn);
  def_htmlContent : option string;
  def_imageUri : option string;
  def_expression : option string;
  def_displayFormat : option string;
  def_decimalPlaces : option Z;
  def_title : option string
}.

(** [FieldDefinition]: the attributes and the optional [fields] array. *)
Inductive FieldDefinition :=
  | Field (attrs : FieldDef) (fields : option (list FieldDefinition)).

Definition fieldAttrs (d : FieldDefinition) : FieldDef :=
  match d with Field a _ => a end.
Definition fieldChildren (d : FieldDefinition) : option (list FieldDefinition) :=
  match d with Field _ fs => fs end.
Definition fieldId (d : FieldDefinition) : string := def_id (fieldAttrs d).

(** [{ id, fieldType }] with every optional attribute absent. *)
Definition bareDef (id fieldType : string) : FieldDef :=
  {| def_id := id; def_fieldType := fieldType; def_question := None;
     def_required := None; def_rules := None; def_inputType := None;
     def_unit := None; def_options := None; def_rows := None;
     def_columns := None; def_htmlContent := None; def_imageUri := None;
     def_expression := None; def_displayFormat := None;
     def_decimalPlaces := None; def_title := None |}.

(** * Normalization (functions/normalize.ts) *)

Record FieldNode := {
  definition : FieldDef;
  parentId : option string;
  childIds : list string;
  index : nat
}.

Record NormalizedDefinition := {
  byId : gmap string FieldNode;
  rootIds : list string
}.

(** One iteration of the loop of [walk], on [defs[i]]: the children are
    walked first, then the node itself is written. *)
Fixpoint walkField (def : FieldDefinition) (parent : option string) (i : nat)
    (acc : gmap string FieldNode) {struct def} : gmap string FieldNode :=
  match def with
  | Field attrs fields =>
      let '(ids, acc1) :=
        match fields with
        | Some children =>
            if def_fieldType attrs =? "section" then
              (fix walkChildren (defs : list FieldDefinition) (j : nat)
                   (acc : gmap string FieldNode) : list string * gmap string FieldNode :=
                 match defs with
                 | [] => ([], acc)
                 | d :: defs' =>
                     let acc1 := walkField d (Some (def_id attrs)) j acc in
                     let '(ids, acc2) := walkChildren defs' (S j) acc1 in
                     (fieldId d :: ids, acc2)
                 end) children 0%nat acc
            else ([], acc)
        | None => ([], acc)
        end in
      <[def_id attrs := {| definition := attrs; parentId := parent;
                           childIds := ids; index := i |}]> acc1
  end.

(** [walk(defs, parentId)], from loop index [i], threading [byId]. *)
Fixpoint walk (defs : list FieldDefinition) (parent : option string) (i : nat)
    (acc : gmap string FieldNode) : list string * gmap string FieldNode :=
  match defs with
  | [] => ([], acc)
  | d :: defs' =>
      let acc1 := walkField d parent i acc in
      let '(ids, acc2) := walk defs' parent (S i) acc1 in
      (fieldId d :: ids, acc2)
  end.

Definition normalizeDefinition (fields : list FieldDefinition) : NormalizedDefinition :=
  let '(ids, m) := walk fields None 0%nat ∅ in
  {| byId := m; rootIds := ids |}.

(** [build(ids)] of [hydrateDefinition]. The recursion follows [childIds]
    through the index, so it is bounded by [fuel]: [None] stands for a call
    stack that ran out. *)
Fixpoint build (fuel : nat) (normalized : NormalizedDefinition) (ids : list string)
    : option (list FieldDefinition) :=
  match fuel with
  | O => None
  | S fuel' =>
      mapM (fun id =>
        match byId normalized !! id with
        | None => Some (Field (bareDef id "text") None)
        | Some node =>
            match childIds node with
            | [] => Some (Field (definition node) None)
            | _ :: _ =>
                match build fuel' normalized (childIds node) with
                | Some fs => Some (Field (definition node) (Some fs))
                | None => None
                end
            end
        end) ids
  end.

Definition hydrateDefinition (fuel : nat) (normalized : NormalizedDefinition)
    : option (list FieldDefinition) :=
  build fuel normalized (rootIds normalized).

(** * Responses (types.ts) *)

Record SelectedOption := { sel_id : string; sel_value : string }.

(** One row of a matrix answer: [SelectedOption | SelectedOption[]]. *)
Inductive MatrixCell :=
  | CellOne (o : SelectedOption)
  | CellMany (l : list SelectedOption).

(** [FieldResponse.selected]: one option, an array of options, or a record
    from row IDs to cells (its keys in insertion order). *)
Inductive Selected :=
  | SelectedOne (o : SelectedOption)
  | SelectedMany (l : list SelectedOption)
  | SelectedRecord (m : list (string * MatrixCell)).

(** [FieldResponse.answer] is declared a string; the code also accepts a
    number or a boolean there. *)
Inductive AnswerValue :=
  | AnswerString (s : string)
  | AnswerNumber (x : spec_float)
  | AnswerBoolean (b : bool).

Record FieldResponse := {
  answer : option AnswerValue;
  selected : option Selected;
  multitextAnswers : option (list (string * string));
  signatureData : option string;
  signatureImage : option string;
  markupData : option string;
  markupImage : option string
}.

(** * Text helpers (JavaScript built-ins) *)

Definition charCode (c : ascii) : nat := nat_of_ascii c.

(** White space and line terminators below 256: what [trim] strips and what
    [\s] matches. *)
Definition isWhiteSpace (c : ascii) : bool :=
  let n := charCode c in
  ((9 <=? n) && (n <=? 13))%nat || (n =? 32)%nat || (n =? 160)%nat.

Fixpoint trimStart (s : string) : string :=
  match s with
  | EmptyString => EmptyString
  | String c s' => if isWhiteSpace c then trimStart s' else s
  end.

Fixpoint trimEnd (s : string) : string :=
  match s with
  | EmptyString => EmptyString
  | String c s' =>
      let r := trimEnd s' in
      if isWhiteSpace c && (r =? "") then EmptyString else String c r
  end.

Definition trim (s : string) : string := trimEnd (trimStart s).

(** [toLowerCase] on code units below 256. *)
Definition toLowerChar (c : ascii) : ascii :=
  let n := charCode c in
  if ((65 <=? n) && (n <=? 90))%nat
     || ((192 <=? n) && (n <=? 222) && negb (n =? 215))%nat
  then ascii_of_nat (n + 32) else c.

Fixpoint mapString (f : ascii -> ascii) (s : string) : string :=
  match s with
  | EmptyString => EmptyString
  | String c s' => String (f c) (mapString f s')
  end.

Definition toLowerCase (s : string) : string := mapString toLowerChar s.

Fixpoint joinWith (sep : string) (l : list string) : string :=
  match l with
  | [] => EmptyString
  | [x] => x
  | x :: l' => x +:+ sep +:+ joinWith sep l'
  end.

(** * Numbers: IEEE 754 binary64 *)

Definition prec : Z := 53.
Definition emax : Z := 1024.

Definition number := spec_float.

Definition numberOfZ (z : Z) : number := binary_normalize prec emax z 0 false.
Definition numberOfNat (n : nat) : number := numberOfZ (Z.of_nat n).

Definition isNaN (x : number) : bool :=
  match x with S754_nan => true | _ => false end.

(** [Number.EPSILON], 2^-52. *)
Definition EPSILON : number := binary_normalize prec emax 1 (-52) false.

(** The longest prefix of decimal digits and what follows it. *)
Fixpoint spanDigits (s : string) : string * string :=
  match s with
  | EmptyString => (EmptyString, EmptyString)
  | String c s' =>
      if isDigit c then let '(d, r) := spanDigits s' in (String c d, r)
      else (EmptyString, s)
  end.

Definition readSign (s : string) : bool * string :=
  match s with
  | String "-" r => (true, r)
  | String "+" r => (false, r)
  | _ => (false, s)
  end.

(** The double nearest to [m * 10^e10], ties to even; [len] bounds the number
    of decimal digits of [m]. Past the range of doubles the answer is known
    without the power: infinity above, zero below. *)
Definition decimalToNumber (neg : bool) (m : N) (len : nat) (e10 : Z) : number :=
  match m with
  | N0 => S754_zero neg
  | Npos p =>
      if (400 <? e10)%Z then S754_infinity neg
      else if (0 <=? e10)%Z then
        binary_normalize prec emax
          (cond_Zopp neg (Zpos p * 10 ^ e10)) 0 false
      else if (Z.of_nat len + e10 <? -400)%Z then S754_zero neg
      else
        match (10 ^ (- e10))%Z with
        | Zpos q => SFdiv prec emax (S754_finite neg p 0) (S754_finite false q 0)
        | _ => S754_nan
        end
  end.

(** [parseFloat(s)]: skip leading white space, read the longest prefix that is
    a decimal literal ([Infinity], digits, fraction, exponent, with a sign),
    round it to a double; [NaN] when there is none. *)
Definition parseFloat (s : string) : number :=
  let '(neg, s1) := readSign (trimStart s) in
  match stripPrefix "Infinity" s1 with
  | Some _ => S754_infinity neg
  | None =>
      let '(ip, r1) := spanDigits s1 in
      let '(fp, r2) :=
        match r1 with
        | String "." r => spanDigits r
        | _ => (EmptyString, r1)
        end in
      if (ip =? "") && (fp =? "") then S754_nan
      else
        let e :=
          match r2 with
          | String c r3 =>
              if (Ascii.eqb c "e" || Ascii.eqb c "E")%char then
                let '(eneg, r4) := readSign r3 in
                let '(ed, _) := spanDigits r4 in
                if ed =? "" then 0%Z
                else cond_Zopp eneg (Z.of_N (parseInt10 ed))
              else 0%Z
          | EmptyString => 0%Z
          end in
        decimalToNumber neg (parseInt10 (ip +:+ fp)) (String.length (ip +:+ fp))
          (e - Z.of_nat (String.length fp))
  end.

(** * Condition evaluation (logic/conditions.ts) *)

(** An element of an array value: a string, or an object with [keys] keys. *)
Inductive Element :=
  | EString (s : string)
  | EObject (keys : nat).

(** The run-time values the evaluator handles. *)
Inductive Value :=
  | VNull
  | VString (s : string)
  | VNumber (x : number)
  | VBoolean (b : bool)
  | VArray (l : list Element)
  | VObject (keys : nat).

Definition elementString (e : Element) : string :=
  match e with
  | EString s => s
  | EObject _ => "[object Object]"
  end.

(** [String(v)]. A number never reaches [String] in this module: a number
    takes the numeric path, where it is used as it is. *)
Definition stringOf (v : Value) : string :=
  match v with
  | VNull => "null"
  | VString s => s
  | VNumber _ => EmptyString
  | VBoolean b => if b then "true" else "false"
  | VArray l => joinWith "," (map elementString l)
  | VObject _ => "[object Object]"
  end.

(** [v ?? ''] *)
Definition orEmptyString (v : Value) : Value :=
  match v with VNull => VString EmptyString | _ => v end.

Definition answerValue (a : AnswerValue) : Value :=
  match a with
  | AnswerString s => VString s
  | AnswerNumber x => VNumber x
  | AnswerBoolean b => VBoolean b
  end.

Definition cellValue (c : MatrixCell) : Value :=
  match c with
  | CellOne _ => VObject 2
  | CellMany l => VArray (map (fun _ => EObject 2) l)
  end.

Fixpoint lookupKey {A} (k : string) (m : list (string * A)) : option A :=
  match m with
  | [] => None
  | (k', v) :: m' => if k' =? k then Some v else lookupKey k m'
  end.

Definition memberOf (x : string) (l : list string) : bool :=
  existsb (String.eqb x) l.

Definition getActualValue (def : FieldDef) (response : option FieldResponse) : Value :=
  match response with
  | None => VNull
  | Some response =>
      let ty := def_fieldType def in
      if memberOf ty ["text"; "longtext"; "expression"] then
        match answer response with
        | Some a => answerValue a
        | None => VString EmptyString
        end
      else if ty =? "multitext" then
        match multitextAnswers response with
        | Some m => VArray (map (fun kv => EString (snd kv)) m)
        | None => VArray []
        end
      else if memberOf ty ["radio"; "dropdown"; "boolean"; "slider"; "rating"] then
        match selected response with
        | Some (SelectedOne o) => VString (sel_id o)
        | Some (SelectedRecord m) =>
            match lookupKey "id" m with
            | Some c => cellValue c
            | None => VNull
            end
        | _ => VNull
        end
      else if memberOf ty ["check"; "multiselectdropdown"; "ranking"] then
        match selected response with
        | Some (SelectedMany l) => VArray (map (fun o => EString (sel_id o)) l)
        | _ => VArray []
        end
      else if memberOf ty ["singlematrix"; "multimatrix"] then
        match selected response with
        | Some (SelectedOne _) => VObject 2
        | Some (SelectedRecord m) => VObject (length m)
        | _ => VObject 0
        end
      else VNull
  end.

Definition applyPropertyAccessor (value : Value) (accessor : string) : number :=
  let prop := toLowerCase accessor in
  if negb (prop =? "length") && negb (prop =? "count") then numberOfNat 0
  else
    match value with
    | VArray l => numberOfNat (length l)
    | VString s => numberOfNat (String.length s)
    | VObject keys => numberOfNat keys
    | _ => numberOfNat 0
    end.

Definition NUMERIC_OPERATORS (op : ConditionOperator) : bool :=
  match op with
  | Op.greaterThan | Op.greaterThanOrEqual | Op.lessThan | Op.lessThanOrEqual => true
  | _ => false
  end.

Definition NUMERIC_EXPRESSION_FORMATS : list string :=
  ["number"; "currency"; "percentage"].

Definition isEmpty (value : Value) : bool :=
  match value with
  | VNull => true
  | VArray l => Nat.eqb (length l) 0
  | VObject keys => Nat.eqb keys 0
  | VNumber _ => false
  | v => trim (stringOf v) =? ""
  end.

(** [Number.EPSILON * 10] *)
Definition tolerance : number := SFmul prec emax EPSILON (numberOfZ 10).

Definition evaluateNumeric (actual expected : number) (op : ConditionOperator) : bool :=
  match op with
  | Op.equals => SFltb (SFabs (SFsub prec emax actual expected)) tolerance
  | Op.notEquals => SFleb tolerance (SFabs (SFsub prec emax actual expected))
  | Op.greaterThan => SFltb expected actual
  | Op.greaterThanOrEqual => SFleb expected actual
  | Op.lessThan => SFltb actual expected
  | Op.lessThanOrEqual => SFleb actual expected
  | _ => false
  end.

(** [s.normalize('NFD')] followed by the removal of the combining marks
    U+0300 to U+036F, on one code unit below 256: an accented Latin-1 letter
    decomposes into its base letter and one combining mark of that range,
    which the replacement removes; every other character is kept. *)
Definition stripDiacritic (c : ascii) : ascii :=
  let n := charCode c in
  let base (b : string) : ascii :=
    match b with String x _ => x | EmptyString => c end in
  if ((192 <=? n) && (n <=? 197))%nat then base "A"
  else if (n =? 199)%nat then base "C"
  else if ((200 <=? n) && (n <=? 203))%nat then base "E"
  else if ((204 <=? n) && (n <=? 207))%nat then base "I"
  else if (n =? 209)%nat then base "N"
  else if ((210 <=? n) && (n <=? 214))%nat then base "O"
  else if ((217 <=? n) && (n <=? 220))%nat then base "U"
  else if (n =? 221)%nat then base "Y"
  else if ((224 <=? n) && (n <=? 229))%nat then base "a"
  else if (n =? 231)%nat then base "c"
  else if ((232 <=? n) && (n <=? 235))%nat then base "e"
  else if ((236 <=? n) && (n <=? 239))%nat then base "i"
  else if (n =? 241)%nat then base "n"
  else if ((242 <=? n) && (n <=? 246))%nat then base "o"
  else if ((249 <=? n) && (n <=? 252))%nat then base "u"
  else if ((n =? 253) || (n =? 255))%nat then base "y"
  else c.

(** [[a-z0-9]] *)
Definition isLowerAlnum (c : ascii) : bool :=
  let n := charCode c in
  ((97 <=? n) && (n <=? 122))%nat || ((48 <=? n) && (n <=? 57))%nat.

(** [s.replace(/[^a-z0-9]+/g, ' ')]; [inRun] tells that the previous
    character was part of the run being replaced. *)
Fixpoint replaceNonAlnumRuns (inRun : bool) (s : string) : string :=
  match s with
  | EmptyString => EmptyString
  | String c s' =>
      if isLowerAlnum c then String c (replaceNonAlnumRuns false s')
      else if inRun then replaceNonAlnumRuns true s'
      else String " " (replaceNonAlnumRuns true s')
  end.

Definition normalizeForContains (s : string) : string :=
  trim (replaceNonAlnumRuns false (toLowerCase (mapString stripDiacritic s))).

(** The regular expressions the module builds: literals, [\s], [^], [$],
    sequence, alternative and [+]. *)
Inductive Regex :=
  | REmpty
  | RChar (c : ascii)
  | RSpace
  | RStart
  | REnd
  | RSeq (r1 r2 : Regex)
  | RAlt (r1 r2 : Regex)
  | RPlus (r : Regex).

(** Backtracking match of [r] at the head of [s]; [atStart] tells that no
    input has been consumed since position 0; [k] continues with the rest. *)
Fixpoint matchRegex (r : Regex) (atStart : bool) (s : string)
    (k : bool -> string -> bool) {struct r} : bool :=
  match r with
  | REmpty => k atStart s
  | RChar c =>
      match s with
      | String c' s' => Ascii.eqb c c' && k false s'
      | EmptyString => false
      end
  | RSpace =>
      match s with
      | String c' s' => isWhiteSpace c' && k false s'
      | EmptyString => false
      end
  | RStart => atStart && k atStart s
  | REnd => match s with EmptyString => k atStart s | _ => false end
  | RSeq r1 r2 => matchRegex r1 atStart s (fun a s' => matchRegex r2 a s' k)
  | RAlt r1 r2 => matchRegex r1 atStart s k || matchRegex r2 atStart s k
  | RPlus r1 =>
      (fix plus (n : nat) (a : bool) (s : string) : bool :=
         match n with
         | O => false
         | S n' => matchRegex r1 a s (fun a' s' => k a' s' || plus n' a' s')
         end) (S (String.length s)) atStart s
  end.

(** [pattern.test(s)]: a match starting at some position of [s]. *)
Fixpoint testFrom (r : Regex) (atStart : bool) (s : string) : bool :=
  matchRegex r atStart s (fun _ _ => true) ||
  match s with
  | String _ s' => testFrom r false s'
  | EmptyString => false
  end.

Definition regexTest (r : Regex) (s : string) : bool := testFrom r true s.

(** [escapeRegex(s)] as a pattern: the characters of [s], literally. *)
Fixpoint literal (s : string) : Regex :=
  match s with
  | EmptyString => REmpty
  | String c s' => RSeq (RChar c) (literal s')
  end.

(** [parts.map(escapeRegex).join('\\s+')] *)
Fixpoint joinParts (parts : list string) : Regex :=
  match parts with
  | [] => REmpty
  | [p] => literal p
  | p :: ps => RSeq (literal p) (RSeq (RPlus RSpace) (joinParts ps))
  end.

(** [(?:^|\s)] parts [(?:\s|$)] *)
Definition containsPattern (parts : list string) : Regex :=
  RSeq (RAlt RStart RSpace) (RSeq (joinParts parts) (RAlt RSpace REnd)).

(** [s.split(/\s+/)]: the pieces between maximal runs of white space; [cur]
    is the piece being read, reversed, and [inSep] tells that the previous
    character was white space. *)
Fixpoint splitGo (cur : string) (inSep : bool) (s : string) : list string :=
  match s with
  | EmptyString => [String.rev cur]
  | String c s' =>
      if isWhiteSpace c then
        if inSep then splitGo cur true s'
        else String.rev cur :: splitGo EmptyString true s'
      else splitGo (String c (if inSep then EmptyString else cur)) false s'
  end.

Definition splitWhiteSpace (s : string) : list string := splitGo EmptyString false s.

(** The [contains] case of [evaluateCondition]. *)
Definition containsMatch (actualText expectedText : string) : bool :=
  let hay := normalizeForContains actualText in
  let needle := normalizeForContains expectedText in
  if needle =? "" then false
  else regexTest (containsPattern (splitWhiteSpace needle)) hay.

Definition isArray (v : Value) : bool :=
  match v with VArray _ => true | _ => false end.

Definition isNumericExpr (def : FieldDef) : bool :=
  (def_fieldType def =? "expression") &&
  match def_displayFormat def with
  | Some f => memberOf f NUMERIC_EXPRESSION_FORMATS
  | None => false
  end.

Definition isNumericText (def : FieldDef) : bool :=
  (def_fieldType def =? "text") &&
  match def_inputType def with
  | Some t => t =? "number"
  | None => false
  end.

(** Lines 140-153: for a magnitude operator, a string that is no number is
    looked up among the options and replaced by the option's numeric value. *)
Definition resolveOptionValue (op : ConditionOperator) (def : FieldDef)
    (actual : Value) : Value :=
  match actual with
  | VString s =>
      if NUMERIC_OPERATORS op && isNaN (parseFloat s) then
        match def_options def with
        | Some opts =>
            match find (fun o => opt_id o =? s) opts with
            | Some opt =>
                let parsed := parseFloat (opt_value opt) in
                if isNaN parsed then actual else VNumber parsed
            | None => actual
            end
        | None => actual
        end
      else actual
  | _ => actual
  end.

Definition isNumberValue (v : Value) : bool :=
  match v with VNumber _ => true | _ => false end.

(** The value the numeric-or-string decision sees: after the property
    accessor and the option lookup. *)
Definition decisionValue (condition : Condition) (def : FieldDef)
    (response : option FieldResponse) : Value :=
  let actual := getActualValue def response in
  let actual :=
    match propertyAccessor condition with
    | Some acc => if truthy (Some acc) then VNumber (applyPropertyAccessor actual acc)
                  else actual
    | None => actual
    end in
  resolveOptionValue (operator condition) def actual.

(** Which return statement of [evaluateCondition] produced the result. *)
Inductive Path := EmptyCheckPath | NumericPath | StringPath.

(** [evaluateCondition], with the path it took. *)
Definition evaluateConditionTraced (condition : Condition) (def : FieldDef)
    (response : option FieldResponse) : Path * bool :=
  let actual := getActualValue def response in
  let actual :=
    match propertyAccessor condition with
    | Some acc => if truthy (Some acc) then VNumber (applyPropertyAccessor actual acc)
                  else actual
    | None => actual
    end in
  let op := operator condition in
  match op with
  | Op.empty => (EmptyCheckPath, isEmpty actual)
  | Op.notEmpty => (EmptyCheckPath, negb (isEmpty actual))
  | _ =>
      let actual := resolveOptionValue op def actual in
      let isNumeric :=
        NUMERIC_OPERATORS op || isNumberValue actual
        || isNumericExpr def || isNumericText def in
      if isNumeric then
        let actualNum :=
          match actual with
          | VNumber x => x
          | _ => parseFloat (stringOf actual)
          end in
        let expectedNum := parseFloat (expected condition) in
        (NumericPath,
         if isNaN actualNum || isNaN expectedNum then false
         else evaluateNumeric actualNum expectedNum op)
      else
        (StringPath,
         match op with
         | Op.equals =>
             if isArray actual then false
             else stringOf (orEmptyString actual) =? expected condition
         | Op.notEquals =>
             if isArray actual then true
             else negb (stringOf (orEmptyString actual) =? expected condition)
         | Op.contains =>
             containsMatch (stringOf (orEmptyString actual)) (expected condition)
         | Op.includes =>
             match actual with
             | VArray l => memberOf (expected condition) (map elementString l)
             | _ => false
             end
         | _ => false
         end)
  end.

Definition evaluateCondition (condition : Condition) (def : FieldDef)
    (response : option FieldResponse) : bool :=
  snd (evaluateConditionTraced condition def response).

Definition emptyResponse : FieldResponse :=
  {| answer := None; selected := None; multitextAnswers := None;
     signatureData := None; signatureImage := None;
     markupData := None; markupImage := None |}.

Definition textAnswer (s : string) : FieldResponse :=
  {| answer := Some (AnswerString s); selected := None; multitextAnswers := None;
     signatureData := None; signatureImage := None;
     markupData := None; markupImage := None |}.

(** [evaluateRule] (logic/conditions.ts) *)

Definition FormResponse := gmap string FieldResponse.

Definition conditionHolds (normalized : NormalizedDefinition)
    (responses : gmap string FieldResponse) (cond : Condition) : bool :=
  match byId normalized !! targetId cond with
  | None => false
  | Some node => evaluateCondition cond (definition node) (responses !! targetId cond)
  end.

Definition evaluateRule (rule : ConditionalRule) (normalized : NormalizedDefinition)
    (responses : gmap string FieldResponse) : bool :=
  match conditions rule with
  | [] => true
  | conds =>
      let results := map (conditionHolds normalized responses) conds in
      match logic rule with
      | OR => existsb (fun b => b) results
      | AND => forallb (fun b => b) results
      end
  end.

(** * Effect resolution (logic/resolve.ts) *)

Definition EFFECT_DEFAULTS (e : ConditionalEffect) : bool :=
  match e with
  | visible => true
  | enable => true
  | required => false
  end.

Definition resolveEffect (eff : ConditionalEffect) (field : FieldDef)
    (normalized : NormalizedDefinition) (responses : gmap string FieldResponse) : bool :=
  let rules :=
    match def_rules field with
    | Some rs => Some (filter (fun r => effect r = eff) rs)
    | None => None
    end in
  match rules with
  | None | Some [] =>
      match eff with
      | required => match def_required field with Some b => b | None => false end
      | _ => EFFECT_DEFAULTS eff
      end
  | Some rs => existsb (fun rule => evaluateRule rule normalized responses) rs
  end.

(** * Validation (logic/validate.ts) *)

Record ValidationError := {
  err_fieldId : string;
  err_rule : string;
  err_message : string
}.

Definition NON_INPUT_TYPES : list string := ["section"; "expression"; "html"; "image"].

Definition isResponseEmpty (response : option FieldResponse) : bool :=
  match response with
  | None => true
  | Some response =>
      if match answer response with
         | Some (AnswerString s) => negb (trim s =? "")
         | Some _ => true
         | None => false
         end then false
      else if match selected response with
              | Some (SelectedMany l) => negb (Nat.eqb (length l) 0)
              | Some (SelectedOne _) => true
              | Some (SelectedRecord m) =>
                  match lookupKey "id" m with
                  | Some _ => true
                  | None => negb (Nat.eqb (length m) 0)
                  end
              | None => false
              end then false
      else if match multitextAnswers response with
              | Some m => existsb (fun kv => negb (trim (snd kv) =? "")) m
              | None => false
              end then false
      else if match signatureData response with
              | Some s => negb (s =? "") && negb (trim s =? "")
              | None => false
              end then false
      else if match markupData response with
              | Some s => negb (s =? "") && negb (trim s =? "")
              | None => false
              end then false
      else true
  end.

Definition validateField (fieldId : string) (normalized : NormalizedDefinition)
    (responses : gmap string FieldResponse) : list ValidationError :=
  match byId normalized !! fieldId with
  | None => []
  | Some node =>
      let def := definition node in
      if memberOf (def_fieldType def) NON_INPUT_TYPES then []
      else if negb (resolveEffect visible def normalized responses) then []
      else if resolveEffect required def normalized responses
              && isResponseEmpty (responses !! fieldId)
      then [{| err_fieldId := fieldId; err_rule := "required";
               err_message := "This field is required" |}]
      else []
  end.

(** The keys of a [byId] object. JavaScript lists them in insertion order;
    the model lists them in the order of the map. *)
Definition objectKeys {A} (m : gmap string A) : list string := (map_to_list m).*1.

Definition validateForm (normalized : NormalizedDefinition)
    (responses : gmap string FieldResponse) : list ValidationError :=
  flat_map (fun fieldId => validateField fieldId normalized responses)
           (objectKeys (byId normalized)).

(** * Field-type registry (registry.ts) *)

(** [Partial<Omit<FieldDefinition, 'fields'>>]: [Some v] for a key the patch
    holds ([v] itself [None] when the key holds [undefined]). *)
Record Patch := {
  p_id : option string;
  p_fieldType : option string;
  p_question : option (option string);
  p_required : option (option bool);
  p_rules : option (option (list ConditionalRule));
  p_inputType : option (option string);
  p_unit : option (option string);
  p_options : option (option (list FieldOption));
  p_rows : option (option (list MatrixRow));
  p_columns : option (option (list MatrixColumn));
  p_htmlContent : option (option string);
  p_imageUri : option (option string);
  p_expression : option (option string);
  p_displayFormat : option (option string);
  p_decimalPlaces : option (option Z);
  p_title : option (option string)
}.

Definition emptyPatch : Patch :=
  {| p_id := None; p_fieldType := None; p_question := None; p_required := None;
     p_rules := None; p_inputType := None; p_unit := None; p_options := None;
     p_rows := None; p_columns := None; p_htmlContent := None;
     p_imageUri := None; p_expression := None; p_displayFormat := None;
     p_decimalPlaces := None; p_title := None |}.

Definition override {A} (old : A) (new : option A) : A :=
  match new with Some v => v | None => old end.

(** [{ ...def, ...patch }] *)
Definition applyPatch (def : FieldDef) (patch : Patch) : FieldDef :=
  {| def_id := override (def_id def) (p_id patch);
     def_fieldType := override (def_fieldType def) (p_fieldType patch);
     def_question := override (def_question def) (p_question patch);
     def_required := override (def_required def) (p_required patch);
     def_rules := override (def_rules def) (p_rules patch);
     def_inputType := override (def_inputType def) (p_inputType patch);
     def_unit := override (def_unit def) (p_unit patch);
     def_options := override (def_options def) (p_options patch);
     def_rows := override (def_rows def) (p_rows patch);
     def_columns := override (def_columns def) (p_columns patch);
     def_htmlContent := override (def_htmlContent def) (p_htmlContent patch);
     def_imageUri := override (def_imageUri def) (p_imageUri patch);
     def_expression := override (def_expression def) (p_expression patch);
     def_displayFormat := override (def_displayFormat def) (p_displayFormat patch);
     def_decimalPlaces := override (def_decimalPlaces def) (p_decimalPlaces patch);
     def_title := override (def_title def) (p_title patch) |}.

(** [FieldTypeMeta], without the texts for the user interface ([label],
    [category], [placeholder], [elementClass]). [defaultProps] is kept
    without its [fields] key, which [addField] drops. *)
Record FieldTypeMeta := {
  answerType : string;
  hasOptions : bool;
  hasMatrix : bool;
  defaultProps : Patch;
  defaultOptionCount : option nat
}.

Definition meta (ans : string) (opts matrix : bool) (props : Patch)
    (count : option nat) : FieldTypeMeta :=
  {| answerType := ans; hasOptions := opts; hasMatrix := matrix;
     defaultProps := props; defaultOptionCount := count |}.

Definition textProps : Patch :=
  {| p_id := None; p_fieldType := None; p_question := None; p_required := None;
     p_rules := None; p_inputType := Some (Some "string"); p_unit := None;
     p_options := None; p_rows := None; p_columns := None; p_htmlContent := None;
     p_imageUri := None; p_expression := None; p_displayFormat := None;
     p_decimalPlaces := None; p_title := None |}.

Definition expressionProps : Patch :=
  {| p_id := None; p_fieldType := None; p_question := None; p_required := None;
     p_rules := None; p_inputType := None; p_unit := None;
     p_options := None; p_rows := None; p_columns := None; p_htmlContent := None;
     p_imageUri := None; p_expression := None;
     p_displayFormat := Some (Some "number");
     p_decimalPlaces := Some (Some 2%Z); p_title := None |}.

Definition builtInEntries : list (string * FieldTypeMeta) :=
  [
    ("text", meta "text" false false textProps None);
    ("longtext", meta "text" false false emptyPatch None);
    ("multitext", meta "multitext" true false emptyPatch (Some 3%nat));
    ("radio", meta "selection" true false emptyPatch (Some 3%nat));
    ("check", meta "multiselection" true false emptyPatch (Some 3%nat));
    ("boolean", meta "selection" true false emptyPatch None);
    ("dropdown", meta "selection" true false emptyPatch (Some 3%nat));
    ("multiselectdropdown", meta "multiselection" true false emptyPatch (Some 3%nat));
    ("rating", meta "selection" true false emptyPatch (Some 5%nat));
    ("ranking", meta "multiselection" true false emptyPatch (Some 3%nat));
    ("slider", meta "selection" true false emptyPatch (Some 3%nat));
    ("singlematrix", meta "matrix" false true emptyPatch (Some 3%nat));
    ("multimatrix", meta "matrix" false true emptyPatch (Some 3%nat));
    ("image", meta "display" false false emptyPatch None);
    ("html", meta "display" false false emptyPatch None);
    ("signature", meta "media" false false emptyPatch None);
    ("diagram", meta "media" false false emptyPatch None);
    ("expression", meta "text" false false expressionProps None);
    ("section", meta "container" false false emptyPatch None)
  ].

Definition BUILT_IN_FIELD_TYPES : gmap string FieldTypeMeta :=
  list_to_map builtInEntries.

Definition getFieldTypeMeta (registry : gmap string FieldTypeMeta) (key : string)
    : option FieldTypeMeta := registry !! key.

Definition registerFieldType (registry : gmap string FieldTypeMeta) (key : string)
    (m : FieldTypeMeta) : gmap string FieldTypeMeta := <[key := m]> registry.

(** * Response hydration (functions/hydrate-response.ts) *)

(** What [extractAnswer] returns. *)
Inductive ExtractedAnswer :=
  | TextAnswer (a : AnswerValue)
  | SelectionAnswer (s : Selected)
  | MultitextAnswer (m : list (string * string))
  | MediaAnswer (s : string).

Record HydratedResponseItem := {
  item_id : string;
  item_text : string;
  item_answer : option ExtractedAnswer
}.

(** [a ?? b] on optional values. *)
Definition orElse {A} (a b : option A) : option A :=
  match a with Some _ => a | None => b end.

Definition extractAnswer (response : option FieldResponse) (ansType : string)
    : option ExtractedAnswer :=
  match response with
  | None => None
  | Some response =>
      if ansType =? "text" then TextAnswer <$> answer response
      else if memberOf ansType ["selection"; "multiselection"; "matrix"] then
        SelectionAnswer <$> selected response
      else if ansType =? "multitext" then MultitextAnswer <$> multitextAnswers response
      else if ansType =? "media" then
        MediaAnswer <$>
          orElse (signatureImage response)
            (orElse (signatureData response)
               (orElse (markupImage response) (markupData response)))
      else None
  end.

(** [walk(ids)] of [hydrateResponse]; the items pushed, in order. The
    recursion into a container follows [childIds], so it is bounded by
    [fuel]. *)
Fixpoint hydrateWalk (fuel : nat) (registry : gmap string FieldTypeMeta)
    (normalized : NormalizedDefinition) (responses : gmap string FieldResponse)
    (ids : list string) : option (list HydratedResponseItem) :=
  match fuel with
  | O => None
  | S fuel' =>
      foldr (fun id rest =>
        match byId normalized !! id with
        | None => rest
        | Some node =>
            let def := definition node in
            match getFieldTypeMeta registry (def_fieldType def) with
            | None => rest
            | Some m =>
                if answerType m =? "container" then
                  match hydrateWalk fuel' registry normalized responses (childIds node), rest with
                  | Some items, Some rest' => Some (items ++ rest')
                  | _, _ => None
                  end
                else if (answerType m =? "display") || (answerType m =? "none") then rest
                else
                  match rest with
                  | Some rest' =>
                      Some ({| item_id := id;
                               item_text :=
                                 match orElse (def_question def) (def_title def) with
                                 | Some t => t
                                 | None => EmptyString
                                 end;
                               item_answer :=
                                 extractAnswer (responses !! id) (answerType m) |}
                            :: rest')
                  | None => None
                  end
            end
        end) (Some []) ids
  end.

Definition hydrateResponse (fuel : nat) (registry : gmap string FieldTypeMeta)
    (normalized : NormalizedDefinition) (responses : gmap string FieldResponse)
    : option (list HydratedResponseItem) :=
  hydrateWalk fuel registry normalized responses (rootIds normalized).

(** * Engine store (engine/store.ts) *)

Record AddFieldOptions := {
  opt_parentId : option string;
  opt_index : option Z;
  opt_patch : option Patch
}.

(** The data of [FormEngineState]; the actions and selectors are the
    functions below, from state to state. *)
Record FormEngineState := {
  normalized : NormalizedDefinition;
  responses : gmap string FieldResponse
}.

Definition EMPTY_NORMALIZED : NormalizedDefinition := {| byId := ∅; rootIds := [] |}.

(** [set({ normalized: n })]: the other part of the state is kept. *)
Definition setNormalized (st : FormEngineState) (n : NormalizedDefinition)
    : FormEngineState :=
  {| normalized := n; responses := responses st |}.

Definition setResponses (st : FormEngineState) (r : gmap string FieldResponse)
    : FormEngineState :=
  {| normalized := normalized st; responses := r |}.

(** ** Private helpers *)

(** [index] is an integer (or [undefined]). *)
Definition insertAt {A} (arr : list A) (item : A) (index : option Z) : list A :=
  match index with
  | None => arr ++ [item]
  | Some i =>
      if (Z.of_nat (length arr) <=? i)%Z then arr ++ [item]
      else if (i <=? 0)%Z then item :: arr
      else take (Z.to_nat i) arr ++ item :: drop (Z.to_nat i) arr
  end.

Definition withDefinition (node : FieldNode) (def : FieldDef) : FieldNode :=
  {| definition := def; parentId := parentId node;
     childIds := childIds node; index := index node |}.

Definition withChildIds (node : FieldNode) (ids : list string) : FieldNode :=
  {| definition := definition node; parentId := parentId node;
     childIds := ids; index := index node |}.

Definition withParentId (node : FieldNode) (p : option string) : FieldNode :=
  {| definition := definition node; parentId := p;
     childIds := childIds node; index := index node |}.

Definition withIndex (node : FieldNode) (i : nat) : FieldNode :=
  {| definition := definition node; parentId := parentId node;
     childIds := childIds node; index := i |}.

Definition withById (n : NormalizedDefinition) (m : gmap string FieldNode)
    : NormalizedDefinition :=
  {| byId := m; rootIds := rootIds n |}.

Definition patchField (n : NormalizedDefinition) (fieldId : string)
    (updater : FieldDef -> option FieldDef) : option NormalizedDefinition :=
  match byId n !! fieldId with
  | None => None
  | Some node =>
      match updater (definition node) with
      | None => None
      | Some newDef => Some (withById n (<[fieldId := withDefinition node newDef]> (byId n)))
      end
  end.

(** [reindexChildren(byId, ids)], from loop index [i]. *)
Fixpoint reindexFrom (i : nat) (ids : list string) (m : gmap string FieldNode)
    : gmap string FieldNode :=
  match ids with
  | [] => m
  | id :: ids' =>
      reindexFrom (S i) ids'
        match m !! id with
        | Some node => if Nat.eqb (index node) i then m
                       else <[id := withIndex node i]> m
        | None => m
        end
  end.

Definition reindexChildren (m : gmap string FieldNode) (ids : list string)
    : gmap string FieldNode := reindexFrom 0 ids m.

(** The recursion follows [childIds] through the index, so it is bounded by
    [fuel]: [None] stands for a call stack that ran out. *)
Fixpoint collectDescendants (fuel : nat) (m : gmap string FieldNode) (fieldId : string)
    : option (list string) :=
  match fuel with
  | O => None
  | S fuel' =>
      match m !! fieldId with
      | None => Some []
      | Some node =>
          foldr (fun childId rest =>
                   match collectDescendants fuel' m childId, rest with
                   | Some d, Some r => Some (childId :: d ++ r)
                   | _, _ => None
                   end) (Some []) (childIds node)
      end
  end.

(** An ID other than [fieldId]: [c => c !== fieldId]. *)
Definition without (fieldId : string) (ids : list string) : list string :=
  filter (fun c => c ≠ fieldId) ids.

Definition renameIn (fieldId newId : string) (ids : list string) : list string :=
  map (fun c => if c =? fieldId then newId else c) ids.

(** ** Lifecycle actions *)

Definition createFormEngine (initial : option (list FieldDefinition)) : FormEngineState :=
  {| normalized := match initial with
                   | Some fields => normalizeDefinition fields
                   | None => EMPTY_NORMALIZED
                   end;
     responses := ∅ |}.

Definition loadDefinition (st : FormEngineState) (fields : list FieldDefinition)
    : FormEngineState :=
  {| normalized := normalizeDefinition fields; responses := ∅ |}.

Definition setResponse (st : FormEngineState) (fieldId : string) (r : FieldResponse)
    : FormEngineState := setResponses st (<[fieldId := r]> (responses st)).

Definition clearResponse (st : FormEngineState) (fieldId : string) : FormEngineState :=
  setResponses st (delete fieldId (responses st)).

Definition resetResponses (st : FormEngineState) : FormEngineState := setResponses st ∅.

(** ** Builder actions *)

(** The loop that makes [count] starter items: each ID is generated against
    the IDs made so far. *)
Fixpoint starterIds (gen : list string -> option string -> string) (count : nat)
    (made : list string) (fieldId : string) : list string :=
  match count with
  | O => made
  | S count' => starterIds gen count' (made ++ [gen made (Some fieldId)]) fieldId
  end.

(** [!list?.length] *)
Definition noItems {A} (l : option (list A)) : bool :=
  match l with
  | Some (_ :: _) => false
  | _ => true
  end.

Definition withOptions (def : FieldDef) (v : option (list FieldOption)) : FieldDef :=
  applyPatch def
    {| p_id := None; p_fieldType := None; p_question := None; p_required := None;
       p_rules := None; p_inputType := None; p_unit := None; p_options := Some v;
       p_rows := None; p_columns := None; p_htmlContent := None;
       p_imageUri := None; p_expression := None; p_displayFormat := None;
       p_decimalPlaces := None; p_title := None |}.

Definition withRows (def : FieldDef) (v : option (list MatrixRow)) : FieldDef :=
  applyPatch def
    {| p_id := None; p_fieldType := None; p_question := None; p_required := None;
       p_rules := None; p_inputType := None; p_unit := None; p_options := None;
       p_rows := Some v; p_columns := None; p_htmlContent := None;
       p_imageUri := None; p_expression := None; p_displayFormat := None;
       p_decimalPlaces := None; p_title := None |}.

Definition withColumns (def : FieldDef) (v : option (list MatrixColumn)) : FieldDef :=
  applyPatch def
    {| p_id := None; p_fieldType := None; p_question := None; p_required := None;
       p_rules := None; p_inputType := None; p_unit := None; p_options := None;
       p_rows := None; p_columns := Some v; p_htmlContent := None;
       p_imageUri := None; p_expression := None; p_displayFormat := None;
       p_decimalPlaces := None; p_title := None |}.

Definition withIdAndType (def : FieldDef) (id fieldType : string) : FieldDef :=
  applyPatch def
    {| p_id := Some id; p_fieldType := Some fieldType; p_question := None;
       p_required := None; p_rules := None; p_inputType := None; p_unit := None;
       p_options := None; p_rows := None; p_columns := None; p_htmlContent := None;
       p_imageUri := None; p_expression := None; p_displayFormat := None;
       p_decimalPlaces := None; p_title := None |}.

(** The definition [addField] builds: defaults, then the caller's patch, then
    the ID and type, then the starter options, rows and columns. *)
Definition newFieldDefinition (m : FieldTypeMeta) (fieldType id : string)
    (patch : option Patch) : FieldDef :=
  let def0 :=
    withIdAndType
      (applyPatch (applyPatch (bareDef id fieldType) (defaultProps m))
                  (match patch with Some p => p | None => emptyPatch end))
      id fieldType in
  let count :=
    match defaultOptionCount m with
    | Some c => c
    | None => if hasOptions m || hasMatrix m then 3%nat else 0%nat
    end in
  let def1 :=
    if hasOptions m && negb (Nat.eqb count 0) && noItems (def_options def0) then
      withOptions def0
        (Some (map (fun oid => {| opt_id := oid; opt_value := EmptyString; opt_text := None |})
                   (starterIds generateOptionId count [] id)))
    else def0 in
  if hasMatrix m && negb (Nat.eqb count 0) then
    let def2 :=
      if noItems (def_rows def1) then
        withRows def1
          (Some (map (fun rid => {| row_id := rid; row_value := EmptyString |})
                     (starterIds generateRowId count [] id)))
      else def1 in
    if noItems (def_columns def2) then
      withColumns def2
        (Some (map (fun cid => {| col_id := cid; col_value := EmptyString |})
                   (starterIds generateColumnId count [] id)))
    else def2
  else def1.

Definition addField (registry : gmap string FieldTypeMeta) (st : FormEngineState)
    (fieldType : string) (options : AddFieldOptions)
    : option string * FormEngineState :=
  match getFieldTypeMeta registry fieldType with
  | None => (None, st)
  | Some m =>
      let n := normalized st in
      let parent := opt_parentId options in
      match parent with
      | Some p =>
          if truthy parent then
            match byId n !! p with
            | None => (None, st)
            | Some parentNode =>
                let id := generateFieldId fieldType (objectKeys (byId n)) parent in
                let def := newFieldDefinition m fieldType id (opt_patch options) in
                let ids := insertAt (childIds parentNode) id (opt_index options) in
                let m1 := <[p := withChildIds parentNode ids]> (byId n) in
                let m2 := <[id := {| definition := def; parentId := parent;
                                     childIds := []; index := 0 |}]> m1 in
                (Some id,
                 setNormalized st {| byId := reindexChildren m2 ids; rootIds := rootIds n |})
            end
          else
            let id := generateFieldId fieldType (objectKeys (byId n)) parent in
            let def := newFieldDefinition m fieldType id (opt_patch options) in
            let roots := insertAt (rootIds n) id (opt_index options) in
            let m1 := <[id := {| definition := def; parentId := None;
                                 childIds := []; index := 0 |}]> (byId n) in
            (Some id, setNormalized st {| byId := reindexChildren m1 roots; rootIds := roots |})
      | None =>
          let id := generateFieldId fieldType (objectKeys (byId n)) None in
          let def := newFieldDefinition m fieldType id (opt_patch options) in
          let roots := insertAt (rootIds n) id (opt_index options) in
          let m1 := <[id := {| definition := def; parentId := None;
                               childIds := []; index := 0 |}]> (byId n) in
          (Some id, setNormalized st {| byId := reindexChildren m1 roots; rootIds := roots |})
      end
  end.

(** The loop of a rename that rewrites [parentId] on the children. *)
Definition reparentChildren (newId : string) (ids : list string)
    (m : gmap string FieldNode) : gmap string FieldNode :=
  fold_left (fun m childId =>
               match m !! childId with
               | Some child => <[childId := withParentId child (Some newId)]> m
               | None => m
               end) ids m.

Definition updateField (st : FormEngineState) (fieldId : string) (patch : Patch)
    : bool * FormEngineState :=
  let n := normalized st in
  match byId n !! fieldId with
  | None => (false, st)
  | Some node =>
      match p_id patch with
      | Some newId =>
          if negb (newId =? fieldId) then
            match byId n !! newId with
            | Some _ => (false, st)
            | None =>
                let newDef := applyPatch (definition node) patch in
                let m0 := <[newId := withDefinition node newDef]> (delete fieldId (byId n)) in
                let '(m1, roots) :=
                  if truthy (parentId node) then
                    match parentId node with
                    | Some p =>
                        match m0 !! p with
                        | Some parentNode =>
                            (<[p := withChildIds parentNode
                                      (renameIn fieldId newId (childIds parentNode))]> m0,
                             rootIds n)
                        | None => (m0, rootIds n)
                        end
                    | None => (m0, rootIds n)
                    end
                  else (m0, renameIn fieldId newId (rootIds n)) in
                (true,
                 setNormalized st {| byId := reparentChildren newId (childIds node) m1;
                                     rootIds := roots |})
            end
          else
            match patchField n fieldId (fun def => Some (applyPatch def patch)) with
            | Some result => (true, setNormalized st result)
            | None => (false, st)
            end
      | None =>
          match patchField n fieldId (fun def => Some (applyPatch def patch)) with
          | Some result => (true, setNormalized st result)
          | None => (false, st)
          end
      end
  end.

(** [None] as the returned value stands for a call stack that ran out inside
    [collectDescendants]; the store is then left as it was. *)
Definition removeField (fuel : nat) (st : FormEngineState) (fieldId : string)
    : option bool * FormEngineState :=
  let n := normalized st in
  match byId n !! fieldId with
  | None => (Some false, st)
  | Some node =>
      match collectDescendants fuel (byId n) fieldId with
      | None => (None, st)
      | Some desc =>
          let toRemove := fieldId :: desc in
          let m0 := filter (fun kv => negb (memberOf kv.1 toRemove) = true) (byId n) in
          let '(m1, roots) :=
            match parentId node with
            | Some p =>
                if truthy (parentId node) then
                  match m0 !! p with
                  | Some parentNode =>
                      let ids := without fieldId (childIds parentNode) in
                      (reindexChildren (<[p := withChildIds parentNode ids]> m0) ids,
                       rootIds n)
                  | None =>
                      let roots := without fieldId (rootIds n) in
                      (reindexChildren m0 roots, roots)
                  end
                else
                  let roots := without fieldId (rootIds n) in
                  (reindexChildren m0 roots, roots)
            | None =>
                let roots := without fieldId (rootIds n) in
                (reindexChildren m0 roots, roots)
            end in
          (Some true, setNormalized st {| byId := m1; rootIds := roots |})
      end
  end.

(** [toParentId]: [None] for [undefined] (keep the current parent),
    [Some None] for [null] (the root), [Some (Some p)] for an ID. *)
Definition moveField (fuel : nat) (st : FormEngineState) (fieldId : string)
    (toIndex : Z) (toParentId : option (option string))
    : option bool * FormEngineState :=
  let n := normalized st in
  match byId n !! fieldId with
  | None => (Some false, st)
  | Some node =>
      let fromParentId := parentId node in
      let targetParentId :=
        match toParentId with
        | None => fromParentId
        | Some t => t
        end in
      if match targetParentId with Some t => t =? fieldId | None => false end
      then (Some false, st)
      else if truthy targetParentId &&
              match targetParentId with
              | Some t => match byId n !! t with None => true | Some _ => false end
              | None => false
              end
      then (Some false, st)
      else
        let guard :=
          match targetParentId with
          | Some t =>
              if truthy targetParentId then
                match collectDescendants fuel (byId n) fieldId with
                | None => None
                | Some desc => Some (memberOf t desc)
                end
              else Some false
          | None => Some false
          end in
        match guard with
        | None => (None, st)
        | Some true => (Some false, st)
        | Some false =>
            let m0 := byId n in
            let '(m1, roots1) :=
              match fromParentId with
              | Some p =>
                  if truthy fromParentId then
                    match m0 !! p with
                    | Some parentNode =>
                        let ids := without fieldId (childIds parentNode) in
                        (reindexChildren (<[p := withChildIds parentNode ids]> m0) ids,
                         rootIds n)
                    | None =>
                        let roots := without fieldId (rootIds n) in
                        (reindexChildren m0 roots, roots)
                    end
                  else
                    let roots := without fieldId (rootIds n) in
                    (reindexChildren m0 roots, roots)
              | None =>
                  let roots := without fieldId (rootIds n) in
                  (reindexChildren m0 roots, roots)
              end in
            let '(m2, roots2) :=
              match targetParentId with
              | Some t =>
                  if truthy targetParentId then
                    match m1 !! t with
                    | Some parentNode =>
                        let ids := insertAt (childIds parentNode) fieldId (Some toIndex) in
                        let m' := <[t := withChildIds parentNode ids]> m1 in
                        let m'' := <[fieldId := withParentId node targetParentId]> m' in
                        (reindexChildren m'' ids, roots1)
                    | None => (m1, roots1)
                    end
                  else
                    let roots := insertAt roots1 fieldId (Some toIndex) in
                    (reindexChildren (<[fieldId := withParentId node None]> m1) roots, roots)
              | None =>
                  let roots := insertAt roots1 fieldId (Some toIndex) in
                  (reindexChildren (<[fieldId := withParentId node None]> m1) roots, roots)
              end in
            (Some true, setNormalized st {| byId := m2; rootIds := roots2 |})
        end
  end.

(** Options, rows and columns *)

Definition orNil {A} (l : option (list A)) : list A :=
  match l with Some l' => l' | None => [] end.

Definition addOption (st : FormEngineState) (fieldId value : string)
    : option string * FormEngineState :=
  let n := normalized st in
  match byId n !! fieldId with
  | None => (None, st)
  | Some node =>
      let opts := orNil (def_options (definition node)) in
      let optionId := generateOptionId (map opt_id opts) (Some fieldId) in
      match patchField n fieldId (fun def =>
              Some (withOptions def
                      (Some (orNil (def_options def) ++
                             [{| opt_id := optionId; opt_value := value;
                                 opt_text := None |}])))) with
      | Some result => (Some optionId, setNormalized st result)
      | None => (None, st)
      end
  end.

Definition setOptionValue (o : FieldOption) (value : string) : FieldOption :=
  {| opt_id := opt_id o; opt_value := value; opt_text := opt_text o |}.

Definition updateOption (st : FormEngineState) (fieldId optionId value : string)
    : bool * FormEngineState :=
  match patchField (normalized st) fieldId (fun def =>
          match def_options def with
          | None => None
          | Some opts =>
              let changed :=
                existsb (fun o => (opt_id o =? optionId) && negb (opt_value o =? value)) opts in
              let next :=
                map (fun o => if negb (opt_id o =? optionId) then o
                              else if opt_value o =? value then o
                              else setOptionValue o value) opts in
              if changed then Some (withOptions def (Some next)) else None
          end) with
  | Some result => (true, setNormalized st result)
  | None => (false, st)
  end.

Definition removeOption (st : FormEngineState) (fieldId optionId : string)
    : bool * FormEngineState :=
  match patchField (normalized st) fieldId (fun def =>
          match def_options def with
          | None => None
          | Some opts =>
              let next := filter (fun o => opt_id o ≠ optionId) opts in
              if negb (Nat.eqb (length next) (length opts))
              then Some (withOptions def (Some next)) else None
          end) with
  | Some result => (true, setNormalized st result)
  | None => (false, st)
  end.

Definition addRow (st : FormEngineState) (fieldId value : string)
    : option string * FormEngineState :=
  let n := normalized st in
  match byId n !! fieldId with
  | None => (None, st)
  | Some node =>
      let rows := orNil (def_rows (definition node)) in
      let rowId := generateRowId (map row_id rows) (Some fieldId) in
      match patchField n fieldId (fun def =>
              Some (withRows def
                      (Some (orNil (def_rows def) ++
                             [{| row_id := rowId; row_value := value |}])))) with
      | Some result => (Some rowId, setNormalized st result)
      | None => (None, st)
      end
  end.

Definition updateRow (st : FormEngineState) (fieldId rowId value : string)
    : bool * FormEngineState :=
  match patchField (normalized st) fieldId (fun def =>
          match def_rows def with
          | None => None
          | Some rows =>
              let changed :=
                existsb (fun r => (row_id r =? rowId) && negb (row_value r =? value)) rows in
              let next :=
                map (fun r => if negb (row_id r =? rowId) then r
                              else if row_value r =? value then r
                              else {| row_id := row_id r; row_value := value |}) rows in
              if changed then Some (withRows def (Some next)) else None
          end) with
  | Some result => (true, setNormalized st result)
  | None => (false, st)
  end.

Definition removeRow (st : FormEngineState) (fieldId rowId : string)
    : bool * FormEngineState :=
  match patchField (normalized st) fieldId (fun def =>
          match def_rows def with
          | None => None
          | Some rows =>
              let next := filter (fun r => row_id r ≠ rowId) rows in
              if negb (Nat.eqb (length next) (length rows))
              then Some (withRows def (Some next)) else None
          end) with
  | Some result => (true, setNormalized st result)
  | None => (false, st)
  end.

Definition addColumn (st : FormEngineState) (fieldId value : string)
    : option string * FormEngineState :=
  let n := normalized st in
  match byId n !! fieldId with
  | None => (None, st)
  | Some node =>
      let cols := orNil (def_columns (definition node)) in
      let colId := generateColumnId (map col_id cols) (Some fieldId) in
      match patchField n fieldId (fun def =>
              Some (withColumns def
                      (Some (orNil (def_columns def) ++
                             [{| col_id := colId; col_value := value |}])))) with
      | Some result => (Some colId, setNormalized st result)
      | None => (None, st)
      end
  end.

Definition updateColumn (st : FormEngineState) (fieldId columnId value : string)
    : bool * FormEngineState :=
  match patchField (normalized st) fieldId (fun def =>
          match def_columns def with
          | None => None
          | Some cols =>
              let changed :=
                existsb (fun c => (col_id c =? columnId) && negb (col_value c =? value)) cols in
              let next :=
                map (fun c => if negb (col_id c =? columnId) then c
                              else if col_value c =? value then c
                              else {| col_id := col_id c; col_value := value |}) cols in
              if changed then Some (withColumns def (Some next)) else None
          end) with
  | Some result => (true, setNormalized st result)
  | None => (false, st)
  end.

Definition removeColumn (st : FormEngineState) (fieldId columnId : string)
    : bool * FormEngineState :=
  match patchField (normalized st) fieldId (fun def =>
          match def_columns def with
          | None => None
          | Some cols =>
              let next := filter (fun c => col_id c ≠ columnId) cols in
              if negb (Nat.eqb (length next) (length cols))
              then Some (withColumns def (Some next)) else None
          end) with
  | Some result => (true, setNormalized st result)
  | None => (false, st)
  end.

(** ** Selectors *)

Definition getField (st : FormEngineState) (fieldId : string) : option FieldNode :=
  byId (normalized st) !! fieldId.

Definition getResponse (st : FormEngineState) (fieldId : string) : option FieldResponse :=
  responses st !! fieldId.

Definition selectEffect (eff : ConditionalEffect) (st : FormEngineState)
    (fieldId : string) : bool :=
  match byId (normalized st) !! fieldId with
  | None => false
  | Some node => resolveEffect eff (definition node) (normalized st) (responses st)
  end.

Definition isVisible : FormEngineState -> string -> bool := selectEffect visible.
Definition isEnabled : FormEngineState -> string -> bool := selectEffect enable.
Definition isRequired : FormEngineState -> string -> bool := selectEffect required.

Definition getFieldErrors (st : FormEngineState) (fieldId : string) : list ValidationError :=
  validateField fieldId (normalized st) (responses st).

Definition getErrors (st : FormEngineState) : list ValidationError :=
  validateForm (normalized st) (responses st).

(** ** Structural edits as data *)

Inductive EditOp :=
  | AddField (fieldType : string) (options : AddFieldOptions)
  | UpdateField (fieldId : string) (patch : Patch)
  | RemoveField (fieldId : string)
  | MoveField (fieldId : string) (toIndex : Z) (toParentId : option (option string)).

(** One edit: the state it leaves, and whether the call returned. *)
Definition applyEdit (fuel : nat) (registry : gmap string FieldTypeMeta)
    (op : EditOp) (st : FormEngineState) : bool * FormEngineState :=
  match op with
  | AddField ty options => (true, snd (addField registry st ty options))
  | UpdateField id patch => (true, snd (updateField st id patch))
  | RemoveField id =>
      let '(r, st') := removeField fuel st id in (bool_decide (is_Some r), st')
  | MoveField id i p =>
      let '(r, st') := moveField fuel st id i p in (bool_decide (is_Some r), st')
  end.

(** A sequence of edits; [None] when one of the calls did not return. *)
Fixpoint applyEdits (fuel : nat) (registry : gmap string FieldTypeMeta)
    (ops : list EditOp) (st : FormEngineState) : option FormEngineState :=
  match ops with
  | [] => Some st
  | op :: ops' =>
      match applyEdit fuel registry op st with
      | (true, st') => applyEdits fuel registry ops' st'
      | (false, _) => None
      end
  end.


(** * Part II: properties *)

(** Specification predicates for the ID generator. *)

(** [id] has the shape [prefix-<digits>] and its digits read as [n]. *)
Definition hasNumericSuffix (prefix id : string) (n : N) : Prop :=
  exists digits, id = prefix +:+ "-" +:+ digits /\ digits <> "" /\
                 allDigits digits = true /\ parseInt10 digits = n.

(** [m] is the largest numeric suffix among [ids] (0 when there is none). *)
Definition isMaxNumericSuffix (prefix : string) (ids : list string) (m : N) : Prop :=
  (forall id n, In id ids -> hasNumericSuffix prefix id n -> (n <= m)%N) /\
  (m = 0%N \/ exists id, In id ids /\ hasNumericSuffix prefix id m).

Section IdGenerator.

Lemma append_cons a (s r : string) : String a s +:+ r = String a (s +:+ r).
Proof. reflexivity. Qed.

Lemma append_nil_l (r : string) : "" +:+ r = r.
Proof. reflexivity. Qed.

Lemma stripPrefix_app p s : stripPrefix p (p +:+ s) = Some s.
Proof.
  induction p as [|a p IH]; [reflexivity|].
  rewrite append_cons. simpl. rewrite Ascii.eqb_refl. exact IH.
Qed.

Lemma stripPrefix_Some p s r : stripPrefix p s = Some r -> s = p +:+ r.
Proof.
  revert s; induction p as [|a p IH]; simpl; intros s H.
  - injection H as ->. reflexivity.
  - destruct s as [|b s]; [discriminate|].
    destruct (Ascii.eqb_spec a b) as [->|]; [|discriminate].
    rewrite append_cons. f_equal. auto.
Qed.

Lemma append_assoc (a b c : string) : (a +:+ b) +:+ c = a +:+ b +:+ c.
Proof.
  induction a as [|x a IH]; [reflexivity|]. rewrite !append_cons. now rewrite IH.
Qed.

Lemma append_nil_r (a : string) : a +:+ "" = a.
Proof.
  induction a as [|x a IH]; [reflexivity|]. rewrite append_cons. now rewrite IH.
Qed.

Lemma string_eqb_false_iff (a b : string) : (a =? b) = false <-> a <> b.
Proof. destruct (String.eqb_spec a b); split; congruence. Qed.

Lemma execSuffixPattern_spec prefix id digits :
  execSuffixPattern prefix id = Some digits <->
  id = prefix +:+ "-" +:+ digits /\ digits <> "" /\ allDigits digits = true.
Proof.
  unfold execSuffixPattern. split.
  - destruct (stripPrefix _ id) as [rest|] eqn:E; [|discriminate].
    apply stripPrefix_Some in E. rewrite append_assoc in E.
    destruct (String.eqb_spec rest ""); simpl; [discriminate|].
    destruct (allDigits rest) eqn:D; [|discriminate].
    intros [= <-]. auto.
  - intros (-> & Hne & Hd). rewrite <- append_assoc, stripPrefix_app.
    apply string_eqb_false_iff in Hne. now rewrite Hne, Hd.
Qed.

Lemma execSuffixPattern_numeric prefix id n :
  hasNumericSuffix prefix id n <->
  exists digits, execSuffixPattern prefix id = Some digits /\ parseInt10 digits = n.
Proof.
  split.
  - intros (d & H1 & H2 & H3 & H4). exists d. split; [|assumption].
    now apply execSuffixPattern_spec.
  - intros (d & H & Hn). apply execSuffixPattern_spec in H as (H1 & H2 & H3).
    now exists d.
Qed.

(** Printing and re-reading a number. *)

Lemma digitValue_digitChar d : (d < 10)%N -> digitValue (digitChar d) = d.
Proof.
  intros H. unfold digitValue, digitChar.
  rewrite nat_ascii_embedding by lia. lia.
Qed.

Lemma isDigit_digitChar d : (d < 10)%N -> isDigit (digitChar d) = true.
Proof.
  intros H. unfold isDigit, digitChar. rewrite nat_ascii_embedding by lia.
  apply andb_true_intro; split; apply Nat.leb_le; lia.
Qed.

Lemma digitsOf_S fuel n acc :
  digitsOf (S fuel) n acc =
  if (n <? 10)%N then String (digitChar (n mod 10)) acc
  else digitsOf fuel (n / 10) (String (digitChar (n mod 10)) acc).
Proof. reflexivity. Qed.

Lemma allDigits_cons c s : allDigits (String c s) = isDigit c && allDigits s.
Proof. reflexivity. Qed.

Lemma digitsOf_acc fuel n acc : digitsOf fuel n acc = digitsOf fuel n "" +:+ acc.
Proof.
  revert n acc; induction fuel as [|f IH]; intros n acc; [reflexivity|].
  rewrite !digitsOf_S.
  destruct (n <? 10)%N; [reflexivity|].
  rewrite (IH _ (String _ acc)), (IH _ (String _ "")).
  now rewrite append_assoc.
Qed.

Lemma parseDigits_app a s1 s2 :
  parseDigits a (s1 +:+ s2) = parseDigits (parseDigits a s1) s2.
Proof. revert a; induction s1 as [|c s1 IH]; intros a; simpl; auto. Qed.

Lemma allDigits_app s1 s2 :
  allDigits (s1 +:+ s2) = allDigits s1 && allDigits s2.
Proof.
  induction s1 as [|c s1 IH]; simpl; [reflexivity|].
  now rewrite IH, andb_assoc.
Qed.

Lemma parseDigits_digitsOf fuel n :
  (n < 2 ^ N.of_nat fuel)%N -> parseDigits 0 (digitsOf fuel n "") = n.
Proof.
  revert n; induction fuel as [|f IH]; intros n H.
  - change (2 ^ N.of_nat 0)%N with 1%N in H. assert (n = 0%N) as -> by lia. reflexivity.
  - rewrite digitsOf_S. destruct (N.ltb_spec n 10) as [Hlt|Hge].
    + cbn [parseDigits]. rewrite N.mod_small by assumption.
      rewrite digitValue_digitChar by assumption. lia.
    + rewrite digitsOf_acc, parseDigits_app, IH.
      * cbn [parseDigits]. rewrite digitValue_digitChar by (apply N.mod_lt; lia).
        pose proof (N.div_mod n 10). lia.
      * rewrite Nat2N.inj_succ, N.pow_succ_r' in H.
        apply N.Div0.div_lt_upper_bound. lia.
Qed.

Lemma allDigits_digitsOf fuel n : allDigits (digitsOf fuel n "") = true.
Proof.
  revert n; induction fuel as [|f IH]; intros n; [reflexivity|].
  rewrite digitsOf_S.
  assert (Hd : isDigit (digitChar (n mod 10)) = true)
    by (apply isDigit_digitChar, N.mod_lt; lia).
  destruct (n <? 10)%N.
  - now rewrite allDigits_cons, Hd.
  - now rewrite digitsOf_acc, allDigits_app, IH, allDigits_cons, Hd.
Qed.

Lemma digitsOf_nonempty fuel n : digitsOf (S fuel) n "" <> "".
Proof.
  rewrite digitsOf_S. destruct (n <? 10)%N; [discriminate|].
  rewrite digitsOf_acc. destruct (digitsOf fuel (n / 10) ""); discriminate.
Qed.

Lemma parseInt10_numberToString n : parseInt10 (numberToString n) = n.
Proof.
  unfold parseInt10, numberToString. apply parseDigits_digitsOf.
  rewrite Nat2N.inj_succ, N2Nat.id.
  destruct n as [|p]; [reflexivity|].
  apply N.log2_spec. lia.
Qed.

Lemma allDigits_numberToString n : allDigits (numberToString n) = true.
Proof. apply allDigits_digitsOf. Qed.

Lemma numberToString_nonempty n : numberToString n <> "".
Proof. apply digitsOf_nonempty. Qed.

Lemma numberToString_suffix prefix n :
  hasNumericSuffix prefix (prefix +:+ "-" +:+ numberToString n) n.
Proof.
  exists (numberToString n).
  auto using numberToString_nonempty, allDigits_numberToString,
    parseInt10_numberToString.
Qed.

(** The maximum computed by the loop. *)

Lemma maxSuffixStep_ge prefix m id : (m <= maxSuffixStep prefix m id)%N.
Proof.
  unfold maxSuffixStep. destruct (execSuffixPattern prefix id); [|lia].
  destruct (N.ltb_spec m (parseInt10 s)); lia.
Qed.

Lemma fold_maxSuffix_ge prefix ids m :
  (m <= fold_left (maxSuffixStep prefix) ids m)%N.
Proof.
  revert m; induction ids as [|id ids IH]; intros m; simpl; [lia|].
  pose proof (maxSuffixStep_ge prefix m id). pose proof (IH (maxSuffixStep prefix m id)). lia.
Qed.

Lemma fold_maxSuffix_upper prefix ids m id n :
  In id ids -> hasNumericSuffix prefix id n ->
  (n <= fold_left (maxSuffixStep prefix) ids m)%N.
Proof.
  revert m; induction ids as [|x ids IH]; intros m Hin Hs; simpl; [destruct Hin|].
  destruct Hin as [->|Hin]; [|auto].
  apply execSuffixPattern_numeric in Hs as (d & Hd & Hn).
  pose proof (fold_maxSuffix_ge prefix ids (maxSuffixStep prefix m id)) as Hge.
  assert (n <= maxSuffixStep prefix m id)%N.
  { unfold maxSuffixStep. rewrite Hd, Hn. destruct (N.ltb_spec m n); lia. }
  lia.
Qed.

Lemma fold_maxSuffix_attained prefix ids m :
  fold_left (maxSuffixStep prefix) ids m = m \/
  exists id, In id ids /\
    hasNumericSuffix prefix id (fold_left (maxSuffixStep prefix) ids m).
Proof.
  revert m; induction ids as [|x ids IH]; intros m; simpl; [now left|].
  destruct (IH (maxSuffixStep prefix m x)) as [E|(id & Hin & Hs)].
  - rewrite E. unfold maxSuffixStep.
    destruct (execSuffixPattern prefix x) as [d|] eqn:Hd; [|now left].
    destruct (N.ltb_spec m (parseInt10 d)); [|now left].
    right. exists x. split; [now left|].
    apply execSuffixPattern_numeric. eauto.
  - right. exists id. split; [now right|assumption].
Qed.

Lemma maxSuffix_isMax prefix ids : isMaxNumericSuffix prefix ids (maxSuffix prefix ids).
Proof.
  split.
  - intros id n. apply fold_maxSuffix_upper.
  - destruct (fold_maxSuffix_attained prefix ids 0) as [E|H]; [now left|now right].
Qed.

Lemma isMaxNumericSuffix_unique prefix ids ids' m m' :
  (forall x, In x ids <-> In x ids') ->
  isMaxNumericSuffix prefix ids m -> isMaxNumericSuffix prefix ids' m' -> m = m'.
Proof.
  intros Heq [U [->|(i & Hi & Hs)]] [U' [->|(i' & Hi' & Hs')]].
  - reflexivity.
  - apply Heq in Hi'. specialize (U _ _ Hi' Hs'). lia.
  - apply Heq in Hi. specialize (U' _ _ Hi Hs). lia.
  - apply Heq in Hi'. apply Heq in Hi.
    specialize (U _ _ Hi' Hs'). specialize (U' _ _ Hi Hs). lia.
Qed.

Lemma existsb_eqb_In (p : string) ids : existsb (String.eqb p) ids = true <-> In p ids.
Proof.
  rewrite existsb_exists. split.
  - intros (x & Hin & E). apply String.eqb_eq in E. now subst.
  - intros H. exists p. split; [assumption|apply String.eqb_refl].
Qed.

Lemma generateId_unused prefix ids : ~ In prefix ids -> generateId prefix ids = prefix.
Proof.
  intros H. unfold generateId.
  destruct (existsb _ ids) eqn:E; [|reflexivity].
  apply existsb_eqb_In in E. contradiction.
Qed.

Lemma generateId_used prefix ids :
  In prefix ids ->
  generateId prefix ids = prefix +:+ "-" +:+ numberToString (maxSuffix prefix ids + 1).
Proof.
  intros H. unfold generateId. apply existsb_eqb_In in H. now rewrite H.
Qed.

Lemma generateId_fresh prefix ids : ~ In (generateId prefix ids) ids.
Proof.
  destruct (in_dec string_dec prefix ids) as [Hin|Hnin].
  - rewrite generateId_used by assumption. intros Hc.
    pose proof (proj1 (maxSuffix_isMax prefix ids) _ _ Hc
                  (numberToString_suffix prefix _)). lia.
  - now rewrite generateId_unused.
Qed.

Lemma generateId_ext prefix ids ids' :
  (forall x, In x ids <-> In x ids') -> generateId prefix ids' = generateId prefix ids.
Proof.
  intros Heq. destruct (in_dec string_dec prefix ids) as [Hin|Hnin].
  - rewrite (generateId_used prefix ids) by assumption.
    rewrite (generateId_used prefix ids') by (apply Heq; assumption).
    now rewrite (isMaxNumericSuffix_unique prefix ids ids' _ _ Heq
                   (maxSuffix_isMax _ _) (maxSuffix_isMax _ _)).
  - rewrite (generateId_unused prefix ids) by assumption.
    apply generateId_unused. now rewrite <- Heq.
Qed.

End IdGenerator.


(** Specification vocabulary for field trees. *)

(** Every ID of a tree, parents before children. *)
Fixpoint fieldIds (d : FieldDefinition) : list string :=
  match d with
  | Field a fs =>
      def_id a :: match fs with
                  | Some l => flat_map fieldIds l
                  | None => []
                  end
  end.

Definition treeIds (t : list FieldDefinition) : list string := flat_map fieldIds t.

(** IDs are unique within the whole form. *)
Definition uniqueIds (t : list FieldDefinition) : Prop := NoDup (treeIds t).

(** Only a section carries children: a field of another type has no
    [fields] attribute. *)
Fixpoint containersOnly (d : FieldDefinition) : bool :=
  match d with
  | Field a None => true
  | Field a (Some l) => (def_fieldType a =? "section") && forallb containersOnly l
  end.

(** No [fields] array of the tree is empty. *)
Fixpoint noEmptyFields (d : FieldDefinition) : bool :=
  match d with
  | Field a None => true
  | Field a (Some l) => negb (Nat.eqb (length l) 0) && forallb noEmptyFields l
  end.

(** The tree with every empty [fields] array left out. *)
Fixpoint dropEmptyFields (d : FieldDefinition) : FieldDefinition :=
  match d with
  | Field a None => Field a None
  | Field a (Some []) => Field a None
  | Field a (Some l) => Field a (Some (map dropEmptyFields l))
  end.

Fixpoint depth (d : FieldDefinition) : nat :=
  match d with
  | Field a None => 1
  | Field a (Some l) => S (list_max (map depth l))
  end.

(** The [childIds] that [walk] records for a field. *)
Definition childIdsOf (d : FieldDefinition) : list string :=
  match d with
  | Field a (Some l) => if def_fieldType a =? "section" then map fieldId l else []
  | Field a None => []
  end.

(** The index [m] holds field [d] (with parent [parent] at position [i]) and,
    under a section, all of its descendants. *)
Inductive Rep (m : gmap string FieldNode) : option string -> nat -> FieldDefinition -> Prop :=
  | Rep_field parent i a fs :
      m !! def_id a = Some {| definition := a; parentId := parent;
                              childIds := childIdsOf (Field a fs); index := i |} ->
      (forall l j c, fs = Some l -> def_fieldType a = "section" ->
                     l !! j = Some c -> Rep m (Some (def_id a)) j c) ->
      Rep m parent i (Field a fs).

Section Normalizer.

Lemma FieldDefinition_tree_ind (P : FieldDefinition -> Prop) :
  (forall a, P (Field a None)) ->
  (forall a l, Forall P l -> P (Field a (Some l))) ->
  forall d, P d.
Proof.
  intros HN HS. fix IH 1. intros [a [l|]]; [|apply HN].
  apply HS. induction l as [|c l IHl]; constructor; [apply IH|exact IHl].
Qed.

Lemma walkField_unfold a fs parent i acc :
  walkField (Field a fs) parent i acc =
  let '(ids, acc1) :=
    match fs with
    | Some children =>
        if def_fieldType a =? "section" then walk children (Some (def_id a)) 0 acc
        else ([], acc)
    | None => ([], acc)
    end in
  <[def_id a := {| definition := a; parentId := parent; childIds := ids; index := i |}]> acc1.
Proof.
  destruct fs as [children|]; [|reflexivity].
  cbn [walkField]. destruct (def_fieldType a =? "section"); [|reflexivity].
  generalize 0%nat as j. revert acc.
  assert (H : forall l j acc,
    (fix walkChildren (defs : list FieldDefinition) (j : nat)
         (acc : gmap string FieldNode) : list string * gmap string FieldNode :=
       match defs with
       | [] => ([], acc)
       | d :: defs' =>
           let acc1 := walkField d (Some (def_id a)) j acc in
           let '(ids, acc2) := walkChildren defs' (S j) acc1 in
           (fieldId d :: ids, acc2)
       end) l j acc = walk l (Some (def_id a)) j acc).
  { induction l as [|d l IHl]; intros j acc; [reflexivity|].
    cbn [walk]. rewrite <- IHl. reflexivity. }
  intros acc j. rewrite H. reflexivity.
Qed.

Lemma walk_ids defs parent i acc : fst (walk defs parent i acc) = map fieldId defs.
Proof.
  revert i acc; induction defs as [|d defs IH]; intros i acc; [reflexivity|].
  cbn [walk]. specialize (IH (S i) (walkField d parent i acc)).
  destruct (walk defs parent (S i) _). simpl in *. now f_equal.
Qed.

Lemma Rep_ext m m' parent i d :
  (forall k, k ∈ fieldIds d -> m' !! k = m !! k) ->
  Rep m parent i d -> Rep m' parent i d.
Proof.
  revert parent i. induction d as [a|a l IH] using FieldDefinition_tree_ind;
    intros parent i Hk HR; inversion HR as [? ? ? ? Hn Hc]; subst.
  - constructor; [|discriminate]. rewrite Hk; [exact Hn|]. simpl. left.
  - constructor.
    + rewrite Hk; [exact Hn|]. simpl. left.
    + intros l' j c [= <-] Hs Hj.
      rewrite Forall_forall in IH. apply IH.
      * eapply list_elem_of_lookup_2; eassumption.
      * intros k Hin. apply Hk. simpl. right.
        apply list_elem_of_In, in_flat_map. exists c. split.
        -- apply list_elem_of_In. eapply list_elem_of_lookup_2; eassumption.
        -- now apply list_elem_of_In.
      * eapply Hc; eauto.
Qed.

(** What one call of [walk] does to the index. *)
Definition walkFieldSpec (d : FieldDefinition) : Prop :=
  forall parent i acc,
    (forall k, k ∉ fieldIds d -> walkField d parent i acc !! k = acc !! k) /\
    (NoDup (fieldIds d) -> Rep (walkField d parent i acc) parent i d).

Definition walkSpec (defs : list FieldDefinition) : Prop :=
  forall parent i acc,
    (forall k, k ∉ treeIds defs -> snd (walk defs parent i acc) !! k = acc !! k) /\
    (NoDup (treeIds defs) ->
     forall j d, defs !! j = Some d -> Rep (snd (walk defs parent i acc)) parent (i + j) d).

Lemma walkSpec_of_fields defs : Forall walkFieldSpec defs -> walkSpec defs.
Proof.
  induction 1 as [|d defs Hd _ IH]; intros parent i acc.
  - split; [reflexivity|]. intros _ j d Hj. rewrite lookup_nil in Hj. discriminate.
  - cbn [walk]. destruct (Hd parent i acc) as [Hd1 Hd2].
    destruct (IH parent (S i) (walkField d parent i acc)) as [IH1 IH2].
    destruct (walk defs parent (S i) (walkField d parent i acc)) as [ids acc2] eqn:E.
    simpl in *. unfold treeIds in *. simpl. split.
    + intros k Hk. rewrite elem_of_app in Hk.
      rewrite IH1 by tauto. apply Hd1. tauto.
    + intros Hnd. apply NoDup_app in Hnd as (Hnd1 & Hdisj & Hnd2).
      intros [|j] d' Hj; simpl in Hj.
      * injection Hj as <-. rewrite Nat.add_0_r.
        eapply Rep_ext; [|apply Hd2, Hnd1].
        intros k Hk. apply IH1. intros Hk'. eapply Hdisj; eassumption.
      * replace (i + S j)%nat with (S i + j)%nat by lia. now apply IH2.
Qed.

Lemma walkField_spec d : walkFieldSpec d.
Proof.
  induction d as [a|a l IH] using FieldDefinition_tree_ind; intros parent i acc.
  - rewrite walkField_unfold. simpl. split.
    + intros k Hk. apply lookup_insert_ne. intros <-. apply Hk. left.
    + intros _. constructor; [|discriminate]. apply lookup_insert_eq.
  - rewrite walkField_unfold. apply walkSpec_of_fields in IH.
    destruct (String.eqb_spec (def_fieldType a) "section") as [Hs|Hs].
    + destruct (IH (Some (def_id a)) 0%nat acc) as [IH1 IH2].
      pose proof (walk_ids l (Some (def_id a)) 0%nat acc) as Hids.
      destruct (walk l (Some (def_id a)) 0%nat acc) as [ids acc1].
      simpl in *. subst ids. split.
      * intros k Hk. rewrite not_elem_of_cons in Hk. destruct Hk as [Hne Hk].
        rewrite lookup_insert_ne by congruence. now apply IH1.
      * intros Hnd. apply NoDup_cons in Hnd as [Hni Hnd]. constructor.
        -- rewrite lookup_insert_eq. simpl. rewrite Hs. reflexivity.
        -- intros l' j c [= <-] _ Hj.
           eapply Rep_ext; [|apply (IH2 Hnd j c Hj)].
           intros k Hk. apply lookup_insert_ne. intros <-. apply Hni.
           apply list_elem_of_In, in_flat_map. exists c. split.
           ++ apply list_elem_of_In. eapply list_elem_of_lookup_2; eassumption.
           ++ now apply list_elem_of_In.
    + simpl. split.
      * intros k Hk. rewrite not_elem_of_cons in Hk. destruct Hk as [Hne Hk].
        now rewrite lookup_insert_ne by congruence.
      * intros _. constructor.
        -- rewrite lookup_insert_eq. simpl.
           apply String.eqb_neq in Hs. rewrite Hs. reflexivity.
        -- intros ? ? ? _ Hs'. contradiction.
Qed.

Lemma walk_spec defs : walkSpec defs.
Proof. apply walkSpec_of_fields, Forall_forall. intros d _. apply walkField_spec. Qed.

Lemma normalizeDefinition_rootIds t : rootIds (normalizeDefinition t) = map fieldId t.
Proof.
  unfold normalizeDefinition. pose proof (walk_ids t None 0%nat ∅) as H.
  destruct (walk t None 0%nat ∅). exact H.
Qed.

Lemma normalizeDefinition_Rep t :
  uniqueIds t ->
  forall j d, t !! j = Some d -> Rep (byId (normalizeDefinition t)) None j d.
Proof.
  intros Hu j d Hj. unfold normalizeDefinition.
  destruct (walk_spec t None 0%nat ∅) as [_ H].
  specialize (H Hu j d Hj).
  destruct (walk t None 0%nat ∅). exact H.
Qed.

(** Rebuilding a represented tree. *)

Lemma build_S fuel n ids :
  build (S fuel) n ids =
  mapM (fun id =>
    match byId n !! id with
    | None => Some (Field (bareDef id "text") None)
    | Some node =>
        match childIds node with
        | [] => Some (Field (definition node) None)
        | _ :: _ =>
            match build fuel n (childIds node) with
            | Some fs => Some (Field (definition node) (Some fs))
            | None => None
            end
        end
    end) ids.
Proof. reflexivity. Qed.

Definition buildSpec (n : NormalizedDefinition) (d : FieldDefinition) : Prop :=
  forall parent i fuel,
    containersOnly d = true -> Rep (byId n) parent i d -> (depth d <= fuel)%nat ->
    build fuel n [fieldId d] = Some [dropEmptyFields d].

Lemma build_cons fuel n id ids x xs :
  build fuel n [id] = Some [x] -> build fuel n ids = Some xs ->
  build fuel n (id :: ids) = Some (x :: xs).
Proof.
  destruct fuel as [|fuel]; [discriminate|].
  rewrite !build_S. cbn [mapM]. intros H1 H2.
  destruct (match byId n !! id with Some _ => _ | None => _ end) as [y|];
    [|discriminate].
  simpl in H1. injection H1 as ->. rewrite H2. reflexivity.
Qed.

Lemma build_nil fuel n : build (S fuel) n [] = Some [].
Proof. reflexivity. Qed.

Lemma build_all n l parent fuel i0 :
  Forall (buildSpec n) l ->
  forallb containersOnly l = true ->
  (forall j c, l !! j = Some c -> Rep (byId n) parent (i0 + j) c) ->
  (list_max (map depth l) <= fuel)%nat -> (0 < fuel)%nat ->
  build fuel n (map fieldId l) = Some (map dropEmptyFields l).
Proof.
  intros HF. revert i0. induction HF as [|c l Hc _ IH]; intros i0 Hco HR Hd Hpos.
  - destruct fuel; [lia|reflexivity].
  - simpl in Hco. apply andb_true_iff in Hco as [Hc1 Hc2].
    change (list_max (map depth (c :: l)))
      with (Nat.max (depth c) (list_max (map depth l))) in Hd.
    simpl. apply build_cons.
    + eapply Hc; [assumption| |lia]. specialize (HR 0%nat c eq_refl). exact HR.
    + apply (IH (S i0)); [assumption| |lia|lia].
      intros j c' Hj. replace (S i0 + j)%nat with (i0 + S j)%nat by lia.
      now apply HR.
Qed.

Lemma depth_pos d : (0 < depth d)%nat.
Proof. destruct d as [a [l|]]; simpl; lia. Qed.

Lemma build_field n d : buildSpec n d.
Proof.
  induction d as [a|a l IH] using FieldDefinition_tree_ind;
    intros parent i fuel Hco HR Hd; inversion HR as [? ? ? ? Hn Hc]; subst.
  - destruct fuel as [|fuel]; [simpl in Hd; lia|].
    rewrite build_S. cbn [mapM]. unfold fieldId. simpl. rewrite Hn. reflexivity.
  - simpl in Hco. apply andb_true_iff in Hco as [Hs Hco].
    apply String.eqb_eq in Hs.
    destruct fuel as [|fuel]; [simpl in Hd; lia|].
    rewrite build_S. cbn [mapM]. unfold fieldId. simpl fieldAttrs. rewrite Hn.
    cbn [childIds definition childIdsOf]. rewrite Hs. simpl (_ =? _).
    destruct l as [|c l]; [reflexivity|].
    change (map fieldId (c :: l)) with (fieldId c :: map fieldId l).
    change (fieldId c :: map fieldId l) with (map fieldId (c :: l)).
    rewrite (build_all n (c :: l) (Some (def_id a)) fuel 0%nat); try assumption.
    + reflexivity.
    + intros j c' Hj. eapply Hc; eauto.
    + change (depth (Field a (Some (c :: l))))
        with (S (list_max (map depth (c :: l)))) in Hd. lia.
    + change (depth (Field a (Some (c :: l))))
        with (S (Nat.max (depth c) (list_max (map depth l)))) in Hd.
      pose proof (depth_pos c). lia.
Qed.

Lemma dropEmptyFields_id d : noEmptyFields d = true -> dropEmptyFields d = d.
Proof.
  induction d as [a|a l IH] using FieldDefinition_tree_ind; [reflexivity|].
  simpl. intros H. apply andb_true_iff in H as [Hl H].
  destruct l as [|c l]; [discriminate|]. f_equal. f_equal.
  clear Hl. revert H. induction IH as [|x xs Hx _ IHxs]; [reflexivity|].
  simpl. intros H. apply andb_true_iff in H as [H1 H2].
  rewrite Hx by assumption. now rewrite IHxs.
Qed.

End Normalizer.

Definition roundTripCounterexample : list FieldDefinition :=
  [Field (bareDef "s1" "section") (Some [])].

(** C1, as stated, fails: a section whose [fields] array is empty comes back
    without the array, whatever the fuel. *)
Lemma roundTrip_fails_on_empty_section :
  uniqueIds roundTripCounterexample /\
  forallb containersOnly roundTripCounterexample = true /\
  ~ exists fuel, hydrateDefinition fuel (normalizeDefinition roundTripCounterexample)
                 = Some roundTripCounterexample.
Proof.
  split; [|split; [reflexivity|]].
  - unfold uniqueIds. simpl. apply NoDup_singleton.
  - intros [[|fuel] H]; [discriminate|].
    vm_compute in H. discriminate.
Qed.

(** C1 (amended). For a tree whose IDs are unique and where only sections carry
    children, hydrating the normalized tree gives back the tree with every
    empty [fields] array dropped, for any fuel above the tree's depth; hence
    the tree itself when no [fields] array is empty. *)
Theorem hydrate_normalize_roundTrip (t : list FieldDefinition) :
  uniqueIds t -> forallb containersOnly t = true ->
  forall fuel, (list_max (map depth t) < fuel)%nat ->
    hydrateDefinition fuel (normalizeDefinition t) = Some (map dropEmptyFields t) /\
    (forallb noEmptyFields t = true ->
     hydrateDefinition fuel (normalizeDefinition t) = Some t).
Proof.
  intros Hu Hc fuel Hf.
  assert (H : hydrateDefinition fuel (normalizeDefinition t) = Some (map dropEmptyFields t)).
  { unfold hydrateDefinition. rewrite normalizeDefinition_rootIds.
    apply (build_all _ t None fuel 0%nat); try assumption; try lia.
    - apply Forall_forall. intros d _. apply build_field.
    - intros j c Hj. now apply normalizeDefinition_Rep. }
  split; [exact H|].
  intros Hne. rewrite H. f_equal.
  clear -Hne. induction t as [|d t IH]; [reflexivity|].
  simpl in *. apply andb_true_iff in Hne as [H1 H2].
  rewrite dropEmptyFields_id by assumption. now rewrite IH.
Qed.

Definition roundTripWitness : list FieldDefinition :=
  [Field (bareDef "outer" "section")
     (Some [Field (bareDef "inner" "section")
              (Some [Field (bareDef "deep" "text") None])]);
   Field (bareDef "q2" "radio") None].

Lemma hydrate_normalize_roundTrip_witness :
  hydrateDefinition 4 (normalizeDefinition roundTripWitness) = Some roundTripWitness.
Proof.
  refine (proj2 (hydrate_normalize_roundTrip roundTripWitness _ _ 4%nat _) _).
  - unfold uniqueIds. vm_compute. repeat constructor; set_solver.
  - reflexivity.
  - vm_compute. lia.
  - reflexivity.
Defined.

(** Specification vocabulary for rules. *)

(** The rules of a field whose effect is [eff]. *)
Definition matchingRules (eff : ConditionalEffect) (field : FieldDef) : list ConditionalRule :=
  filter (fun r => effect r = eff) (orNil (def_rules field)).

(** A condition is true: its target is in the index and the evaluator
    accepts the target's definition and answer. *)
Definition conditionTrue (n : NormalizedDefinition) (r : gmap string FieldResponse)
    (c : Condition) : Prop :=
  exists node, byId n !! targetId c = Some node /\
               evaluateCondition c (definition node) (r !! targetId c) = true.

Definition requiredError (fieldId : string) : ValidationError :=
  {| err_fieldId := fieldId; err_rule := "required";
     err_message := "This field is required" |}.

Section Rules.

Lemma conditionHolds_true n r c : conditionHolds n r c = true <-> conditionTrue n r c.
Proof.
  unfold conditionHolds, conditionTrue. destruct (byId n !! targetId c) as [node|].
  - split; [intros H; exists node; auto|intros (node' & [= <-] & H); exact H].
  - split; [discriminate|intros (node' & [=] & _)].
Qed.

Lemma existsb_id_map {A} (f : A -> bool) l :
  existsb (fun b => b) (map f l) = existsb f l.
Proof. induction l as [|x l IH]; simpl; [reflexivity|now rewrite IH]. Qed.

Lemma forallb_id_map {A} (f : A -> bool) l :
  forallb (fun b => b) (map f l) = forallb f l.
Proof. induction l as [|x l IH]; simpl; [reflexivity|now rewrite IH]. Qed.

Lemma evaluateRule_true rule n r :
  evaluateRule rule n r = true <->
  conditions rule = [] \/
  (logic rule = OR /\ exists c, In c (conditions rule) /\ conditionTrue n r c) \/
  (logic rule = AND /\ forall c, In c (conditions rule) -> conditionTrue n r c).
Proof.
  unfold evaluateRule. destruct (conditions rule) as [|c0 cs] eqn:E.
  - split; [now left|reflexivity].
  - destruct (logic rule).
    + rewrite forallb_id_map, forallb_forall. split.
      * intros H. right. right. split; [reflexivity|].
        intros c Hc. apply conditionHolds_true. auto.
      * intros [H|[[H _]|[_ H]]]; [discriminate|discriminate|].
        intros c Hc. apply conditionHolds_true. auto.
    + rewrite existsb_id_map, existsb_exists. split.
      * intros (c & Hc & H). right. left. split; [reflexivity|].
        exists c. split; [assumption|now apply conditionHolds_true].
      * intros [H|[[_ (c & Hc & H)]|[H _]]]; [discriminate| |discriminate].
        exists c. split; [assumption|now apply conditionHolds_true].
Qed.

Lemma resolveEffect_unfold eff field n r :
  resolveEffect eff field n r =
  match matchingRules eff field with
  | [] => match eff with
          | required => match def_required field with Some b => b | None => false end
          | _ => true
          end
  | rs => existsb (fun rule => evaluateRule rule n r) rs
  end.
Proof.
  unfold resolveEffect, matchingRules. destruct (def_rules field) as [rs|]; simpl.
  - destruct (filter _ rs); [destruct eff|]; reflexivity.
  - destruct eff; reflexivity.
Qed.

End Rules.


Section Validation.

Lemma validateField_unknown id n r : byId n !! id = None -> validateField id n r = [].
Proof. intros H. unfold validateField. now rewrite H. Qed.

Lemma validateField_known id n r node :
  byId n !! id = Some node ->
  validateField id n r =
  if memberOf (def_fieldType (definition node)) NON_INPUT_TYPES then []
  else if negb (resolveEffect visible (definition node) n r) then []
  else if resolveEffect required (definition node) n r && isResponseEmpty (r !! id)
       then [requiredError id] else [].
Proof. intros H. unfold validateField. now rewrite H. Qed.

End Validation.


(** C10. A structural edit leaves the answers as they are: so does every
    [addField], [updateField], [removeField] and [moveField]; the answer of
    a removed field, and of each of its descendants, stays, and the answer of
    a renamed field stays under its old ID. *)
Theorem edits_keep_responses (fuel : nat) (registry : gmap string FieldTypeMeta)
    (st : FormEngineState) :
  (forall op, responses (snd (applyEdit fuel registry op st)) = responses st) /\
  (forall ty options, responses (snd (addField registry st ty options)) = responses st) /\
  (forall id patch, responses (snd (updateField st id patch)) = responses st) /\
  (forall id, responses (snd (removeField fuel st id)) = responses st) /\
  (forall id i p, responses (snd (moveField fuel st id i p)) = responses st) /\
  (forall id other, getResponse (snd (removeField fuel st id)) other = getResponse st other) /\
  (forall id patch, getResponse (snd (updateField st id patch)) id = getResponse st id).
Proof.
  assert (Hadd : forall ty options,
            responses (snd (addField registry st ty options)) = responses st).
  { intros ty options. unfold addField.
    destruct (getFieldTypeMeta registry ty); [|reflexivity].
    destruct (opt_parentId options) as [p|]; [|reflexivity].
    destruct (truthy (Some p)); [|reflexivity].
    destruct (byId (normalized st) !! p); reflexivity. }
  assert (Hupd : forall id patch,
            responses (snd (updateField st id patch)) = responses st).
  { intros id patch. unfold updateField.
    destruct (byId (normalized st) !! id) as [node|] eqn:E; [|reflexivity].
    unfold patchField. rewrite E.
    destruct (p_id patch) as [newId|]; [|reflexivity].
    destruct (negb (newId =? id)); [|reflexivity].
    destruct (byId (normalized st) !! newId); [reflexivity|].
    destruct (truthy (parentId node)); [|reflexivity].
    destruct (parentId node) as [p|]; [|reflexivity].
    destruct (_ !! p); reflexivity. }
  assert (Hrem : forall id, responses (snd (removeField fuel st id)) = responses st).
  { intros id. unfold removeField.
    destruct (byId (normalized st) !! id) as [node|]; [|reflexivity].
    destruct (collectDescendants fuel _ id); [|reflexivity].
    destruct (parentId node) as [p|]; [|reflexivity].
    destruct (truthy (Some p)); [|reflexivity].
    destruct (_ !! p); reflexivity. }
  assert (Hmov : forall id i p, responses (snd (moveField fuel st id i p)) = responses st).
  { intros id i p. unfold moveField.
    destruct (byId (normalized st) !! id) as [node|]; [|reflexivity].
    destruct (match match p with Some t => t | None => parentId node end with
              | Some t => t =? id | None => false end); [reflexivity|].
    destruct (truthy _ && _); [reflexivity|].
    destruct (match match p with Some t => t | None => parentId node end with
              | Some t => _ | None => Some false end) as [[|]|]; try reflexivity.
    destruct (match parentId node with Some p0 => _ | None => _ end) as [m1 roots1].
    destruct (match match p with Some t => t | None => parentId node end with
              | Some t => _ | None => _ end) as [m2 roots2].
    reflexivity. }
  split; [|split; [|split; [|split; [|split; [|split]]]]]; try assumption.
  - intros [ty options|id patch|id|id i p]; simpl.
    + apply Hadd.
    + apply Hupd.
    + specialize (Hrem id). destruct (removeField fuel st id). exact Hrem.
    + specialize (Hmov id i p). destruct (moveField fuel st id i p). exact Hmov.
  - intros id other. unfold getResponse. now rewrite Hrem.
  - intros id patch. unfold getResponse. now rewrite Hupd.
Qed.

Section ItemUpdates.

Definition replaceOptionValue (itemId value : string) (o : FieldOption) : FieldOption :=
  if opt_id o =? itemId then setOptionValue o value else o.

Lemma updateOption_next itemId value (items : list FieldOption) :
  map (fun o => if negb (opt_id o =? itemId) then o
                else if opt_value o =? value then o
                else setOptionValue o value) items
  = map (replaceOptionValue itemId value) items.
Proof.
  apply map_ext. intros o. unfold replaceOptionValue.
  destruct (opt_id o =? itemId); simpl; [|reflexivity].
  destruct (String.eqb_spec (opt_value o) value) as [E|E]; [|reflexivity].
  destruct o; simpl in *. now subst.
Qed.

Lemma updateOption_changed itemId value (items : list FieldOption) :
  existsb (fun o => (opt_id o =? itemId) && negb (opt_value o =? value)) items = true <->
  exists o, In o items /\ opt_id o = itemId /\ opt_value o <> value.
Proof.
  rewrite existsb_exists. split; intros (o & Hin & H); exists o; (split; [assumption|]).
  - apply andb_true_iff in H as [H1 H2]. apply String.eqb_eq in H1.
    apply negb_true_iff, String.eqb_neq in H2. auto.
  - destruct H as [H1 H2]. apply andb_true_iff. split.
    + now apply String.eqb_eq.
    + now apply negb_true_iff, String.eqb_neq.
Qed.

Lemma updateOption_spec st fieldId itemId value :
  (fst (updateOption st fieldId itemId value) = true <->
   exists node items,
     byId (normalized st) !! fieldId = Some node /\
     def_options (definition node) = Some items /\
     exists o, In o items /\ opt_id o = itemId /\ opt_value o <> value) /\
  (fst (updateOption st fieldId itemId value) = false ->
   snd (updateOption st fieldId itemId value) = st) /\
  (forall node items,
     byId (normalized st) !! fieldId = Some node ->
     def_options (definition node) = Some items ->
     fst (updateOption st fieldId itemId value) = true ->
     snd (updateOption st fieldId itemId value) =
     setNormalized st
       (withById (normalized st)
          (<[fieldId := withDefinition node
                          (withOptions (definition node)
                             (Some (map (replaceOptionValue itemId value) items)))]>
             (byId (normalized st))))).
Proof.
  unfold updateOption, patchField.
  destruct (byId (normalized st) !! fieldId) as [node|] eqn:En.
  2:{ simpl. split; [|split]; [split; [discriminate|]|reflexivity|discriminate].
      intros (? & ? & [=] & _). }
  destruct (def_options (definition node)) as [items|] eqn:Ei.
  2:{ simpl. split; [|split]; [split; [discriminate|]|reflexivity|discriminate].
      intros (? & ? & Hn & H & _). injection Hn as <-. congruence. }
  rewrite updateOption_next.
  destruct (existsb _ items) eqn:Ec; simpl.
  - apply updateOption_changed in Ec. split; [|split].
    + split; [intros _; exists node, items; auto|reflexivity].
    + discriminate.
    + intros node' items' Hn Hi _. injection Hn as <-.
      rewrite Ei in Hi. injection Hi as <-. reflexivity.
  - split; [|split].
    + split; [discriminate|]. intros (node' & items' & Hn & Hi & H).
      injection Hn as <-. rewrite Ei in Hi. injection Hi as <-.
      apply updateOption_changed in H. congruence.
    + reflexivity.
    + discriminate.
Qed.

Definition replaceRowValue (itemId value : string) (o : MatrixRow) : MatrixRow :=
  if row_id o =? itemId then {| row_id := row_id o; row_value := value |} else o.

Lemma updateRow_next itemId value (items : list MatrixRow) :
  map (fun o => if negb (row_id o =? itemId) then o
                else if row_value o =? value then o
                else {| row_id := row_id o; row_value := value |}) items
  = map (replaceRowValue itemId value) items.
Proof.
  apply map_ext. intros o. unfold replaceRowValue.
  destruct (row_id o =? itemId); simpl; [|reflexivity].
  destruct (String.eqb_spec (row_value o) value) as [E|E]; [|reflexivity].
  destruct o; simpl in *. now subst.
Qed.

Lemma updateRow_changed itemId value (items : list MatrixRow) :
  existsb (fun o => (row_id o =? itemId) && negb (row_value o =? value)) items = true <->
  exists o, In o items /\ row_id o = itemId /\ row_value o <> value.
Proof.
  rewrite existsb_exists. split; intros (o & Hin & H); exists o; (split; [assumption|]).
  - apply andb_true_iff in H as [H1 H2]. apply String.eqb_eq in H1.
    apply negb_true_iff, String.eqb_neq in H2. auto.
  - destruct H as [H1 H2]. apply andb_true_iff. split.
    + now apply String.eqb_eq.
    + now apply negb_true_iff, String.eqb_neq.
Qed.

Lemma updateRow_spec st fieldId itemId value :
  (fst (updateRow st fieldId itemId value) = true <->
   exists node items,
     byId (normalized st) !! fieldId = Some node /\
     def_rows (definition node) = Some items /\
     exists o, In o items /\ row_id o = itemId /\ row_value o <> value) /\
  (fst (updateRow st fieldId itemId value) = false ->
   snd (updateRow st fieldId itemId value) = st) /\
  (forall node items,
     byId (normalized st) !! fieldId = Some node ->
     def_rows (definition node) = Some items ->
     fst (updateRow st fieldId itemId value) = true ->
     snd (updateRow st fieldId itemId value) =
     setNormalized st
       (withById (normalized st)
          (<[fieldId := withDefinition node
                          (withRows (definition node)
                             (Some (map (replaceRowValue itemId value) items)))]>
             (byId (normalized st))))).
Proof.
  unfold updateRow, patchField.
  destruct (byId (normalized st) !! fieldId) as [node|] eqn:En.
  2:{ simpl. split; [|split]; [split; [discriminate|]|reflexivity|discriminate].
      intros (? & ? & [=] & _). }
  destruct (def_rows (definition node)) as [items|] eqn:Ei.
  2:{ simpl. split; [|split]; [split; [discriminate|]|reflexivity|discriminate].
      intros (? & ? & Hn & H & _). injection Hn as <-. congruence. }
  rewrite updateRow_next.
  destruct (existsb _ items) eqn:Ec; simpl.
  - apply updateRow_changed in Ec. split; [|split].
    + split; [intros _; exists node, items; auto|reflexivity].
    + discriminate.
    + intros node' items' Hn Hi _. injection Hn as <-.
      rewrite Ei in Hi. injection Hi as <-. reflexivity.
  - split; [|split].
    + split; [discriminate|]. intros (node' & items' & Hn & Hi & H).
      injection Hn as <-. rewrite Ei in Hi. injection Hi as <-.
      apply updateRow_changed in H. congruence.
    + reflexivity.
    + discriminate.
Qed.

Definition replaceColumnValue (itemId value : string) (o : MatrixColumn) : MatrixColumn :=
  if col_id o =? itemId then {| col_id := col_id o; col_value := value |} else o.

Lemma updateColumn_next itemId value (items : list MatrixColumn) :
  map (fun o => if negb (col_id o =? itemId) then o
                else if col_value o =? value then o
                else {| col_id := col_id o; col_value := value |}) items
  = map (replaceColumnValue itemId value) items.
Proof.
  apply map_ext. intros o. unfold replaceColumnValue.
  destruct (col_id o =? itemId); simpl; [|reflexivity].
  destruct (String.eqb_spec (col_value o) value) as [E|E]; [|reflexivity].
  destruct o; simpl in *. now subst.
Qed.

Lemma updateColumn_changed itemId value (items : list MatrixColumn) :
  existsb (fun o => (col_id o =? itemId) && negb (col_value o =? value)) items = true <->
  exists o, In o items /\ col_id o = itemId /\ col_value o <> value.
Proof.
  rewrite existsb_exists. split; intros (o & Hin & H); exists o; (split; [assumption|]).
  - apply andb_true_iff in H as [H1 H2]. apply String.eqb_eq in H1.
    apply negb_true_iff, String.eqb_neq in H2. auto.
  - destruct H as [H1 H2]. apply andb_true_iff. split.
    + now apply String.eqb_eq.
    + now apply negb_true_iff, String.eqb_neq.
Qed.

Lemma updateColumn_spec st fieldId itemId value :
  (fst (updateColumn st fieldId itemId value) = true <->
   exists node items,
     byId (normalized st) !! fieldId = Some node /\
     def_columns (definition node) = Some items /\
     exists o, In o items /\ col_id o = itemId /\ col_value o <> value) /\
  (fst (updateColumn st fieldId itemId value) = false ->
   snd (updateColumn st fieldId itemId value) = st) /\
  (forall node items,
     byId (normalized st) !! fieldId = Some node ->
     def_columns (definition node) = Some items ->
     fst (updateColumn st fieldId itemId value) = true ->
     snd (updateColumn st fieldId itemId value) =
     setNormalized st
       (withById (normalized st)
          (<[fieldId := withDefinition node
                          (withColumns (definition node)
                             (Some (map (replaceColumnValue itemId value) items)))]>
             (byId (normalized st))))).
Proof.
  unfold updateColumn, patchField.
  destruct (byId (normalized st) !! fieldId) as [node|] eqn:En.
  2:{ simpl. split; [|split]; [split; [discriminate|]|reflexivity|discriminate].
      intros (? & ? & [=] & _). }
  destruct (def_columns (definition node)) as [items|] eqn:Ei.
  2:{ simpl. split; [|split]; [split; [discriminate|]|reflexivity|discriminate].
      intros (? & ? & Hn & H & _). injection Hn as <-. congruence. }
  rewrite updateColumn_next.
  destruct (existsb _ items) eqn:Ec; simpl.
  - apply updateColumn_changed in Ec. split; [|split].
    + split; [intros _; exists node, items; auto|reflexivity].
    + discriminate.
    + intros node' items' Hn Hi _. injection Hn as <-.
      rewrite Ei in Hi. injection Hi as <-. reflexivity.
  - split; [|split].
    + split; [discriminate|]. intros (node' & items' & Hn & Hi & H).
      injection Hn as <-. rewrite Ei in Hi. injection Hi as <-.
      apply updateColumn_changed in H. congruence.
    + reflexivity.
    + discriminate.
Qed.

End ItemUpdates.

Definition oneOptionField : FieldDef :=
  withOptions (bareDef "q1" "radio")
    (Some [{| opt_id := "o1"; opt_value := "A"; opt_text := None |}]).

Definition oneOptionState : FormEngineState :=
  createFormEngine (Some [Field oneOptionField None]).



(** Condition evaluation: the numeric path. *)

Section NumericPath.

Lemma traced_decisionValue c d r :
  operator c <> Op.empty -> operator c <> Op.notEmpty ->
  evaluateConditionTraced c d r =
  let actual := decisionValue c d r in
  let op := operator c in
  if NUMERIC_OPERATORS op || isNumberValue actual || isNumericExpr d || isNumericText d
  then (NumericPath,
        let actualNum := match actual with
                         | VNumber x => x
                         | _ => parseFloat (stringOf actual)
                         end in
        let expectedNum := parseFloat (expected c) in
        if isNaN actualNum || isNaN expectedNum then false
        else evaluateNumeric actualNum expectedNum op)
  else (StringPath,
        match op with
        | Op.equals =>
            if isArray actual then false
            else stringOf (orEmptyString actual) =? expected c
        | Op.notEquals =>
            if isArray actual then true
            else negb (stringOf (orEmptyString actual) =? expected c)
        | Op.contains => containsMatch (stringOf (orEmptyString actual)) (expected c)
        | Op.includes =>
            match actual with
            | VArray l => memberOf (expected c) (map elementString l)
            | _ => false
            end
        | _ => false
        end).
Proof.
  intros H1 H2. unfold evaluateConditionTraced, decisionValue.
  destruct (operator c); try contradiction; reflexivity.
Qed.

End NumericPath.

(** The number a value is read as on the numeric path. *)
Definition numericReading (v : Value) : number :=
  match v with
  | VNumber x => x
  | _ => parseFloat (stringOf v)
  end.

(** C4 as stated: the numeric path is taken exactly when one of the four
    conditions holds. *)
Definition numericPathClaim (c : Condition) (d : FieldDef) (r : option FieldResponse) : Prop :=
  fst (evaluateConditionTraced c d r) = NumericPath <->
  (NUMERIC_OPERATORS (operator c) = true \/
   isNumberValue (decisionValue c d r) = true \/
   isNumericExpr d = true \/ isNumericText d = true).

Definition numericTextField : FieldDef :=
  applyPatch (bareDef "age" "text")
    {| p_id := None; p_fieldType := None; p_question := None; p_required := None;
       p_rules := None; p_inputType := Some (Some "number"); p_unit := None;
       p_options := None; p_rows := None; p_columns := None; p_htmlContent := None;
       p_imageUri := None; p_expression := None; p_displayFormat := None;
       p_decimalPlaces := None; p_title := None |}.

Definition textResponse (s : string) : FieldResponse :=
  {| answer := Some (AnswerString s); selected := None; multitextAnswers := None;
     signatureData := None; signatureImage := None;
     markupData := None; markupImage := None |}.

Definition emptyCondition : Condition :=
  {| targetId := "age"; operator := Op.empty; expected := EmptyString;
     propertyAccessor := None |}.



(** Specification vocabulary for [contains]. *)

(** Case and diacritic folding. *)
Definition foldText (s : string) : string := toLowerCase (mapString stripDiacritic s).

Definition startsWithAlnum (s : string) : bool :=
  match s with
  | String c _ => isLowerAlnum c
  | EmptyString => false
  end.

Definition consHead (c : ascii) (ws : list string) : list string :=
  match ws with
  | w :: ws' => String c w :: ws'
  | [] => [String c EmptyString]
  end.

(** The words of a folded text: its maximal runs of letters and digits. *)
Fixpoint wordsOfFolded (s : string) : list string :=
  match s with
  | EmptyString => []
  | String c s' =>
      if isLowerAlnum c then
        if startsWithAlnum s' then consHead c (wordsOfFolded s')
        else String c EmptyString :: wordsOfFolded s'
      else wordsOfFolded s'
  end.

Definition wordsOf (s : string) : list string := wordsOfFolded (foldText s).

(** [ws] occurs in [hs] as a run of consecutive words. *)
Definition wordInfix (ws hs : list string) : Prop :=
  exists pre post, hs = pre ++ ws ++ post.

Fixpoint allChars (f : ascii -> bool) (s : string) : bool :=
  match s with
  | EmptyString => true
  | String c s' => f c && allChars f s'
  end.

(** A non-empty string without white space. *)
Definition isToken (w : string) : Prop :=
  w <> EmptyString /\ allChars (fun c => negb (isWhiteSpace c)) w = true.

(** The end of the text, or white space. *)
Definition atBoundary (t : string) : Prop :=
  match t with
  | EmptyString => True
  | String c _ => isWhiteSpace c = true
  end.

(** What follows the first word of a joined list. *)
Definition tailOf (l : list string) : string :=
  match l with
  | [] => EmptyString
  | _ => " " +:+ joinWith " " l
  end.

Fixpoint prefixb (ws hs : list string) : bool :=
  match ws, hs with
  | [], _ => true
  | w :: ws', h :: hs' => (w =? h) && prefixb ws' hs'
  | _ :: _, [] => false
  end.

Fixpoint infixb (ws hs : list string) : bool :=
  prefixb ws hs ||
  match hs with
  | [] => false
  | _ :: hs' => infixb ws hs'
  end.

Section Words.

Lemma isLowerAlnum_not_space c : isLowerAlnum c = true -> isWhiteSpace c = false.
Proof.
  destruct c as [[] [] [] [] [] [] [] []]; vm_compute; congruence.
Qed.

Lemma joinWith_step x l : joinWith " " (x :: l) = x +:+ tailOf l.
Proof.
  destruct l as [|y l]; simpl tailOf.
  - simpl. now rewrite append_nil_r.
  - reflexivity.
Qed.

Lemma tailOf_boundary l : atBoundary (tailOf l).
Proof. destruct l; [exact I|]. unfold tailOf. rewrite append_cons. reflexivity. Qed.

Lemma tailOf_cons x l : tailOf (x :: l) = String " " (x +:+ tailOf l).
Proof.
  unfold tailOf at 1. rewrite joinWith_step, append_cons, append_nil_l. reflexivity.
Qed.

Lemma token_cons c w :
  isToken (String c w) -> isWhiteSpace c = false /\
                          allChars (fun c => negb (isWhiteSpace c)) w = true.
Proof.
  intros [_ H]. simpl in H. apply andb_true_iff in H as [H1 H2].
  now apply negb_true_iff in H1.
Qed.

Lemma wordsOfFolded_tokens s : Forall isToken (wordsOfFolded s).
Proof.
  induction s as [|c s IH]; [constructor|]. simpl.
  destruct (isLowerAlnum c) eqn:Hc; [|exact IH].
  assert (Hs : negb (isWhiteSpace c) = true)
    by (apply negb_true_iff; now apply isLowerAlnum_not_space).
  destruct (startsWithAlnum s).
  - destruct (wordsOfFolded s) as [|w ws]; simpl.
    + constructor; [|constructor]. split; [discriminate|]. simpl. now rewrite Hs.
    + inversion IH as [|? ? [Hw1 Hw2] Hws]; subst. constructor; [|assumption].
      split; [discriminate|]. simpl. now rewrite Hs, Hw2.
  - constructor; [|assumption]. split; [discriminate|]. simpl. now rewrite Hs.
Qed.

Lemma wordsOfFolded_starts s :
  startsWithAlnum s = true -> wordsOfFolded s <> [].
Proof.
  destruct s as [|c s]; [discriminate|]. simpl. intros ->.
  destruct (startsWithAlnum s); [|discriminate].
  destruct (wordsOfFolded s); discriminate.
Qed.

Lemma joinWith_empty ws :
  Forall isToken ws -> joinWith " " ws = EmptyString -> ws = [].
Proof.
  intros Hws H. destruct ws as [|w ws]; [reflexivity|]. exfalso.
  inversion Hws as [|? ? [Hw _] _]; subst.
  rewrite joinWith_step in H. destruct w; [congruence|].
  rewrite append_cons in H. discriminate.
Qed.

(** ** Normalization yields the words, joined by single spaces *)

Lemma replaceNonAlnumRuns_lead s :
  replaceNonAlnumRuns false s =
  match s with
  | EmptyString => EmptyString
  | String c _ => if isLowerAlnum c then replaceNonAlnumRuns true s
                  else String " " (replaceNonAlnumRuns true s)
  end.
Proof. destruct s as [|c s]; [reflexivity|]. simpl. destruct (isLowerAlnum c); reflexivity. Qed.

Lemma trimEnd_cons c s :
  isWhiteSpace c = false -> trimEnd (String c s) = String c (trimEnd s).
Proof. intros H. simpl. now rewrite H. Qed.

Lemma trimEnd_space s :
  trimEnd (String " " s) = if trimEnd s =? "" then EmptyString else String " " (trimEnd s).
Proof. reflexivity. Qed.

Lemma trimEnd_words s :
  trimEnd (replaceNonAlnumRuns true s) = joinWith " " (wordsOfFolded s).
Proof.
  induction s as [|c s IH]; [reflexivity|].
  cbn [replaceNonAlnumRuns wordsOfFolded].
  destruct (isLowerAlnum c) eqn:Hc; [|exact IH].
  rewrite trimEnd_cons by now apply isLowerAlnum_not_space.
  rewrite replaceNonAlnumRuns_lead.
  destruct s as [|d s]; [reflexivity|].
  cbn [startsWithAlnum]. destruct (isLowerAlnum d) eqn:Hd.
  - rewrite IH.
    pose proof (wordsOfFolded_starts (String d s)) as Hne. cbn [startsWithAlnum] in Hne.
    specialize (Hne Hd). destruct (wordsOfFolded (String d s)) as [|w ws]; [congruence|].
    cbn [consHead]. rewrite !joinWith_step, append_cons. reflexivity.
  - rewrite trimEnd_space, IH, joinWith_step.
    destruct (joinWith " " (wordsOfFolded (String d s)) =? "") eqn:He.
    + apply String.eqb_eq in He.
      rewrite (joinWith_empty _ (wordsOfFolded_tokens _) He). reflexivity.
    + destruct (wordsOfFolded (String d s)) as [|w ws] eqn:Hw; [discriminate|].
      unfold tailOf. rewrite !append_cons, append_nil_l. reflexivity.
Qed.

Lemma replaceNonAlnumRuns_true_starts s :
  match replaceNonAlnumRuns true s with
  | EmptyString => True
  | String c _ => isWhiteSpace c = false
  end.
Proof.
  induction s as [|c s IH]; [exact I|]. simpl.
  destruct (isLowerAlnum c) eqn:Hc; [now apply isLowerAlnum_not_space|exact IH].
Qed.

Lemma trimStart_id s :
  match s with EmptyString => True | String c _ => isWhiteSpace c = false end ->
  trimStart s = s.
Proof. destruct s as [|c s]; [reflexivity|]. simpl. now intros ->. Qed.

Lemma normalize_folded_words s :
  trim (replaceNonAlnumRuns false s) = joinWith " " (wordsOfFolded s).
Proof.
  unfold trim. rewrite replaceNonAlnumRuns_lead.
  pose proof (replaceNonAlnumRuns_true_starts s) as Hs.
  destruct s as [|c s]; [reflexivity|].
  destruct (isLowerAlnum c) eqn:Hc.
  - rewrite trimStart_id by exact Hs. apply trimEnd_words.
  - change (trimStart (String " " ?x)) with (trimStart x).
    rewrite trimStart_id by exact Hs. apply trimEnd_words.
Qed.

Lemma normalizeForContains_words s :
  normalizeForContains s = joinWith " " (wordsOf s).
Proof. apply normalize_folded_words. Qed.

End Words.

Section Splitting.

Lemma rev_app_rev_app w c acc :
  String.rev_app (String.rev_app w c) acc = String.rev_app c (w +:+ acc).
Proof.
  revert c acc. induction w as [|x w IH]; intros c acc.
  - now rewrite append_nil_l.
  - cbn [String.rev_app]. rewrite IH. cbn [String.rev_app]. now rewrite append_cons.
Qed.

Lemma rev_rev_app w : String.rev (String.rev_app w "") = w.
Proof.
  unfold String.rev. rewrite rev_app_rev_app. cbn [String.rev_app]. apply append_nil_r.
Qed.

Lemma splitGo_chars w cur t :
  allChars (fun c => negb (isWhiteSpace c)) w = true ->
  splitGo cur false (w +:+ t) = splitGo (String.rev_app w cur) false t.
Proof.
  revert cur. induction w as [|c w IH]; intros cur Hw.
  - now rewrite append_nil_l.
  - simpl in Hw. apply andb_true_iff in Hw as [Hc Hw]. apply negb_true_iff in Hc.
    rewrite append_cons. cbn [splitGo String.rev_app]. rewrite Hc. now apply IH.
Qed.

Lemma splitGo_token w b t :
  isToken w -> splitGo "" b (w +:+ t) = splitGo (String.rev_app w "") false t.
Proof.
  intros Hw. destruct w as [|c w]; [now destruct Hw|].
  apply token_cons in Hw as [Hc Hw].
  rewrite append_cons. cbn [splitGo String.rev_app]. rewrite Hc.
  destruct b; now apply splitGo_chars.
Qed.

Lemma splitGo_tail w ws :
  Forall isToken ws -> splitGo (String.rev_app w "") false (tailOf ws) = w :: ws.
Proof.
  revert w. induction ws as [|x ws IH]; intros w Hws.
  - simpl. now rewrite rev_rev_app.
  - inversion Hws as [|? ? Hx Hws']; subst.
    rewrite tailOf_cons. cbn [splitGo].
    change (isWhiteSpace " ") with true. cbv iota.
    rewrite rev_rev_app, (splitGo_token x true _ Hx). now rewrite IH.
Qed.

Lemma splitWhiteSpace_join ws :
  Forall isToken ws -> ws <> [] -> splitWhiteSpace (joinWith " " ws) = ws.
Proof.
  intros Hws Hne. destruct ws as [|w ws]; [congruence|].
  inversion Hws as [|? ? Hw Hws']; subst.
  unfold splitWhiteSpace. rewrite joinWith_step, (splitGo_token w false _ Hw).
  now apply splitGo_tail.
Qed.

End Splitting.

Section Matching.

(** A continuation that succeeds only at white space or at the end. *)
Definition boundaryOnly (k : bool -> string -> bool) : Prop :=
  forall a c s, isWhiteSpace c = false -> k a (String c s) = false.

Lemma matchRegex_literal p : forall a h t k,
  boundaryOnly k ->
  allChars (fun c => negb (isWhiteSpace c)) p = true ->
  allChars (fun c => negb (isWhiteSpace c)) h = true ->
  atBoundary t ->
  matchRegex (literal p) a (h +:+ t) k =
  (p =? h) && k (match p with EmptyString => a | _ => false end) t.
Proof.
  induction p as [|c p IH]; intros a h t k Hk Hp Hh Ht.
  - cbn [literal matchRegex]. destruct h as [|e h].
    + now rewrite append_nil_l.
    + simpl in Hh. apply andb_true_iff in Hh as [He _]. apply negb_true_iff in He.
      rewrite append_cons. now rewrite Hk.
  - simpl in Hp. apply andb_true_iff in Hp as [Hc Hp]. apply negb_true_iff in Hc.
    cbn [literal matchRegex]. destruct h as [|e h].
    + rewrite append_nil_l. destruct t as [|d t]; [reflexivity|].
      simpl in Ht. destruct (Ascii.eqb_spec c d) as [->|_]; [congruence|reflexivity].
    + simpl in Hh. apply andb_true_iff in Hh as [He Hh].
      rewrite append_cons. cbn [String.eqb].
      rewrite (IH false h t k Hk Hp Hh Ht).
      destruct (Ascii.eqb c e); [|reflexivity]. cbn [andb].
      destruct p; reflexivity.
Qed.

Lemma matchRegex_spaces a u k :
  match u with EmptyString => True | String c _ => isWhiteSpace c = false end ->
  matchRegex (RPlus RSpace) a (String " " u) k = k false u.
Proof.
  intros Hu. cbn [matchRegex String.length].
  change (isWhiteSpace " ") with true. cbn [andb].
  destruct u as [|c u]; cbn [String.length matchRegex].
  - now rewrite orb_false_r.
  - rewrite Hu. cbn [andb]. now rewrite orb_false_r.
Qed.

Lemma matchRegex_spaces_boundary k :
  boundaryOnly (fun a s => matchRegex (RPlus RSpace) a s k).
Proof. intros a c s Hc. cbn [matchRegex String.length]. now rewrite Hc. Qed.

Definition wordEnd : Regex := RAlt RSpace REnd.

Lemma wordEnd_boundaryOnly :
  boundaryOnly (fun a s => matchRegex wordEnd a s (fun _ _ => true)).
Proof. intros a c s Hc. cbn [wordEnd matchRegex]. now rewrite Hc. Qed.

Lemma wordEnd_at_boundary a t :
  atBoundary t -> matchRegex wordEnd a t (fun _ _ => true) = true.
Proof.
  intros Ht. cbn [wordEnd matchRegex]. destruct t as [|c t]; [reflexivity|].
  simpl in Ht. now rewrite Ht.
Qed.

Lemma token_starts w t :
  isToken w ->
  match w +:+ t with EmptyString => True | String c _ => isWhiteSpace c = false end.
Proof.
  intros Hw. destruct w as [|c w]; [now destruct Hw|].
  rewrite append_cons. now apply token_cons in Hw as [Hc _].
Qed.

(** The words of the pattern are matched at the head of the text exactly
    when they are its first words. *)
Lemma matchRegex_words ws : forall hs a,
  Forall isToken ws -> ws <> [] -> Forall isToken hs ->
  matchRegex (RSeq (joinParts ws) wordEnd) a (joinWith " " hs) (fun _ _ => true) =
  prefixb ws hs.
Proof.
  induction ws as [|p ws IH]; intros hs a Hws Hne Hhs; [congruence|].
  inversion Hws as [|? ? Hp Hws']; subst. clear Hne.
  assert (Hp' := proj2 Hp).
  destruct ws as [|q ws].
  - change (matchRegex (RSeq (joinParts [p]) wordEnd) a (joinWith " " hs) (fun _ _ => true))
      with (matchRegex (literal p) a (joinWith " " hs)
              (fun a' s' => matchRegex wordEnd a' s' (fun _ _ => true))).
    destruct hs as [|h hs].
    + cbn [joinWith prefixb]. destruct p as [|c p]; [now destruct Hp|reflexivity].
    + inversion Hhs as [|? ? Hh Hhs']; subst.
      rewrite joinWith_step.
      rewrite (matchRegex_literal p a h (tailOf hs) _ wordEnd_boundaryOnly Hp' (proj2 Hh)
                 (tailOf_boundary hs)).
      rewrite wordEnd_at_boundary by apply tailOf_boundary.
      cbn [prefixb]. reflexivity.
  - change (matchRegex (RSeq (joinParts (p :: q :: ws)) wordEnd) a (joinWith " " hs)
              (fun _ _ => true))
      with (matchRegex (literal p) a (joinWith " " hs)
              (fun a0 s0 =>
                 matchRegex (RPlus RSpace) a0 s0
                   (fun a1 s1 =>
                      matchRegex (RSeq (joinParts (q :: ws)) wordEnd) a1 s1
                        (fun _ _ => true)))).
    destruct hs as [|h hs].
    + cbn [joinWith prefixb]. destruct p as [|c p]; [now destruct Hp|reflexivity].
    + inversion Hhs as [|? ? Hh Hhs']; subst.
      rewrite joinWith_step.
      rewrite (matchRegex_literal p a h (tailOf hs) _ (matchRegex_spaces_boundary _)
                 Hp' (proj2 Hh) (tailOf_boundary hs)).
      cbn [prefixb]. destruct (p =? h); [|reflexivity]. cbn [andb].
      destruct hs as [|r hs].
      * cbn [tailOf prefixb]. reflexivity.
      * rewrite tailOf_cons, <- joinWith_step.
        rewrite matchRegex_spaces.
        -- apply IH; [assumption|discriminate|assumption].
        -- rewrite joinWith_step. inversion Hhs' as [|? ? Hr _]; subst.
           now apply token_starts.
Qed.

Lemma matchRegex_containsPattern ws a s :
  matchRegex (containsPattern ws) a s (fun _ _ => true) =
  (a && matchRegex (RSeq (joinParts ws) wordEnd) a s (fun _ _ => true)) ||
  match s with
  | String c s' =>
      isWhiteSpace c && matchRegex (RSeq (joinParts ws) wordEnd) false s' (fun _ _ => true)
  | EmptyString => false
  end.
Proof. reflexivity. Qed.

Lemma testFrom_unfold r a s :
  testFrom r a s =
  matchRegex r a s (fun _ _ => true) ||
  match s with
  | String _ s' => testFrom r false s'
  | EmptyString => false
  end.
Proof. destruct s; reflexivity. Qed.

Lemma testFrom_chars ws w t :
  allChars (fun c => negb (isWhiteSpace c)) w = true ->
  testFrom (containsPattern ws) false (w +:+ t) = testFrom (containsPattern ws) false t.
Proof.
  induction w as [|c w IH]; intros Hw; [now rewrite append_nil_l|].
  simpl in Hw. apply andb_true_iff in Hw as [Hc Hw]. apply negb_true_iff in Hc.
  rewrite append_cons, testFrom_unfold, matchRegex_containsPattern, Hc.
  cbn [andb orb]. now apply IH.
Qed.

Lemma testFrom_tail ws hs :
  Forall isToken ws -> ws <> [] -> Forall isToken hs ->
  testFrom (containsPattern ws) false (tailOf hs) =
  match hs with [] => false | _ => infixb ws hs end.
Proof.
  intros Hws Hne. induction hs as [|h hs IH]; intros Hhs; [reflexivity|].
  inversion Hhs as [|? ? Hh Hhs']; subst.
  rewrite tailOf_cons, testFrom_unfold, matchRegex_containsPattern.
  change (isWhiteSpace " ") with true. cbn [andb orb].
  rewrite <- joinWith_step, (matchRegex_words ws (h :: hs) false Hws Hne Hhs).
  rewrite joinWith_step, (testFrom_chars ws h _ (proj2 Hh)), (IH Hhs').
  cbn [infixb]. destruct hs as [|r hs]; [|reflexivity].
  cbn [infixb]. destruct ws; [congruence|reflexivity].
Qed.

Lemma regexTest_words ws hs :
  Forall isToken ws -> ws <> [] -> Forall isToken hs ->
  regexTest (containsPattern ws) (joinWith " " hs) = infixb ws hs.
Proof.
  intros Hws Hne Hhs. unfold regexTest.
  rewrite testFrom_unfold, matchRegex_containsPattern. cbn [andb].
  rewrite (matchRegex_words ws hs true Hws Hne Hhs).
  destruct hs as [|h hs].
  - cbn [joinWith infixb]. now rewrite !orb_false_r.
  - inversion Hhs as [|? ? Hh Hhs']; subst.
    rewrite joinWith_step. destruct h as [|c h]; [now destruct Hh|].
    apply token_cons in Hh as [Hc Hh]. rewrite append_cons, Hc. cbn [andb].
    rewrite orb_false_r, (testFrom_chars ws h _ Hh), (testFrom_tail ws hs Hws Hne Hhs').
    cbn [infixb]. destruct hs as [|r hs]; [|reflexivity].
    cbn [infixb]. destruct ws; [congruence|reflexivity].
Qed.

Lemma prefixb_true ws hs : prefixb ws hs = true <-> exists post, hs = ws ++ post.
Proof.
  revert hs. induction ws as [|w ws IH]; intros hs.
  - split; [intros _; exists hs; reflexivity|reflexivity].
  - destruct hs as [|h hs]; cbn [prefixb].
    + split; [discriminate|intros [post H]; discriminate].
    + rewrite andb_true_iff, String.eqb_eq, IH. split.
      * intros [-> [post ->]]. exists post. reflexivity.
      * intros [post H]. injection H as -> ->. eauto.
Qed.

Lemma infixb_true ws hs : infixb ws hs = true <-> wordInfix ws hs.
Proof.
  unfold wordInfix. induction hs as [|h hs IH]; cbn [infixb].
  - rewrite orb_false_r, prefixb_true. split.
    + intros [post H]. exists [], post. exact H.
    + intros (pre & post & H). destruct pre; [eauto|discriminate].
  - rewrite orb_true_iff, prefixb_true, IH. split.
    + intros [[post H]|(pre & post & H)].
      * exists [], post. exact H.
      * exists (h :: pre), post. now rewrite H.
    + intros (pre & post & H). destruct pre as [|x pre].
      * left. eauto.
      * right. injection H as _ H. eauto.
Qed.

(** [contains]: the words of the expected text occur, in order and next to
    each other, among the words of the actual text. *)
Lemma containsMatch_words actualText expectedText :
  containsMatch actualText expectedText = true <->
  wordsOf expectedText <> [] /\ wordInfix (wordsOf expectedText) (wordsOf actualText).
Proof.
  unfold containsMatch. cbv zeta. rewrite !normalizeForContains_words.
  pose proof (wordsOfFolded_tokens (foldText expectedText)) as He.
  pose proof (wordsOfFolded_tokens (foldText actualText)) as Ha.
  fold (wordsOf expectedText) in He. fold (wordsOf actualText) in Ha.
  destruct (joinWith " " (wordsOf expectedText) =? "") eqn:E.
  - apply String.eqb_eq in E. rewrite (joinWith_empty _ He E).
    split; [discriminate|intros [H _]; congruence].
  - assert (Hne : wordsOf expectedText <> []).
    { intros H. rewrite H in E. discriminate. }
    rewrite (splitWhiteSpace_join _ He Hne), (regexTest_words _ _ He Hne Ha).
    rewrite infixb_true. tauto.
Qed.

End Matching.

Definition containsCondition (expectedText : string) : Condition :=
  {| targetId := "q"; operator := Op.contains; expected := expectedText;
     propertyAccessor := None |}.

(** The text "Café Latte": its fourth character is the code unit 233. *)
Definition cafeLatte : string := "Caf" +:+ String (ascii_of_nat 233) " Latte".


(** Specification vocabulary for the index. *)

(** The sibling list under a parent: [rootIds] for no parent, the parent's
    [childIds] otherwise. *)
Definition siblingList (n : NormalizedDefinition) (p : option string) : option (list string) :=
  match p with
  | None => Some (rootIds n)
  | Some q => childIds <$> byId n !! q
  end.

(** [x] is a descendant of [a]: a child, or a descendant of a child. *)
Inductive Descendant (m : gmap string FieldNode) (a : string) : string -> Prop :=
  | Descendant_child node x :
      m !! a = Some node -> x ∈ childIds node -> Descendant m a x
  | Descendant_step node c x :
      m !! a = Some node -> c ∈ childIds node -> Descendant m c x -> Descendant m a x.

(** The invariant the store keeps. *)
Record Consistent (n : NormalizedDefinition) : Prop := {
  (** every member of a sibling list is a key, at its position, under that parent *)
  cons_siblings : forall p l i x,
    siblingList n p = Some l -> l !! i = Some x ->
    exists node, byId n !! x = Some node /\ index node = i /\ parentId node = p;
  (** every key is listed under its parent *)
  cons_parent : forall x node,
    byId n !! x = Some node ->
    exists l, siblingList n (parentId node) = Some l /\ x ∈ l;
  (** keys are non-empty and are the IDs of their definitions *)
  cons_ids : forall x node,
    byId n !! x = Some node -> x <> EmptyString /\ def_id (definition node) = x;
  (** parents come before children: there is no cycle *)
  cons_depth : exists d : string -> nat, forall x node p,
    byId n !! x = Some node -> parentId node = Some p -> (d p < d x)%nat
}.

Fixpoint indexOf (k : string) (l : list string) : option nat :=
  match l with
  | [] => None
  | x :: l' => if x =? k then Some 0%nat else S <$> indexOf k l'
  end.

Definition reindexed (l : list string) (k : string) (node : FieldNode) : FieldNode :=
  withIndex node (match indexOf k l with Some j => j | None => index node end).

Section ListHelpers.

Lemma indexOf_None k l : indexOf k l = None <-> k ∉ l.
Proof.
  induction l as [|x l IH]; simpl.
  - split; [intros _; apply not_elem_of_nil|reflexivity].
  - destruct (String.eqb_spec x k) as [->|Hne].
    + split; [discriminate|]. intros H. exfalso. apply H. left.
    + rewrite not_elem_of_cons. destruct (indexOf k l); simpl.
      * split; [discriminate|]. intros [_ H]. apply IH in H. discriminate.
      * split; [|reflexivity]. intros _. split; [congruence|now apply IH].
Qed.

Lemma indexOf_lookup k l j : NoDup l -> l !! j = Some k -> indexOf k l = Some j.
Proof.
  revert j; induction l as [|x l IH]; intros j Hnd Hj; [discriminate|].
  apply NoDup_cons in Hnd as [Hx Hnd]. simpl.
  destruct j as [|j]; simpl in Hj.
  - injection Hj as ->. now rewrite String.eqb_refl.
  - destruct (String.eqb_spec x k) as [->|Hne].
    + exfalso. apply Hx. eapply list_elem_of_lookup_2; eassumption.
    + now rewrite (IH j Hnd Hj).
Qed.

Lemma indexOf_Some k l j : indexOf k l = Some j -> l !! j = Some k.
Proof.
  revert j; induction l as [|x l IH]; intros j; simpl; [discriminate|].
  destruct (String.eqb_spec x k) as [->|Hne].
  - intros [= <-]. reflexivity.
  - destruct (indexOf k l) as [j'|]; simpl; [|discriminate].
    intros [= <-]. simpl. now apply IH.
Qed.

Lemma withIndex_same node : withIndex node (index node) = node.
Proof. now destruct node. Qed.

Lemma reindexFrom_lookup i l m k :
  NoDup l ->
  reindexFrom i l m !! k =
  (fun node => withIndex node (match indexOf k l with
                               | Some j => (i + j)%nat
                               | None => index node
                               end)) <$> m !! k.
Proof.
  revert i m; induction l as [|x l IH]; intros i m Hnd.
  - simpl. destruct (m !! k) as [node|]; simpl; [|reflexivity].
    now rewrite withIndex_same.
  - apply NoDup_cons in Hnd as [Hx Hnd]. cbn [reindexFrom indexOf].
    rewrite IH by assumption.
    destruct (String.eqb_spec x k) as [->|Hne].
    + apply indexOf_None in Hx. rewrite Hx. rewrite Nat.add_0_r.
      destruct (m !! k) as [node|] eqn:E.
      * destruct (Nat.eqb_spec (index node) i) as [Hi|Hi].
        -- rewrite E. simpl. now rewrite Hi.
        -- rewrite lookup_insert_eq. reflexivity.
      * rewrite E. reflexivity.
    + assert (Hm : forall m', (match m !! x with
                               | Some node => if Nat.eqb (index node) i then m
                                              else <[x := withIndex node i]> m
                               | None => m
                               end) = m' -> m' !! k = m !! k).
      { intros m' <-. destruct (m !! x) as [node|]; [|reflexivity].
        destruct (Nat.eqb (index node) i); [reflexivity|].
        now rewrite lookup_insert_ne. }
      rewrite (Hm _ eq_refl).
      destruct (indexOf k l) as [j|]; simpl; [|reflexivity].
      destruct (m !! k); simpl; [|reflexivity]. do 2 f_equal. lia.
Qed.

Lemma reindexChildren_lookup l m k :
  NoDup l -> reindexChildren m l !! k = reindexed l k <$> m !! k.
Proof. intros H. unfold reindexChildren. now rewrite reindexFrom_lookup. Qed.

Lemma insertAt_split {A} (l : list A) (x : A) idx :
  exists l1 l2, l = l1 ++ l2 /\ insertAt l x idx = l1 ++ x :: l2.
Proof.
  unfold insertAt. destruct idx as [i|].
  - destruct (Z.of_nat (length l) <=? i)%Z.
    + exists l, []. now rewrite app_nil_r.
    + destruct (i <=? 0)%Z.
      * now exists [], l.
      * exists (take (Z.to_nat i) l), (drop (Z.to_nat i) l).
        now rewrite take_drop.
  - exists l, []. now rewrite app_nil_r.
Qed.

Lemma elem_of_insertAt {A} (l : list A) (x y : A) idx :
  y ∈ insertAt l x idx <-> y = x \/ y ∈ l.
Proof.
  destruct (insertAt_split l x idx) as (l1 & l2 & -> & ->).
  rewrite !elem_of_app, elem_of_cons. tauto.
Qed.

Lemma NoDup_insertAt {A} (l : list A) (x : A) idx :
  NoDup l -> x ∉ l -> NoDup (insertAt l x idx).
Proof.
  destruct (insertAt_split l x idx) as (l1 & l2 & -> & ->).
  rewrite !NoDup_app, NoDup_cons. intros (H1 & H2 & H3) Hx.
  rewrite elem_of_app in Hx. repeat split; auto.
  intros y Hy. rewrite elem_of_cons. intros [->|Hy2]; [tauto|]. eapply H2; eauto.
Qed.

Lemma elem_of_without k x l : x ∈ without k l <-> x ∈ l /\ x <> k.
Proof. unfold without. rewrite list_elem_of_filter. tauto. Qed.

Lemma NoDup_without k l : NoDup l -> NoDup (without k l).
Proof. apply NoDup_filter. Qed.

Lemma without_notin k l : k ∉ l -> without k l = l.
Proof.
  intros H. unfold without. induction l as [|x l IH]; [reflexivity|].
  apply not_elem_of_cons in H as [H1 H2].
  rewrite filter_cons. destruct (decide (x ≠ k)) as [_|E].
  - now rewrite IH.
  - exfalso. apply E. congruence.
Qed.

Lemma elem_of_renameIn a b x l :
  x ∈ renameIn a b l <-> (x = b /\ a ∈ l) \/ (x <> a /\ x ∈ l).
Proof.
  unfold renameIn. rewrite list_elem_of_In, in_map_iff. split.
  - intros (y & <- & Hy). apply list_elem_of_In in Hy.
    destruct (String.eqb_spec y a) as [->|Hne]; auto.
  - intros [[-> H]|[Hne H]].
    + exists a. rewrite String.eqb_refl. split; [reflexivity|now apply list_elem_of_In].
    + exists x. apply String.eqb_neq in Hne. rewrite Hne.
      split; [reflexivity|now apply list_elem_of_In].
Qed.

Lemma renameIn_lookup a b l i x :
  renameIn a b l !! i = Some x <->
  exists y, l !! i = Some y /\ x = (if y =? a then b else y).
Proof.
  unfold renameIn. change (map ?f l) with (f <$> l).
  rewrite list_lookup_fmap. destruct (l !! i) as [y|]; simpl.
  - split; [intros [= <-]; eauto|intros (y' & [= <-] & ->); reflexivity].
  - split; [discriminate|intros (y' & [=] & _)].
Qed.

Lemma memberOf_true x l : memberOf x l = true <-> x ∈ l.
Proof.
  unfold memberOf. rewrite existsb_exists, list_elem_of_In. split.
  - intros (y & Hy & E). apply String.eqb_eq in E. now subst.
  - intros H. exists x. split; [assumption|apply String.eqb_refl].
Qed.

Lemma memberOf_false x l : memberOf x l = false <-> x ∉ l.
Proof.
  rewrite <- memberOf_true. destruct (memberOf x l); split; congruence.
Qed.

Lemma truthy_Some s : truthy (Some s) = true <-> s <> EmptyString.
Proof.
  simpl. destruct (String.eqb_spec s EmptyString); simpl; split; congruence.
Qed.

End ListHelpers.

Section Descendants.

Variable m : gmap string FieldNode.

Lemma collectDescendants_S fuel a :
  collectDescendants (S fuel) m a =
  match m !! a with
  | None => Some []
  | Some node =>
      foldr (fun childId rest =>
               match collectDescendants fuel m childId, rest with
               | Some d, Some r => Some (childId :: d ++ r)
               | _, _ => None
               end) (Some []) (childIds node)
  end.
Proof. reflexivity. Qed.

(** The list collected over the children [cs]. *)
Lemma collect_fold_spec fuel cs l :
  (forall c lc, c ∈ cs -> collectDescendants fuel m c = Some lc ->
                forall x, x ∈ lc <-> Descendant m c x) ->
  foldr (fun childId rest =>
           match collectDescendants fuel m childId, rest with
           | Some d, Some r => Some (childId :: d ++ r)
           | _, _ => None
           end) (Some []) cs = Some l ->
  forall x, x ∈ l <-> (x ∈ cs \/ exists c, c ∈ cs /\ Descendant m c x).
Proof.
  revert l; induction cs as [|c cs IH]; intros l Hc; simpl.
  - intros [= <-] x. split; [intros H; inversion H|].
    intros [H|(c & H & _)]; inversion H.
  - destruct (collectDescendants fuel m c) as [lc|] eqn:Ec; [|discriminate].
    destruct (foldr _ _ cs) as [r|] eqn:Er; [|discriminate].
    intros [= <-] x.
    specialize (IH r (fun c' lc' H => Hc c' lc' (list_elem_of_further _ _ _ H)) eq_refl x).
    pose proof (Hc c lc (list_elem_of_here _ _) Ec x) as Hx.
    rewrite elem_of_cons, elem_of_app, IH, Hx. split.
    + intros [->|[H|[H|(c' & H1 & H2)]]].
      * left. left.
      * right. exists c. split; [left|assumption].
      * left. now right.
      * right. exists c'. split; [now right|assumption].
    + intros [H|(c' & H1 & H2)].
      * apply elem_of_cons in H as [->|H]; auto.
      * apply elem_of_cons in H1 as [->|H1]; eauto 6.
Qed.

Lemma Descendant_inv a x :
  Descendant m a x <->
  exists node, m !! a = Some node /\
    (x ∈ childIds node \/ exists c, c ∈ childIds node /\ Descendant m c x).
Proof.
  split.
  - intros H. inversion H as [node ? Ha Hx|node c ? Ha Hc Hd]; subst; eauto 8.
  - intros (node & Ha & [Hx|(c & Hc & Hd)]).
    + eapply Descendant_child; eauto.
    + eapply Descendant_step; eauto.
Qed.

Lemma collectDescendants_spec fuel a l :
  collectDescendants fuel m a = Some l -> forall x, x ∈ l <-> Descendant m a x.
Proof.
  revert a l; induction fuel as [|fuel IH]; intros a l; [discriminate|].
  rewrite collectDescendants_S. destruct (m !! a) as [node|] eqn:Ea.
  - intros H x. rewrite Descendant_inv.
    rewrite (collect_fold_spec fuel (childIds node) l (fun c lc _ => IH c lc) H x).
    split.
    + intros Hx. exists node. auto.
    + intros (node' & Hn & Hx). rewrite Ea in Hn. injection Hn as <-. exact Hx.
  - intros [= <-] x. rewrite Descendant_inv. split; [intros H; inversion H|].
    intros (node & Hn & _). rewrite Ea in Hn. discriminate.
Qed.

Lemma Descendant_trans a b x : Descendant m a b -> Descendant m b x -> Descendant m a x.
Proof.
  induction 1 as [a node b Ha Hb|a node c b Ha Hc _ IH]; intros Hx.
  - eapply Descendant_step; eauto.
  - eapply Descendant_step; eauto.
Qed.

Lemma Descendant_child_of a b node x :
  Descendant m a b -> m !! b = Some node -> x ∈ childIds node -> Descendant m a x.
Proof.
  intros H Hb Hx. eapply Descendant_trans; [exact H|].
  eapply Descendant_child; eauto.
Qed.

(** Fuel: more of it never changes a result. *)
Lemma collectDescendants_mono fuel a l :
  collectDescendants fuel m a = Some l -> collectDescendants (S fuel) m a = Some l.
Proof.
  revert a l; induction fuel as [|fuel IH]; intros a l; [discriminate|].
  rewrite (collectDescendants_S (S fuel)), (collectDescendants_S fuel).
  destruct (m !! a) as [node|]; [|auto].
  generalize (childIds node) as cs. intros cs. revert l.
  induction cs as [|c cs IHcs]; intros l; cbn [foldr]; [auto|].
  destruct (collectDescendants fuel m c) as [lc|] eqn:Ec; [|discriminate].
  rewrite (IH c lc Ec).
  destruct (foldr _ _ cs) as [r|] eqn:Er; [|discriminate].
  rewrite (IHcs r eq_refl). auto.
Qed.

Lemma collectDescendants_mono_le fuel fuel' a l :
  (fuel <= fuel')%nat ->
  collectDescendants fuel m a = Some l -> collectDescendants fuel' m a = Some l.
Proof.
  induction 1 as [|fuel' _ IH]; [auto|].
  intros H. apply collectDescendants_mono. auto.
Qed.

End Descendants.

(** The state with field [id] taken out of every sibling list: the invariant
    holds for all keys but [id], which is still a key. *)
Record Detached (n : NormalizedDefinition) (id : string) : Prop := {
  det_key : is_Some (byId n !! id);
  det_siblings : forall p l i x,
    siblingList n p = Some l -> l !! i = Some x ->
    exists node, byId n !! x = Some node /\ index node = i /\ parentId node = p /\ x <> id;
  det_parent : forall x node,
    byId n !! x = Some node -> x <> id ->
    exists l, siblingList n (parentId node) = Some l /\ x ∈ l;
  det_ids : forall x node,
    byId n !! x = Some node -> x <> EmptyString /\ def_id (definition node) = x;
  det_depth : exists d : string -> nat, forall x node p,
    byId n !! x = Some node -> x <> id -> parentId node = Some p -> (d p < d x)%nat
}.

(** [r] marks the subtree of [id]: [id] itself, and every other key exactly
    when its parent is marked. *)
Definition SubtreeOf (n : NormalizedDefinition) (id : string) (r : string -> bool) : Prop :=
  r id = true /\
  forall x node, byId n !! x = Some node -> x <> id ->
    (r x = true <-> exists q, parentId node = Some q /\ r q = true).

Section ConsistentFacts.

Variable n : NormalizedDefinition.
Hypothesis Hc : Consistent n.

Lemma cons_child_node p pn x :
  byId n !! p = Some pn -> x ∈ childIds pn ->
  exists node, byId n !! x = Some node /\ parentId node = Some p.
Proof.
  intros Hp Hx. apply list_elem_of_lookup_1 in Hx as [i Hi].
  destruct (cons_siblings n Hc (Some p) (childIds pn) i x) as (node & H1 & _ & H2);
    [simpl; now rewrite Hp|assumption|eauto].
Qed.

Lemma cons_root_node x :
  x ∈ rootIds n -> exists node, byId n !! x = Some node /\ parentId node = None.
Proof.
  intros Hx. apply list_elem_of_lookup_1 in Hx as [i Hi].
  destruct (cons_siblings n Hc None (rootIds n) i x) as (node & H1 & _ & H2);
    [reflexivity|assumption|eauto].
Qed.

Lemma cons_parent_node x node p :
  byId n !! x = Some node -> parentId node = Some p ->
  exists pn, byId n !! p = Some pn /\ x ∈ childIds pn.
Proof.
  intros Hx Hp. destruct (cons_parent n Hc x node Hx) as (l & Hl & Hin).
  rewrite Hp in Hl. simpl in Hl.
  destruct (byId n !! p) as [pn|]; [|discriminate].
  injection Hl as <-. eauto.
Qed.

Lemma cons_parent_root x node :
  byId n !! x = Some node -> parentId node = None -> x ∈ rootIds n.
Proof.
  intros Hx Hp. destruct (cons_parent n Hc x node Hx) as (l & Hl & Hin).
  rewrite Hp in Hl. injection Hl as <-. assumption.
Qed.

Lemma cons_NoDup p l : siblingList n p = Some l -> NoDup l.
Proof.
  intros Hl. apply NoDup_alt. intros i j x Hi Hj.
  destruct (cons_siblings n Hc p l i x Hl Hi) as (node & H1 & H2 & _).
  destruct (cons_siblings n Hc p l j x Hl Hj) as (node' & H1' & H2' & _).
  congruence.
Qed.

Lemma cons_truthy x node :
  byId n !! x = Some node ->
  truthy (parentId node) = match parentId node with Some _ => true | None => false end.
Proof.
  intros Hx. destruct (parentId node) as [p|] eqn:Hp; [|reflexivity].
  destruct (cons_parent_node x node p Hx Hp) as (pn & Hpn & _).
  apply truthy_Some. apply (cons_ids n Hc p pn Hpn).
Qed.

Lemma cons_key_nonempty x node : byId n !! x = Some node -> x <> EmptyString.
Proof. intros H. apply (cons_ids n Hc x node H). Qed.

(** Descendants, read off the parent pointers. *)
Lemma Descendant_parent a x :
  Descendant (byId n) a x <->
  exists node q, byId n !! x = Some node /\ parentId node = Some q /\
                 (q = a \/ Descendant (byId n) a q).
Proof.
  split.
  - induction 1 as [a an x Ha Hx|a an c x Ha Hc' Hd IH].
    + destruct (cons_child_node a an x Ha Hx) as (node & H1 & H2). eauto 6.
    + destruct IH as (node & q & H1 & H2 & [->|H3]).
      * exists node, c. repeat split; auto. right. eapply Descendant_child; eauto.
      * exists node, q. repeat split; auto. right. eapply Descendant_step; eauto.
  - intros (node & q & Hx & Hp & Hq).
    destruct (cons_parent_node x node q Hx Hp) as (qn & Hqn & Hin).
    destruct Hq as [->|Hq].
    + eapply Descendant_child; eauto.
    + eapply Descendant_child_of; eauto.
Qed.

Lemma Descendant_deeper d a x :
  (forall y node p, byId n !! y = Some node -> parentId node = Some p -> (d p < d y)%nat) ->
  Descendant (byId n) a x -> (d a < d x)%nat.
Proof.
  intros Hd. induction 1 as [a an x Ha Hx|a an c x Ha Hc' _ IH].
  - destruct (cons_child_node a an x Ha Hx) as (node & H1 & H2). eauto.
  - destruct (cons_child_node a an c Ha Hc') as (node & H1 & H2).
    specialize (Hd c node a H1 H2). lia.
Qed.

Lemma Descendant_irrefl a : ~ Descendant (byId n) a a.
Proof.
  intros H. destruct (cons_depth n Hc) as [d Hd].
  pose proof (Descendant_deeper d a a Hd H). lia.
Qed.

Lemma depth_bound (d : string -> nat) :
  exists D, forall x node, byId n !! x = Some node -> (d x <= D)%nat.
Proof.
  induction (byId n) as [|k v m Hk _ IH] using map_first_key_ind.
  - exists 0%nat. intros x node H. rewrite lookup_empty in H. discriminate.
  - destruct IH as [D HD]. exists (Nat.max D (d k)). intros x node H.
    destruct (decide (x = k)) as [->|Hne]; [lia|].
    rewrite lookup_insert_ne in H by congruence. specialize (HD x node H). lia.
Qed.

(** In a consistent index [collectDescendants] returns, given enough fuel. *)
Lemma collectDescendants_returns :
  exists F, forall fuel a, (F <= fuel)%nat ->
    exists l, collectDescendants fuel (byId n) a = Some l.
Proof.
  destruct (cons_depth n Hc) as [d Hd].
  destruct (depth_bound d) as [D HD].
  assert (H : forall fuel a node, byId n !! a = Some node -> (D < d a + fuel)%nat ->
                exists l, collectDescendants fuel (byId n) a = Some l).
  { induction fuel as [|fuel IH]; intros a node Ha Hf.
    - specialize (HD a node Ha). lia.
    - rewrite collectDescendants_S, Ha.
      assert (Hcs : forall c, c ∈ childIds node ->
                exists l, collectDescendants fuel (byId n) c = Some l).
      { intros c Hcin. destruct (cons_child_node a node c Ha Hcin) as (cn & H1 & H2).
        apply (IH c cn H1). specialize (Hd c cn a H1 H2). lia. }
      revert Hcs. generalize (childIds node) as cs.
      induction cs as [|c cs IHcs]; intros Hcs; cbn [foldr]; [eauto|].
      destruct (Hcs c (list_elem_of_here _ _)) as [lc ->].
      destruct IHcs as [r ->]; [|eauto].
      intros c' Hc'. apply Hcs. now right. }
  exists (S D). intros fuel a Hf. destruct (byId n !! a) as [node|] eqn:Ha.
  - apply (H fuel a node Ha). lia.
  - destruct fuel as [|fuel]; [lia|]. rewrite collectDescendants_S, Ha. eauto.
Qed.

(** The subtree of a key, as a marking. *)
Lemma subtree_marking a desc :
  is_Some (byId n !! a) ->
  (forall x, x ∈ desc <-> Descendant (byId n) a x) ->
  SubtreeOf n a (fun x => memberOf x (a :: desc)).
Proof.
  intros Ha Hdesc. split.
  - apply memberOf_true. left.
  - intros x node Hx Hne. rewrite memberOf_true, elem_of_cons, Hdesc. split.
    + intros [->|H]; [contradiction|].
      apply Descendant_parent in H as (node' & q & Hx' & Hp & Hq).
      rewrite Hx in Hx'. injection Hx' as <-.
      exists q. split; [assumption|]. rewrite memberOf_true, elem_of_cons, Hdesc. tauto.
    + intros (q & Hp & Hq). right. apply Descendant_parent.
      exists node, q. repeat split; auto.
      apply memberOf_true, elem_of_cons in Hq. rewrite Hdesc in Hq. exact Hq.
Qed.

End ConsistentFacts.

Section Reindexing.

Lemma lookup_reindex_out l (m : gmap string FieldNode) k :
  NoDup l -> k ∉ l -> reindexChildren m l !! k = m !! k.
Proof.
  intros Hnd Hk. rewrite reindexChildren_lookup by assumption.
  unfold reindexed. apply indexOf_None in Hk. rewrite Hk.
  destruct (m !! k) as [node|]; simpl; [|reflexivity]. now rewrite withIndex_same.
Qed.

Lemma lookup_reindex_in l (m : gmap string FieldNode) k j :
  NoDup l -> l !! j = Some k ->
  reindexChildren m l !! k = (fun node => withIndex node j) <$> m !! k.
Proof.
  intros Hnd Hk. rewrite reindexChildren_lookup by assumption.
  unfold reindexed. now rewrite (indexOf_lookup k l j Hnd Hk).
Qed.

(** Reindexing changes nothing but [index]. *)
Lemma lookup_reindex_fields l (m : gmap string FieldNode) k node' :
  NoDup l -> reindexChildren m l !! k = Some node' ->
  exists node, m !! k = Some node /\ parentId node' = parentId node /\
               childIds node' = childIds node /\ definition node' = definition node /\
               (k ∉ l -> index node' = index node).
Proof.
  intros Hnd. rewrite reindexChildren_lookup by assumption.
  destruct (m !! k) as [node|]; simpl; [|discriminate].
  intros [= <-]. exists node. repeat split; try reflexivity.
  intros Hk. unfold reindexed. apply indexOf_None in Hk. now rewrite Hk.
Qed.

Lemma siblingList_reindex n l p :
  NoDup l ->
  siblingList {| byId := reindexChildren (byId n) l; rootIds := rootIds n |} p =
  siblingList n p.
Proof.
  intros Hnd. destruct p as [q|]; [|reflexivity]. simpl.
  rewrite reindexChildren_lookup by assumption.
  destruct (byId n !! q); reflexivity.
Qed.

Lemma reindex_parents l (m : gmap string FieldNode) x :
  NoDup l -> parentId <$> reindexChildren m l !! x = parentId <$> m !! x.
Proof.
  intros Hnd. rewrite reindexChildren_lookup by assumption.
  destruct (m !! x); reflexivity.
Qed.

Lemma reindex_insert_parents l (m : gmap string FieldNode) p pn x :
  NoDup l -> m !! p = Some pn ->
  parentId <$> reindexChildren (<[p := withChildIds pn l]> m) l !! x = parentId <$> m !! x.
Proof.
  intros Hnd Hp. rewrite reindex_parents by assumption.
  destruct (decide (x = p)) as [->|Hne].
  - now rewrite lookup_insert_eq, Hp.
  - now rewrite lookup_insert_ne by congruence.
Qed.

Lemma SubtreeOf_same_parents n n' id r :
  (forall x, parentId <$> byId n' !! x = parentId <$> byId n !! x) ->
  SubtreeOf n id r -> SubtreeOf n' id r.
Proof.
  intros Hsame [Hid Hr]. split; [assumption|].
  intros x node' Hx' Hne. specialize (Hsame x). rewrite Hx' in Hsame.
  destruct (byId n !! x) as [node|] eqn:Hx; [|discriminate].
  simpl in Hsame. injection Hsame as ->. now apply (Hr x node).
Qed.

(** A filter on keys. *)
Lemma lookup_filter_key {A} (g : string -> bool) (m : gmap string A) k :
  filter (fun kv => g kv.1 = true) m !! k = if g k then m !! k else None.
Proof.
  apply option_eq. intros v. rewrite map_lookup_filter_Some. simpl.
  destruct (g k); [tauto|]. split; [intros [_ ?]|]; discriminate.
Qed.

End Reindexing.

Section DetachedFacts.

Variable n : NormalizedDefinition.
Variable id : string.
Hypothesis Hd : Detached n id.

Lemma det_child_node p pn x :
  byId n !! p = Some pn -> x ∈ childIds pn ->
  exists node, byId n !! x = Some node /\ parentId node = Some p /\ x <> id.
Proof.
  intros Hp Hx. apply list_elem_of_lookup_1 in Hx as [i Hi].
  destruct (det_siblings n id Hd (Some p) (childIds pn) i x) as (node & H1 & _ & H2 & H3);
    [simpl; now rewrite Hp|assumption|eauto].
Qed.

Lemma det_root_node x :
  x ∈ rootIds n -> exists node, byId n !! x = Some node /\ parentId node = None /\ x <> id.
Proof.
  intros Hx. apply list_elem_of_lookup_1 in Hx as [i Hi].
  destruct (det_siblings n id Hd None (rootIds n) i x) as (node & H1 & _ & H2 & H3);
    [reflexivity|assumption|eauto].
Qed.

Lemma det_parent_node x node p :
  byId n !! x = Some node -> x <> id -> parentId node = Some p ->
  exists pn, byId n !! p = Some pn /\ x ∈ childIds pn.
Proof.
  intros Hx Hne Hp. destruct (det_parent n id Hd x node Hx Hne) as (l & Hl & Hin).
  rewrite Hp in Hl. simpl in Hl.
  destruct (byId n !! p) as [pn|]; [|discriminate].
  injection Hl as <-. eauto.
Qed.

Lemma det_parent_root x node :
  byId n !! x = Some node -> x <> id -> parentId node = None -> x ∈ rootIds n.
Proof.
  intros Hx Hne Hp. destruct (det_parent n id Hd x node Hx Hne) as (l & Hl & Hin).
  rewrite Hp in Hl. injection Hl as <-. assumption.
Qed.

Lemma det_NoDup p l : siblingList n p = Some l -> NoDup l.
Proof.
  intros Hl. apply NoDup_alt. intros i j x Hi Hj.
  destruct (det_siblings n id Hd p l i x Hl Hi) as (node & H1 & H2 & _).
  destruct (det_siblings n id Hd p l j x Hl Hj) as (node' & H1' & H2' & _).
  congruence.
Qed.

Lemma det_notin p l : siblingList n p = Some l -> id ∉ l.
Proof.
  intros Hl Hin. apply list_elem_of_lookup_1 in Hin as [i Hi].
  destruct (det_siblings n id Hd p l i id Hl Hi) as (_ & _ & _ & _ & H). congruence.
Qed.

End DetachedFacts.

Section Surgery.

(** A fresh key, not yet listed anywhere. *)
Lemma detached_fresh n id def par :
  Consistent n -> byId n !! id = None -> id <> EmptyString -> def_id def = id ->
  Detached {| byId := <[id := {| definition := def; parentId := par;
                                 childIds := []; index := 0 |}]> (byId n);
              rootIds := rootIds n |} id.
Proof.
  intros Hc Hfresh Hne Hdef. split; simpl.
  - rewrite lookup_insert_eq. eauto.
  - intros p l i x Hl Hi.
    assert (Hold : siblingList n p = Some l \/ l = []).
    { destruct p as [q|]; simpl in *; [|auto].
      destruct (decide (q = id)) as [->|Hq].
      - rewrite lookup_insert_eq in Hl. simpl in Hl. injection Hl as <-. auto.
      - rewrite lookup_insert_ne in Hl by congruence. auto. }
    destruct Hold as [Hold| ->]; [|discriminate].
    destruct (cons_siblings n Hc p l i x Hold Hi) as (node & H1 & H2 & H3).
    assert (x <> id) by congruence.
    exists node. rewrite lookup_insert_ne by congruence. auto.
  - intros x node Hx Hxne. rewrite lookup_insert_ne in Hx by congruence.
    destruct (cons_parent n Hc x node Hx) as (l & Hl & Hin).
    exists l. split; [|assumption].
    destruct (parentId node) as [q|]; simpl in *; [|assumption].
    destruct (decide (q = id)) as [->|Hq].
    + rewrite Hfresh in Hl. discriminate.
    + now rewrite lookup_insert_ne by congruence.
  - intros x node Hx. destruct (decide (x = id)) as [->|Hxne].
    + rewrite lookup_insert_eq in Hx. injection Hx as <-. auto.
    + rewrite lookup_insert_ne in Hx by congruence. apply (cons_ids n Hc x node Hx).
  - destruct (cons_depth n Hc) as [d Hdep]. exists d. intros x node p Hx Hxne Hp.
    rewrite lookup_insert_ne in Hx by congruence. eauto.
Qed.

(** Taking a field out of its parent's list. *)
Lemma detached_from_parent n id node p pn :
  Consistent n -> byId n !! id = Some node -> parentId node = Some p ->
  byId n !! p = Some pn ->
  Detached {| byId := reindexChildren
                        (<[p := withChildIds pn (without id (childIds pn))]> (byId n))
                        (without id (childIds pn));
              rootIds := rootIds n |} id.
Proof.
  intros Hc Hid Hpar Hp.
  set (ids := without id (childIds pn)).
  assert (Hnd : NoDup ids).
  { apply NoDup_without, (cons_NoDup n Hc (Some p)). simpl. now rewrite Hp. }
  assert (Hpid : p <> id).
  { intros ->. destruct (cons_depth n Hc) as [d Hdep].
    specialize (Hdep id node id Hid Hpar). lia. }
  assert (Hids : forall x, x ∈ ids <->
            x <> id /\ exists xn, byId n !! x = Some xn /\ parentId xn = Some p).
  { intros x. unfold ids. rewrite elem_of_without. split.
    - intros [Hx Hne]. split; [assumption|]. eapply cons_child_node; eauto.
    - intros (Hne & xn & Hx & Hxp). split; [|assumption].
      destruct (cons_parent_node n Hc x xn p Hx Hxp) as (pn' & Hp' & Hin).
      rewrite Hp in Hp'. injection Hp' as <-. assumption. }
  assert (Hpnotin : p ∉ ids).
  { intros H. apply Hids in H as (_ & xn & Hx & Hxp).
    destruct (cons_depth n Hc) as [d Hdep]. specialize (Hdep p xn p Hx Hxp). lia. }
  assert (Hlook : forall x, x <> p ->
            reindexChildren (<[p := withChildIds pn ids]> (byId n)) ids !! x
            = reindexed ids x <$> byId n !! x).
  { intros x Hx. rewrite reindexChildren_lookup by assumption.
    now rewrite lookup_insert_ne by congruence. }
  assert (Hlookp : reindexChildren (<[p := withChildIds pn ids]> (byId n)) ids !! p
                   = Some (withChildIds pn ids)).
  { rewrite lookup_reindex_out by assumption. apply lookup_insert_eq. }
  split; simpl.
  - rewrite Hlook by congruence. rewrite Hid. simpl. eauto.
  - intros q l i x Hl Hi.
    assert (Hcase : (q = Some p /\ l = ids) \/ (q <> Some p /\ siblingList n q = Some l)).
    { destruct q as [q|]; simpl in *; [|right; split; [discriminate|assumption]].
      destruct (decide (q = p)) as [->|Hq].
      - left. rewrite Hlookp in Hl. simpl in Hl. injection Hl as <-. auto.
      - right. split; [congruence|]. rewrite Hlook in Hl by assumption.
        destruct (byId n !! q); simpl in *; assumption. }
    destruct Hcase as [[-> ->]|[Hq Hold]].
    + assert (Hx : x ∈ ids) by (eapply list_elem_of_lookup_2; eassumption).
      apply Hids in Hx as (Hne & xn & Hx & Hxp).
      assert (x <> p) by (intros ->; apply Hpnotin; eapply list_elem_of_lookup_2; eassumption).
      exists (withIndex xn i). rewrite Hlook by assumption.
      unfold reindexed. rewrite (indexOf_lookup x ids i Hnd Hi), Hx. auto.
    + destruct (cons_siblings n Hc q l i x Hold Hi) as (xn & Hx & Hxi & Hxp).
      assert (Hxnot : x ∉ ids).
      { intros H. apply Hids in H as (_ & xn' & Hx' & Hxp'). congruence. }
      assert (Hxid : x <> id) by congruence.
      destruct (decide (x = p)) as [->|Hxp'].
      * exists (withChildIds pn ids). rewrite Hlookp.
        rewrite Hp in Hx. injection Hx as <-. auto.
      * exists xn. rewrite Hlook by assumption. unfold reindexed.
        apply indexOf_None in Hxnot. rewrite Hxnot, Hx. simpl.
        rewrite withIndex_same. auto.
  - intros x xn' Hx' Hxid.
    assert (Hx : exists xn, byId n !! x = Some xn /\ parentId xn' = parentId xn).
    { destruct (decide (x = p)) as [->|Hxp].
      - rewrite Hlookp in Hx'. injection Hx' as <-. eauto.
      - rewrite Hlook in Hx' by assumption.
        destruct (byId n !! x) as [xn|]; simpl in Hx'; [|discriminate].
        injection Hx' as <-. eauto. }
    destruct Hx as (xn & Hx & ->).
    destruct (parentId xn) as [q|] eqn:Hq; simpl.
    + destruct (cons_parent_node n Hc x xn q Hx Hq) as (qn & Hqn & Hin).
      destruct (decide (q = p)) as [->|Hqp].
      * rewrite Hlookp. simpl. eexists. split; [reflexivity|].
        apply Hids. eauto.
      * rewrite Hlook by assumption. rewrite Hqn. simpl. eauto.
    + eexists. split; [reflexivity|]. eapply cons_parent_root; eauto.
  - intros x xn' Hx'.
    destruct (decide (x = p)) as [->|Hxp].
    + rewrite Hlookp in Hx'. injection Hx' as <-. apply (cons_ids n Hc p pn Hp).
    + rewrite Hlook in Hx' by assumption.
      destruct (byId n !! x) as [xn|] eqn:Hx; simpl in Hx'; [|discriminate].
      injection Hx' as <-. apply (cons_ids n Hc x xn Hx).
  - destruct (cons_depth n Hc) as [d Hdep]. exists d. intros x xn' q Hx' _ Hq.
    destruct (decide (x = p)) as [->|Hxp].
    + rewrite Hlookp in Hx'. injection Hx' as <-. eauto.
    + rewrite Hlook in Hx' by assumption.
      destruct (byId n !! x) as [xn|] eqn:Hx; simpl in Hx'; [|discriminate].
      injection Hx' as <-. eauto.
Qed.

(** Taking a field out of the root list. *)
Lemma detached_from_root n id node :
  Consistent n -> byId n !! id = Some node -> parentId node = None ->
  Detached {| byId := reindexChildren (byId n) (without id (rootIds n));
              rootIds := without id (rootIds n) |} id.
Proof.
  intros Hc Hid Hpar.
  set (ids := without id (rootIds n)).
  assert (Hnd : NoDup ids) by (apply NoDup_without, (cons_NoDup n Hc None); reflexivity).
  assert (Hids : forall x, x ∈ ids <->
            x <> id /\ exists xn, byId n !! x = Some xn /\ parentId xn = None).
  { intros x. unfold ids. rewrite elem_of_without. split.
    - intros [Hx Hne]. split; [assumption|]. now apply cons_root_node.
    - intros (Hne & xn & Hx & Hxp). split; [|assumption].
      eapply cons_parent_root; eauto. }
  assert (Hlook : forall x, reindexChildren (byId n) ids !! x = reindexed ids x <$> byId n !! x).
  { intros x. now rewrite reindexChildren_lookup. }
  split; simpl.
  - rewrite Hlook, Hid. simpl. eauto.
  - intros q l i x Hl Hi.
    destruct q as [q|]; simpl in Hl.
    + rewrite Hlook in Hl.
      destruct (byId n !! q) as [qn|] eqn:Hq; simpl in Hl; [|discriminate].
      injection Hl as <-.
      destruct (cons_siblings n Hc (Some q) (childIds qn) i x) as (xn & Hx & Hxi & Hxp);
        [simpl; now rewrite Hq|assumption|].
      assert (Hxnot : x ∉ ids).
      { intros H. apply Hids in H as (_ & xn' & Hx' & Hxp'). congruence. }
      exists xn. rewrite Hlook. unfold reindexed.
      apply indexOf_None in Hxnot. rewrite Hxnot, Hx. simpl. rewrite withIndex_same.
      repeat split; auto. congruence.
    + injection Hl as <-.
      assert (Hx : x ∈ ids) by (eapply list_elem_of_lookup_2; eassumption).
      apply Hids in Hx as (Hne & xn & Hx & Hxp).
      exists (withIndex xn i). rewrite Hlook. unfold reindexed.
      rewrite (indexOf_lookup x ids i Hnd Hi), Hx. auto.
  - intros x xn' Hx' Hxid. rewrite Hlook in Hx'.
    destruct (byId n !! x) as [xn|] eqn:Hx; simpl in Hx'; [|discriminate].
    injection Hx' as <-. simpl.
    destruct (parentId xn) as [q|] eqn:Hq; simpl.
    + destruct (cons_parent_node n Hc x xn q Hx Hq) as (qn & Hqn & Hin).
      rewrite Hlook, Hqn. simpl. eauto.
    + eexists. split; [reflexivity|]. apply Hids. eauto.
  - intros x xn' Hx'. rewrite Hlook in Hx'.
    destruct (byId n !! x) as [xn|] eqn:Hx; simpl in Hx'; [|discriminate].
    injection Hx' as <-. apply (cons_ids n Hc x xn Hx).
  - destruct (cons_depth n Hc) as [d Hdep]. exists d. intros x xn' q Hx' _ Hq.
    rewrite Hlook in Hx'.
    destruct (byId n !! x) as [xn|] eqn:Hx; simpl in Hx'; [|discriminate].
    injection Hx' as <-. eauto.
Qed.

(** Putting a detached field into the root list. *)
Lemma attach_root n id node idx :
  Detached n id -> byId n !! id = Some node ->
  Consistent {| byId := reindexChildren (<[id := withParentId node None]> (byId n))
                          (insertAt (rootIds n) id idx);
                rootIds := insertAt (rootIds n) id idx |}.
Proof.
  intros Hd Hid.
  set (ids := insertAt (rootIds n) id idx).
  assert (Hnd : NoDup ids).
  { apply NoDup_insertAt; [apply (det_NoDup n id Hd None); reflexivity|].
    apply (det_notin n id Hd None). reflexivity. }
  assert (Hids : forall x, x ∈ ids <->
            x = id \/ (x <> id /\ exists xn, byId n !! x = Some xn /\ parentId xn = None)).
  { intros x. unfold ids. rewrite elem_of_insertAt. split.
    - intros [->|H]; [auto|]. right.
      destruct (det_root_node n id Hd x H) as (xn & H1 & H2 & H3). eauto.
    - intros [->|(Hne & xn & Hx & Hxp)]; [auto|]. right.
      eapply det_parent_root; eauto. }
  assert (Hlook : forall x, x <> id ->
            reindexChildren (<[id := withParentId node None]> (byId n)) ids !! x
            = reindexed ids x <$> byId n !! x).
  { intros x Hx. rewrite reindexChildren_lookup by assumption.
    now rewrite lookup_insert_ne by congruence. }
  assert (Hlookid : reindexChildren (<[id := withParentId node None]> (byId n)) ids !! id
                    = Some (reindexed ids id (withParentId node None))).
  { rewrite reindexChildren_lookup by assumption. now rewrite lookup_insert_eq. }
  split; simpl.
  - intros q l i x Hl Hi.
    destruct q as [q|]; simpl in Hl.
    + assert (Hold : siblingList n (Some q) = Some l).
      { simpl. destruct (decide (q = id)) as [->|Hq].
        - rewrite Hlookid in Hl. rewrite Hid. exact Hl.
        - rewrite Hlook in Hl by assumption.
          destruct (byId n !! q); simpl in *; assumption. }
      destruct (det_siblings n id Hd (Some q) l i x Hold Hi) as (xn & Hx & Hxi & Hxp & Hxid).
      assert (Hxnot : x ∉ ids).
      { intros H. apply Hids in H as [->|(_ & xn' & Hx' & Hxp')]; congruence. }
      exists xn. rewrite Hlook by assumption. unfold reindexed.
      apply indexOf_None in Hxnot. rewrite Hxnot, Hx. simpl. rewrite withIndex_same. auto.
    + injection Hl as <-.
      assert (Hx : x ∈ ids) by (eapply list_elem_of_lookup_2; eassumption).
      destruct (decide (x = id)) as [->|Hxid].
      * eexists. rewrite Hlookid. split; [reflexivity|].
        unfold reindexed. rewrite (indexOf_lookup id ids i Hnd Hi). auto.
      * apply Hids in Hx as [->|(_ & xn & Hx & Hxp)]; [contradiction|].
        exists (withIndex xn i). rewrite Hlook by assumption. unfold reindexed.
        rewrite (indexOf_lookup x ids i Hnd Hi), Hx. auto.
  - intros x xn' Hx'.
    destruct (decide (x = id)) as [->|Hxid].
    + rewrite Hlookid in Hx'. injection Hx' as <-. simpl.
      eexists. split; [reflexivity|]. apply Hids. auto.
    + rewrite Hlook in Hx' by assumption.
      destruct (byId n !! x) as [xn|] eqn:Hx; simpl in Hx'; [|discriminate].
      injection Hx' as <-. simpl.
      destruct (parentId xn) as [q|] eqn:Hq; simpl.
      * destruct (det_parent_node n id Hd x xn q Hx Hxid Hq) as (qn & Hqn & Hin).
        destruct (decide (q = id)) as [->|Hqid].
        -- rewrite Hlookid. simpl. rewrite Hid in Hqn. injection Hqn as <-. eauto.
        -- rewrite Hlook by assumption. rewrite Hqn. simpl. eauto.
      * eexists. split; [reflexivity|]. apply Hids. eauto.
  - intros x xn' Hx'.
    destruct (decide (x = id)) as [->|Hxid].
    + rewrite Hlookid in Hx'. injection Hx' as <-. apply (det_ids n id Hd id node Hid).
    + rewrite Hlook in Hx' by assumption.
      destruct (byId n !! x) as [xn|] eqn:Hx; simpl in Hx'; [|discriminate].
      injection Hx' as <-. apply (det_ids n id Hd x xn Hx).
  - destruct (det_depth n id Hd) as [d Hdep]. exists d. intros x xn' q Hx' Hq.
    destruct (decide (x = id)) as [->|Hxid].
    + rewrite Hlookid in Hx'. injection Hx' as <-. discriminate.
    + rewrite Hlook in Hx' by assumption.
      destruct (byId n !! x) as [xn|] eqn:Hx; simpl in Hx'; [|discriminate].
      injection Hx' as <-. eauto.
Qed.

(** Putting a detached field under a parent outside its subtree. *)
Lemma attach_child n id node t tn idx r :
  Detached n id -> byId n !! id = Some node -> byId n !! t = Some tn ->
  SubtreeOf n id r -> r t = false ->
  Consistent {| byId := reindexChildren
                          (<[id := withParentId node (Some t)]>
                             (<[t := withChildIds tn (insertAt (childIds tn) id idx)]> (byId n)))
                          (insertAt (childIds tn) id idx);
                rootIds := rootIds n |}.
Proof.
  intros Hd Hid Ht [Hrid Hr] Hrt.
  set (ids := insertAt (childIds tn) id idx).
  assert (Htid : t <> id) by congruence.
  assert (Hnd : NoDup ids).
  { apply NoDup_insertAt.
    - apply (det_NoDup n id Hd (Some t)). simpl. now rewrite Ht.
    - apply (det_notin n id Hd (Some t)). simpl. now rewrite Ht. }
  assert (Hids : forall x, x ∈ ids <->
            x = id \/ (x <> id /\ exists xn, byId n !! x = Some xn /\ parentId xn = Some t)).
  { intros x. unfold ids. rewrite elem_of_insertAt. split.
    - intros [->|H]; [auto|]. right.
      destruct (det_child_node n id Hd t tn x Ht H) as (xn & H1 & H2 & H3). eauto.
    - intros [->|(Hne & xn & Hx & Hxp)]; [auto|]. right.
      destruct (det_parent_node n id Hd x xn t Hx Hne Hxp) as (tn' & Ht' & Hin).
      rewrite Ht in Ht'. injection Ht' as <-. assumption. }
  assert (Htnot : t ∉ ids).
  { intros H. apply Hids in H as [->|(_ & xn & Hx & Hxp)]; [congruence|].
    destruct (Hr t xn Hx Htid) as [_ Hback].
    rewrite Hback in Hrt; [discriminate|]. rewrite Ht in Hx. injection Hx as <-.
    exfalso. destruct (det_depth n id Hd) as [d Hdep].
    specialize (Hdep t tn t Ht Htid Hxp). lia. }
  set (m' := reindexChildren (<[id := withParentId node (Some t)]>
                (<[t := withChildIds tn ids]> (byId n))) ids).
  assert (Hlook : forall x, x <> id -> x <> t -> m' !! x = reindexed ids x <$> byId n !! x).
  { intros x Hx1 Hx2. unfold m'. rewrite reindexChildren_lookup by assumption.
    now rewrite !lookup_insert_ne by congruence. }
  assert (Hlookid : m' !! id = Some (reindexed ids id (withParentId node (Some t)))).
  { unfold m'. rewrite reindexChildren_lookup by assumption. now rewrite lookup_insert_eq. }
  assert (Hlookt : m' !! t = Some (withChildIds tn ids)).
  { unfold m'. rewrite lookup_reindex_out by assumption.
    rewrite lookup_insert_ne by congruence. apply lookup_insert_eq. }
  assert (Hview : forall x xn', m' !! x = Some xn' ->
            (x = id /\ parentId xn' = Some t /\ definition xn' = definition node /\
             childIds xn' = childIds node) \/
            (x <> id /\ exists xn, byId n !! x = Some xn /\ parentId xn' = parentId xn /\
                                   definition xn' = definition xn)).
  { intros x xn' Hx'. destruct (decide (x = id)) as [->|Hxid].
    - left. rewrite Hlookid in Hx'. injection Hx' as <-. auto.
    - right. split; [assumption|]. destruct (decide (x = t)) as [->|Hxt].
      + rewrite Hlookt in Hx'. injection Hx' as <-. eauto.
      + rewrite Hlook in Hx' by assumption.
        destruct (byId n !! x) as [xn|]; simpl in Hx'; [|discriminate].
        injection Hx' as <-. eauto. }
  split; simpl; fold ids; fold m'.
  - intros q l i x Hl Hi.
    assert (Hcase : (q = Some t /\ l = ids) \/ (q <> Some t /\ siblingList n q = Some l)).
    { destruct q as [q|]; simpl in *; [|right; split; [discriminate|assumption]].
      destruct (decide (q = t)) as [->|Hq].
      - left. rewrite Hlookt in Hl. simpl in Hl. injection Hl as <-. auto.
      - right. split; [congruence|]. destruct (decide (q = id)) as [->|Hqid].
        + rewrite Hlookid in Hl. rewrite Hid. exact Hl.
        + rewrite Hlook in Hl by assumption.
          destruct (byId n !! q); simpl in *; assumption. }
    destruct Hcase as [[-> ->]|[Hq Hold]].
    + destruct (decide (x = id)) as [->|Hxid].
      * eexists. rewrite Hlookid. split; [reflexivity|].
        unfold reindexed. rewrite (indexOf_lookup id ids i Hnd Hi). auto.
      * assert (Hx : x ∈ ids) by (eapply list_elem_of_lookup_2; eassumption).
        assert (Hxt : x <> t) by congruence.
        apply Hids in Hx as [->|(_ & xn & Hx & Hxp)]; [contradiction|].
        exists (withIndex xn i). rewrite Hlook by assumption. unfold reindexed.
        rewrite (indexOf_lookup x ids i Hnd Hi), Hx. auto.
    + destruct (det_siblings n id Hd q l i x Hold Hi) as (xn & Hx & Hxi & Hxp & Hxid).
      assert (Hxnot : x ∉ ids).
      { intros H. apply Hids in H as [->|(_ & xn' & Hx' & Hxp')]; congruence. }
      destruct (decide (x = t)) as [->|Hxt].
      * exists (withChildIds tn ids). rewrite Hlookt.
        rewrite Ht in Hx. injection Hx as <-. auto.
      * exists xn. rewrite Hlook by assumption. unfold reindexed.
        apply indexOf_None in Hxnot. rewrite Hxnot, Hx. simpl.
        rewrite withIndex_same. auto.
  - intros x xn' Hx'.
    destruct (Hview x xn' Hx') as [(-> & Hp & _)|(Hxid & xn & Hx & Hp & _)].
    + rewrite Hp. simpl. rewrite Hlookt. simpl. eexists. split; [reflexivity|].
      apply Hids. auto.
    + rewrite Hp. destruct (parentId xn) as [q|] eqn:Hq; simpl.
      * destruct (det_parent_node n id Hd x xn q Hx Hxid Hq) as (qn & Hqn & Hin).
        destruct (decide (q = t)) as [->|Hqt].
        -- rewrite Hlookt. simpl. eexists. split; [reflexivity|]. apply Hids. eauto.
        -- destruct (decide (q = id)) as [->|Hqid].
           ++ rewrite Hlookid. simpl. rewrite Hid in Hqn. injection Hqn as <-. eauto.
           ++ rewrite Hlook by assumption. rewrite Hqn. simpl. eauto.
      * eexists. split; [reflexivity|]. eapply det_parent_root; eauto.
  - intros x xn' Hx'.
    destruct (Hview x xn' Hx') as [(-> & _ & Hdef & _)|(Hxid & xn & Hx & _ & Hdef)];
      rewrite Hdef.
    + apply (det_ids n id Hd id node Hid).
    + apply (det_ids n id Hd x xn Hx).
  - destruct (det_depth n id Hd) as [d Hdep].
    exists (fun x => if r x then (d x + d t + 1)%nat else d x).
    intros x xn' q Hx' Hq.
    destruct (Hview x xn' Hx') as [(-> & Hp & _)|(Hxid & xn & Hx & Hp & _)].
    + rewrite Hp in Hq. injection Hq as <-. rewrite Hrid, Hrt. lia.
    + rewrite Hp in Hq. specialize (Hdep x xn q Hx Hxid Hq).
      destruct (r x) eqn:Hrx.
      * apply (Hr x xn Hx Hxid) in Hrx as (q' & Hq' & Hrq).
        rewrite Hq in Hq'. injection Hq' as <-. rewrite Hrq. lia.
      * destruct (r q) eqn:Hrq; [|assumption].
        exfalso. assert (r x = true) by (apply (Hr x xn Hx Hxid); eauto). congruence.
Qed.

(** Dropping a detached field with its subtree. *)
Lemma detached_delete n id r :
  Detached n id -> SubtreeOf n id r ->
  Consistent {| byId := filter (fun kv => negb (r kv.1) = true) (byId n); rootIds := rootIds n |}.
Proof.
  intros Hd [Hrid Hr].
  assert (Hlook : forall x xn, filter (fun kv : string * FieldNode => negb (r kv.1) = true) (byId n) !! x = Some xn
                               <-> byId n !! x = Some xn /\ r x = false).
  { intros x xn. rewrite map_lookup_filter_Some. simpl. now rewrite negb_true_iff. }
  assert (Hkeep : forall x xn q, byId n !! x = Some xn -> x <> id -> parentId xn = Some q ->
                                 r q = r x).
  { intros x xn q Hx Hxid Hq. destruct (r x) eqn:Hrx.
    - apply (Hr x xn Hx Hxid) in Hrx as (q' & Hq' & Hrq). congruence.
    - destruct (r q) eqn:Hrq; [|reflexivity].
      assert (r x = true) by (apply (Hr x xn Hx Hxid); eauto). congruence. }
  assert (Hroot : forall x xn, byId n !! x = Some xn -> x <> id -> parentId xn = None ->
                               r x = false).
  { intros x xn Hx Hxid Hq. destruct (r x) eqn:Hrx; [|reflexivity].
    apply (Hr x xn Hx Hxid) in Hrx as (q' & Hq' & _). congruence. }
  assert (Hsib : forall q l, siblingList {| byId := filter (fun kv => negb (r kv.1) = true) (byId n);
                                            rootIds := rootIds n |} q = Some l ->
                             siblingList n q = Some l /\
                             match q with Some q' => r q' = false | None => True end).
  { intros [q|] l; simpl; [|auto].
    destruct (filter _ (byId n) !! q) as [qn|] eqn:Hq; simpl; [|discriminate].
    apply Hlook in Hq as [Hq Hrq]. rewrite Hq. auto. }
  split; simpl.
  - intros q l i x Hl Hi. apply Hsib in Hl as [Hold Hrq].
    destruct (det_siblings n id Hd q l i x Hold Hi) as (xn & Hx & Hxi & Hxp & Hxid).
    exists xn. split; [|auto]. apply Hlook. split; [assumption|].
    destruct q as [q|].
    + rewrite <- (Hkeep x xn q Hx Hxid Hxp). assumption.
    + eapply Hroot; eauto.
  - intros x xn Hx. apply Hlook in Hx as [Hx Hrx].
    assert (Hxid : x <> id) by congruence.
    destruct (parentId xn) as [q|] eqn:Hq; simpl.
    + destruct (det_parent_node n id Hd x xn q Hx Hxid Hq) as (qn & Hqn & Hin).
      assert (Hfq : filter (fun kv : string * FieldNode => negb (r kv.1) = true) (byId n) !! q = Some qn).
      { apply Hlook. split; [assumption|]. now rewrite (Hkeep x xn q Hx Hxid Hq). }
      rewrite Hfq. simpl. eauto.
    + eexists. split; [reflexivity|]. eapply det_parent_root; eauto.
  - intros x xn Hx. apply Hlook in Hx as [Hx _]. apply (det_ids n id Hd x xn Hx).
  - destruct (det_depth n id Hd) as [d Hdep]. exists d. intros x xn q Hx Hq.
    apply Hlook in Hx as [Hx Hrx]. assert (Hxid : x <> id) by congruence. eauto.
Qed.

(** A change of one definition that keeps its ID. *)
Lemma consistent_patch n id node def :
  Consistent n -> byId n !! id = Some node -> def_id def = id ->
  Consistent (withById n (<[id := withDefinition node def]> (byId n))).
Proof.
  intros Hc Hid Hdef.
  assert (Hlook : forall x xn', <[id := withDefinition node def]> (byId n) !! x = Some xn' ->
            exists xn, byId n !! x = Some xn /\ parentId xn' = parentId xn /\
                       childIds xn' = childIds xn /\ index xn' = index xn /\
                       def_id (definition xn') = def_id (definition xn)).
  { intros x xn' Hx'. destruct (decide (x = id)) as [->|Hne].
    - rewrite lookup_insert_eq in Hx'. injection Hx' as <-. exists node.
      repeat split; auto. simpl. rewrite Hdef.
      symmetry. apply (cons_ids n Hc id node Hid).
    - rewrite lookup_insert_ne in Hx' by congruence. eauto 8. }
  assert (Hback : forall x xn, byId n !! x = Some xn ->
            exists xn', <[id := withDefinition node def]> (byId n) !! x = Some xn' /\
                        parentId xn' = parentId xn /\ childIds xn' = childIds xn /\
                        index xn' = index xn).
  { intros x xn Hx. destruct (decide (x = id)) as [->|Hne].
    - rewrite lookup_insert_eq. rewrite Hid in Hx. injection Hx as <-. eauto.
    - rewrite lookup_insert_ne by congruence. eauto. }
  assert (Hsib : forall q, siblingList (withById n (<[id := withDefinition node def]> (byId n))) q
                           = siblingList n q).
  { intros [q|]; [|reflexivity]. simpl.
    destruct (byId n !! q) as [qn|] eqn:Hq.
    - destruct (Hback q qn Hq) as (qn' & -> & _ & Hch & _). simpl. now rewrite Hch.
    - destruct (<[id:=_]> (byId n) !! q) as [qn'|] eqn:Hq'; [|reflexivity].
      destruct (Hlook q qn' Hq') as (qn & Hqn & _). congruence. }
  split.
  - intros q l i x Hl Hi. rewrite Hsib in Hl.
    destruct (cons_siblings n Hc q l i x Hl Hi) as (xn & Hx & Hxi & Hxp).
    destruct (Hback x xn Hx) as (xn' & Hx' & Hp' & _ & Hi').
    exists xn'. simpl. repeat split; congruence.
  - intros x xn' Hx'. simpl in Hx'. destruct (Hlook x xn' Hx') as (xn & Hx & Hp & _).
    rewrite Hsib, Hp. eapply cons_parent; eauto.
  - intros x xn' Hx'. simpl in Hx'. destruct (Hlook x xn' Hx') as (xn & Hx & _ & _ & _ & Hdid).
    rewrite Hdid. apply (cons_ids n Hc x xn Hx).
  - destruct (cons_depth n Hc) as [d Hdep]. exists d. intros x xn' q Hx' Hq.
    simpl in Hx'. destruct (Hlook x xn' Hx') as (xn & Hx & Hp & _).
    rewrite Hp in Hq. eauto.
Qed.

End Surgery.

(** The IDs that [walk] puts into the index: children are followed under a
    section only. *)
Fixpoint indexedIds (d : FieldDefinition) : list string :=
  match d with
  | Field a fs =>
      def_id a :: match fs with
                  | Some l => if def_fieldType a =? "section"
                              then flat_map indexedIds l else []
                  | None => []
                  end
  end.

(** Every ID of a field with its nesting level. *)
Fixpoint levels (lvl : nat) (d : FieldDefinition) : list (string * nat) :=
  match d with
  | Field a fs =>
      (def_id a, lvl) :: match fs with
                         | Some l => flat_map (levels (S lvl)) l
                         | None => []
                         end
  end.

(** [d] is listed at position [i] under [parent], [lvl] sections deep. *)
Inductive Occurs (t : list FieldDefinition)
    : option string -> nat -> nat -> FieldDefinition -> Prop :=
  | Occurs_root i d : t !! i = Some d -> Occurs t None i 0 d
  | Occurs_child parent j lvl a l i c :
      Occurs t parent j lvl (Field a (Some l)) ->
      def_fieldType a = "section" -> l !! i = Some c ->
      Occurs t (Some (def_id a)) i (S lvl) c.

(** The node [walk] records for a field. *)
Definition nodeOf (parent : option string) (i : nat) (d : FieldDefinition) : FieldNode :=
  {| definition := fieldAttrs d; parentId := parent;
     childIds := childIdsOf d; index := i |}.

(** A loaded tree is well formed: its IDs are unique and none is empty. *)
Definition wellFormedTree (t : list FieldDefinition) : Prop :=
  uniqueIds t /\ EmptyString ∉ treeIds t.

Section NormalizedIndex.

Lemma levels_flat_map_fst lvl l :
  Forall (fun c => forall lvl, (levels lvl c).*1 = fieldIds c) l ->
  (flat_map (levels lvl) l).*1 = flat_map fieldIds l.
Proof.
  induction 1 as [|c l Hc _ IHl]; [reflexivity|].
  cbn [flat_map]. now rewrite fmap_app, Hc, IHl.
Qed.

Lemma levels_fst lvl d : (levels lvl d).*1 = fieldIds d.
Proof.
  revert lvl. induction d as [a|a l IH] using FieldDefinition_tree_ind; intros lvl;
    [reflexivity|].
  cbn [levels fieldIds]. rewrite fmap_cons. cbn [fst]. f_equal.
  now apply levels_flat_map_fst.
Qed.

Lemma levels_tree_fst t : (flat_map (levels 0) t).*1 = treeIds t.
Proof.
  unfold treeIds. apply levels_flat_map_fst, Forall_forall.
  intros d _ lvl. apply levels_fst.
Qed.

Lemma elem_of_flat_map_lookup {A B} (f : A -> list B) (l : list A) i c y :
  l !! i = Some c -> y ∈ f c -> y ∈ flat_map f l.
Proof.
  intros Hi Hy. apply list_elem_of_In, in_flat_map. exists c. split.
  - apply list_elem_of_In. eapply list_elem_of_lookup_2; eassumption.
  - now apply list_elem_of_In.
Qed.

Lemma Occurs_levels t parent i lvl d :
  Occurs t parent i lvl d -> forall e, e ∈ levels lvl d -> e ∈ flat_map (levels 0) t.
Proof.
  induction 1 as [i d Hi|parent j lvl a l i c _ IH Hs Hi]; intros e He.
  - eapply elem_of_flat_map_lookup; eassumption.
  - apply IH. simpl. right. eapply elem_of_flat_map_lookup; eassumption.
Qed.

Lemma Occurs_level t parent i lvl d :
  uniqueIds t -> Occurs t parent i lvl d ->
  (list_to_map (flat_map (levels 0) t) : gmap string nat) !! fieldId d = Some lvl.
Proof.
  intros Hu Ho. apply elem_of_list_to_map_1.
  - rewrite levels_tree_fst. exact Hu.
  - eapply Occurs_levels; [eassumption|]. destruct d as [a fs]. simpl. left.
Qed.

Lemma Occurs_Rep t parent i lvl d :
  uniqueIds t -> Occurs t parent i lvl d -> Rep (byId (normalizeDefinition t)) parent i d.
Proof.
  intros Hu. induction 1 as [i d Hi|parent j lvl a l i c _ IH Hs Hi].
  - now apply normalizeDefinition_Rep.
  - inversion IH as [? ? ? ? _ Hc]; subst. eapply Hc; eauto.
Qed.

Lemma Occurs_lookup t parent i lvl d :
  uniqueIds t -> Occurs t parent i lvl d ->
  byId (normalizeDefinition t) !! fieldId d = Some (nodeOf parent i d).
Proof.
  intros Hu Ho. pose proof (Occurs_Rep t parent i lvl d Hu Ho) as HR.
  inversion HR as [? ? a fs Hn _]; subst. exact Hn.
Qed.

(** Only indexed IDs are written. *)
Definition walkFieldFrame (d : FieldDefinition) : Prop :=
  forall parent i acc k, k ∉ indexedIds d -> walkField d parent i acc !! k = acc !! k.

Lemma walk_frame defs :
  Forall walkFieldFrame defs ->
  forall parent i acc k, k ∉ flat_map indexedIds defs ->
                         snd (walk defs parent i acc) !! k = acc !! k.
Proof.
  induction 1 as [|d defs Hd _ IH]; intros parent i acc k Hk; [reflexivity|].
  cbn [walk]. specialize (IH parent (S i) (walkField d parent i acc) k).
  destruct (walk defs parent (S i) (walkField d parent i acc)) as [ids acc2].
  simpl in *. rewrite elem_of_app in Hk.
  rewrite IH by tauto. apply Hd. tauto.
Qed.

Lemma walkField_frame d : walkFieldFrame d.
Proof.
  induction d as [a|a l IH] using FieldDefinition_tree_ind; intros parent i acc k Hk.
  - rewrite walkField_unfold. simpl. apply lookup_insert_ne. intros <-. apply Hk. left.
  - rewrite walkField_unfold. simpl in Hk.
    pose proof (walk_frame l IH (Some (def_id a)) 0%nat acc k) as Hw.
    destruct (def_fieldType a =? "section").
    + destruct (walk l (Some (def_id a)) 0%nat acc) as [ids acc1]. simpl in *.
      rewrite not_elem_of_cons in Hk. destruct Hk as [Hne Hk].
      rewrite lookup_insert_ne by congruence. now apply Hw.
    + simpl. apply lookup_insert_ne. intros <-. apply Hk. left.
Qed.

Lemma normalizeDefinition_keys t k :
  is_Some (byId (normalizeDefinition t) !! k) -> k ∈ flat_map indexedIds t.
Proof.
  intros Hk. destruct (decide (k ∈ flat_map indexedIds t)) as [|Hn]; [assumption|].
  exfalso. unfold normalizeDefinition in Hk.
  pose proof (walk_frame t (proj2 (Forall_forall _ _) (fun d _ => walkField_frame d))
                None 0%nat ∅ k Hn) as Hw.
  destruct (walk t None 0%nat ∅) as [ids m]. simpl in *.
  rewrite Hw, lookup_empty in Hk. destruct Hk as [? Hk]. discriminate.
Qed.

Lemma indexedIds_Occurs t d :
  forall k, k ∈ indexedIds d ->
  forall parent i lvl, Occurs t parent i lvl d ->
  exists parent' i' lvl' d', Occurs t parent' i' lvl' d' /\ fieldId d' = k.
Proof.
  induction d as [a|a l IH] using FieldDefinition_tree_ind; intros k Hk parent i lvl Ho.
  - simpl in Hk. apply elem_of_cons in Hk as [->|Hk]; [eauto 8|].
    apply elem_of_nil in Hk. contradiction.
  - simpl in Hk. apply elem_of_cons in Hk as [->|Hk]; [eauto 8|].
    destruct (String.eqb_spec (def_fieldType a) "section") as [Hs|Hs];
      [|apply elem_of_nil in Hk; contradiction].
    apply list_elem_of_In, in_flat_map in Hk as (c & Hc & Hk).
    apply list_elem_of_In in Hc, Hk.
    apply list_elem_of_lookup_1 in Hc as [j Hj].
    rewrite Forall_forall in IH.
    apply (IH c (list_elem_of_lookup_2 _ _ _ Hj) k Hk (Some (def_id a)) j (S lvl)).
    econstructor; eassumption.
Qed.

Lemma indexedIds_fieldIds d k : k ∈ indexedIds d -> k ∈ fieldIds d.
Proof.
  induction d as [a|a l IH] using FieldDefinition_tree_ind; intros Hk; [exact Hk|].
  simpl in *. apply elem_of_cons in Hk as [->|Hk]; [left|right].
  destruct (def_fieldType a =? "section"); [|apply elem_of_nil in Hk; contradiction].
  apply list_elem_of_In, in_flat_map in Hk as (c & Hc & Hk).
  apply list_elem_of_In, in_flat_map. exists c. split; [assumption|].
  apply list_elem_of_In. rewrite Forall_forall in IH.
  apply IH; apply list_elem_of_In; assumption.
Qed.

(** Every entry of the index of a tree is the node of a listed field. *)
Lemma normalizeDefinition_entry t k node :
  uniqueIds t -> byId (normalizeDefinition t) !! k = Some node ->
  exists parent i lvl d, Occurs t parent i lvl d /\ fieldId d = k /\ node = nodeOf parent i d.
Proof.
  intros Hu Hk.
  assert (Hin : k ∈ flat_map indexedIds t) by (apply normalizeDefinition_keys; eauto).
  apply list_elem_of_In, in_flat_map in Hin as (d0 & Hd0 & Hin).
  apply list_elem_of_In in Hd0, Hin.
  apply list_elem_of_lookup_1 in Hd0 as [j Hj].
  destruct (indexedIds_Occurs t d0 k Hin None j 0%nat (Occurs_root t j d0 Hj))
    as (parent & i & lvl & d & Ho & Hd).
  exists parent, i, lvl, d. repeat split; [assumption..|].
  pose proof (Occurs_lookup t parent i lvl d Hu Ho) as Hl.
  rewrite Hd, Hk in Hl. now injection Hl.
Qed.

Lemma Occurs_treeIds t parent i lvl d : Occurs t parent i lvl d -> fieldId d ∈ treeIds t.
Proof.
  intros Ho. rewrite <- levels_tree_fst. apply list_elem_of_fmap.
  exists (fieldId d, lvl). split; [reflexivity|].
  eapply Occurs_levels; [eassumption|]. destruct d. simpl. left.
Qed.

(** Loading a well-formed tree gives a consistent index. *)
Lemma normalizeDefinition_Consistent t :
  wellFormedTree t -> Consistent (normalizeDefinition t).
Proof.
  intros [Hu Hne]. split.
  - intros p l i x Hl Hi. destruct p as [q|]; simpl in Hl.
    + destruct (byId (normalizeDefinition t) !! q) as [qn|] eqn:Hq; [|discriminate].
      injection Hl as <-.
      destruct (normalizeDefinition_entry t q qn Hu Hq)
        as (parent & j & lvl & [a fs] & Ho & Hd & ->).
      simpl in Hi, Hd. destruct fs as [cs|]; [|discriminate].
      destruct (String.eqb_spec (def_fieldType a) "section") as [Hs|Hs]; [|discriminate].
      rewrite list_lookup_fmap in Hi.
      destruct (cs !! i) as [c|] eqn:Hc; [|discriminate]. injection Hi as <-.
      subst q. exists (nodeOf (Some (def_id a)) i c). split; [|auto].
      eapply Occurs_lookup; [assumption|]. econstructor; eassumption.
    + injection Hl as <-. rewrite normalizeDefinition_rootIds, list_lookup_fmap in Hi.
      destruct (t !! i) as [d|] eqn:Hd; [|discriminate]. injection Hi as <-.
      exists (nodeOf None i d). split; [|auto].
      eapply Occurs_lookup; [assumption|]. now constructor.
  - intros x node Hx.
    destruct (normalizeDefinition_entry t x node Hu Hx)
      as (parent & j & lvl & d & Ho & Hd & ->). simpl.
    inversion Ho as [i' d' Hi|parent' j' lvl' a l i' c Hop Hs Hi]; subst; simpl.
    + eexists. split; [reflexivity|]. rewrite normalizeDefinition_rootIds.
      apply list_elem_of_fmap. exists d. split; [reflexivity|].
      eapply list_elem_of_lookup_2; eassumption.
    + rewrite (Occurs_lookup t _ _ _ _ Hu Hop : byId _ !! def_id a = _). simpl.
      eexists. split; [reflexivity|].
      apply String.eqb_eq in Hs. rewrite Hs.
      apply list_elem_of_fmap. exists d. split; [reflexivity|].
      eapply list_elem_of_lookup_2; eassumption.
  - intros x node Hx.
    destruct (normalizeDefinition_entry t x node Hu Hx)
      as (parent & j & lvl & d & Ho & Hd & ->).
    split.
    + intros ->. apply Hne. rewrite <- Hd. eapply Occurs_treeIds; eassumption.
    + destruct d; exact Hd.
  - exists (fun x => default 0%nat
                       ((list_to_map (flat_map (levels 0) t) : gmap string nat) !! x)).
    intros x node p Hx Hp.
    destruct (normalizeDefinition_entry t x node Hu Hx)
      as (parent & j & lvl & d & Ho & Hd & ->). simpl in Hp. subst parent.
    inversion Ho as [|parent' j' lvl' a l i' c Hop Hs Hi]; subst.
    rewrite (Occurs_level t _ _ _ _ Hu Ho).
    rewrite (Occurs_level t _ _ _ _ Hu Hop : _ !! def_id a = _). simpl. lia.
Qed.

End NormalizedIndex.

(** The renaming of one ID. *)
Definition renamed (fieldId newId x : string) : string :=
  if x =? fieldId then newId else x.

Section GeneratedIds.

Lemma objectKeys_lookup {A} (m : gmap string A) k : k ∈ objectKeys m <-> is_Some (m !! k).
Proof.
  unfold objectKeys. rewrite list_elem_of_fmap. split.
  - intros ([k' v] & -> & H). apply elem_of_map_to_list in H. simpl. eauto.
  - intros [v H]. exists (k, v). split; [reflexivity|]. now apply elem_of_map_to_list.
Qed.

Lemma append_nonempty (a b : string) : a <> EmptyString -> a +:+ b <> EmptyString.
Proof. destruct a; [congruence|]. rewrite append_cons. discriminate. Qed.

Lemma generateId_nonempty prefix ids :
  prefix <> EmptyString -> generateId prefix ids <> EmptyString.
Proof.
  intros H. unfold generateId. destruct (negb _); [assumption|]. now apply append_nonempty.
Qed.

Lemma generateFieldId_nonempty ty ids parent :
  generateFieldId ty ids parent <> EmptyString.
Proof.
  unfold generateFieldId. apply generateId_nonempty.
  assert (Hf : (if ty =? "" then "field" else ty) <> EmptyString).
  { destruct (String.eqb_spec ty ""); [discriminate|assumption]. }
  destruct parent as [p|]; [|exact Hf].
  destruct (truthy (Some p)) eqn:Ht; [|exact Hf].
  apply truthy_Some in Ht. now apply append_nonempty.
Qed.

Lemma generateFieldId_fresh {A} ty (m : gmap string A) parent :
  m !! generateFieldId ty (objectKeys m) parent = None.
Proof.
  destruct (m !! _) as [v|] eqn:E; [|reflexivity]. exfalso.
  unfold generateFieldId in E.
  eapply generateId_fresh. apply list_elem_of_In.
  apply (proj2 (objectKeys_lookup m _)). eexists. exact E.
Qed.

Lemma newFieldDefinition_id m ty id patch : def_id (newFieldDefinition m ty id patch) = id.
Proof.
  unfold newFieldDefinition.
  repeat match goal with
         | |- context [if ?b then _ else _] => destruct b
         end; reflexivity.
Qed.

End GeneratedIds.

Section StructuralEdits.

(** ** addField *)

Lemma fresh_marking n id node :
  Consistent n -> byId n !! id = None ->
  SubtreeOf {| byId := <[id := node]> (byId n); rootIds := rootIds n |} id
            (fun x => bool_decide (x = id)).
Proof.
  intros Hc Hfresh. split; [now apply bool_decide_eq_true|].
  intros x xn Hx Hne. simpl in Hx. rewrite lookup_insert_ne in Hx by congruence.
  rewrite bool_decide_eq_true. split; [contradiction|].
  intros (q & Hq & Hrq). apply bool_decide_eq_true in Hrq. subst q.
  destruct (cons_parent_node n Hc x xn id Hx Hq) as (pn & Hp & _). congruence.
Qed.

Lemma addField_root_consistent n id def idx :
  Consistent n -> byId n !! id = None -> id <> EmptyString -> def_id def = id ->
  Consistent {| byId := reindexChildren
                          (<[id := {| definition := def; parentId := None;
                                      childIds := []; index := 0 |}]> (byId n))
                          (insertAt (rootIds n) id idx);
                rootIds := insertAt (rootIds n) id idx |}.
Proof.
  intros Hc Hfresh Hne Hdef.
  pose proof (detached_fresh n id def None Hc Hfresh Hne Hdef) as Hd.
  pose proof (attach_root _ id _ idx Hd (lookup_insert_eq _ _ _)) as H.
  simpl in H. rewrite insert_insert_eq in H. exact H.
Qed.

Lemma addField_child_consistent n id def p pn idx :
  Consistent n -> byId n !! id = None -> id <> EmptyString -> def_id def = id ->
  byId n !! p = Some pn ->
  Consistent {| byId := reindexChildren
                          (<[id := {| definition := def; parentId := Some p;
                                      childIds := []; index := 0 |}]>
                             (<[p := withChildIds pn (insertAt (childIds pn) id idx)]> (byId n)))
                          (insertAt (childIds pn) id idx);
                rootIds := rootIds n |}.
Proof.
  intros Hc Hfresh Hne Hdef Hp.
  assert (Hpid : p <> id) by congruence.
  pose proof (detached_fresh n id def (Some p) Hc Hfresh Hne Hdef) as Hd.
  assert (Hp' : byId {| byId := <[id := {| definition := def; parentId := Some p;
                                           childIds := []; index := 0 |}]> (byId n);
                        rootIds := rootIds n |} !! p = Some pn).
  { simpl. now rewrite lookup_insert_ne by congruence. }
  pose proof (attach_child _ id _ p pn idx _ Hd (lookup_insert_eq _ _ _) Hp'
                (fresh_marking n id _ Hc Hfresh)) as H.
  simpl in H. rewrite (insert_insert_ne _ p id) in H by assumption.
  rewrite insert_insert_eq in H. apply H.
  apply bool_decide_eq_false. assumption.
Qed.

Lemma addField_consistent registry st ty options :
  Consistent (normalized st) ->
  Consistent (normalized (snd (addField registry st ty options))).
Proof.
  intros Hc. unfold addField.
  destruct (getFieldTypeMeta registry ty) as [m|]; [|exact Hc].
  cbv zeta.
  assert (Hroot : Consistent (normalized (snd
    (Some (generateFieldId ty (objectKeys (byId (normalized st))) (opt_parentId options)),
     setNormalized st
       {| byId := reindexChildren
            (<[generateFieldId ty (objectKeys (byId (normalized st))) (opt_parentId options) :=
                 {| definition := newFieldDefinition m ty
                      (generateFieldId ty (objectKeys (byId (normalized st)))
                         (opt_parentId options)) (opt_patch options);
                    parentId := None; childIds := []; index := 0 |}]>
               (byId (normalized st)))
            (insertAt (rootIds (normalized st))
               (generateFieldId ty (objectKeys (byId (normalized st))) (opt_parentId options))
               (opt_index options));
          rootIds := insertAt (rootIds (normalized st))
               (generateFieldId ty (objectKeys (byId (normalized st))) (opt_parentId options))
               (opt_index options) |})))).
  { simpl. apply addField_root_consistent; auto using generateFieldId_fresh,
      generateFieldId_nonempty, newFieldDefinition_id. }
  destruct (opt_parentId options) as [p|] eqn:Hpar; [|exact Hroot].
  destruct (truthy (Some p)); [|exact Hroot].
  destruct (byId (normalized st) !! p) as [pn|] eqn:Hp; [|exact Hc].
  simpl. apply addField_child_consistent; auto using generateFieldId_fresh,
      generateFieldId_nonempty, newFieldDefinition_id.
Qed.

End StructuralEdits.

Section Rename.

Lemma renameIn_notin a b l : a ∉ l -> renameIn a b l = l.
Proof.
  intros H. unfold renameIn. induction l as [|x l IH]; [reflexivity|].
  apply not_elem_of_cons in H as [H1 H2]. simpl.
  destruct (String.eqb_spec x a) as [->|_]; [congruence|]. now rewrite IH.
Qed.

Lemma renamed_self a b : renamed a b a = b.
Proof. unfold renamed. now rewrite String.eqb_refl. Qed.

Lemma renamed_other a b x : x <> a -> renamed a b x = x.
Proof. unfold renamed. intros H. apply String.eqb_neq in H. now rewrite H. Qed.

Lemma renameIn_renamed a b l : renameIn a b l = map (renamed a b) l.
Proof. reflexivity. Qed.

Lemma withParentId_twice node p q :
  withParentId (withParentId node p) q = withParentId node q.
Proof. reflexivity. Qed.

Lemma reparentChildren_lookup newId l (m : gmap string FieldNode) y :
  reparentChildren newId l m !! y =
  (fun yn => if decide (y ∈ l) then withParentId yn (Some newId) else yn) <$> m !! y.
Proof.
  unfold reparentChildren. revert m. induction l as [|c l IH]; intros m.
  - simpl. destruct (m !! y); [|reflexivity]. simpl.
    destruct (decide (y ∈ [])) as [H|_]; [|reflexivity].
    apply elem_of_nil in H. contradiction.
  - cbn [fold_left]. rewrite IH. clear IH.
    destruct (decide (y = c)) as [->|Hne].
    + destruct (m !! c) as [cn|] eqn:Hcn.
      * rewrite lookup_insert_eq. simpl.
        destruct (decide (c ∈ c :: l)) as [_|H]; [|exfalso; apply H; left].
        destruct (decide (c ∈ l)); reflexivity.
      * rewrite Hcn. reflexivity.
    + assert (Hl : (match m !! c with
                    | Some child => <[c := withParentId child (Some newId)]> m
                    | None => m
                    end) !! y = m !! y).
      { destruct (m !! c); [|reflexivity]. now rewrite lookup_insert_ne by congruence. }
      rewrite Hl. destruct (m !! y) as [yn|]; [|reflexivity]. simpl.
      destruct (decide (y ∈ l)) as [H|H], (decide (y ∈ c :: l)) as [H'|H'];
        try reflexivity.
      * exfalso. apply H'. now right.
      * apply elem_of_cons in H' as [?|?]; contradiction.
Qed.

Variable n : NormalizedDefinition.
Variables fieldId newId : string.
Variable node : FieldNode.
Variable newDef : FieldDef.
Hypothesis Hc : Consistent n.
Hypothesis Hid : byId n !! fieldId = Some node.
Hypothesis Hnew : byId n !! newId = None.
Hypothesis Hne : newId <> EmptyString.
Hypothesis Hdef : def_id newDef = newId.

(** The index after the rename. *)
Definition renameIndex : gmap string FieldNode :=
  let m0 := <[newId := withDefinition node newDef]> (delete fieldId (byId n)) in
  reparentChildren newId (childIds node)
    match parentId node with
    | Some p =>
        match byId n !! p with
        | Some parentNode =>
            <[p := withChildIds parentNode (renameIn fieldId newId (childIds parentNode))]> m0
        | None => m0
        end
    | None => m0
    end.

Let Hnn : newId <> fieldId.
Proof. congruence. Qed.

Lemma rename_listed y yn :
  byId n !! y = Some yn -> fieldId ∈ childIds yn -> parentId node = Some y.
Proof.
  intros Hy Hin. destruct (cons_child_node n Hc y yn fieldId Hy Hin) as (node' & H1 & H2).
  congruence.
Qed.

Lemma rename_child y yn :
  byId n !! y = Some yn -> parentId yn = Some fieldId -> y ∈ childIds node.
Proof.
  intros Hy Hp. destruct (cons_parent_node n Hc y yn fieldId Hy Hp) as (node' & H1 & H2).
  congruence.
Qed.

Lemma rename_own_child y :
  y ∈ childIds node -> exists yn, byId n !! y = Some yn /\ parentId yn = Some fieldId.
Proof. intros Hy. eapply cons_child_node; eauto. Qed.

Lemma rename_no_cycle y yn :
  byId n !! y = Some yn -> parentId node = Some y -> parentId yn <> Some fieldId.
Proof.
  intros Hy Hp Hq. destruct (cons_depth n Hc) as [d Hd].
  pose proof (Hd fieldId node y Hid Hp). pose proof (Hd y yn fieldId Hy Hq). lia.
Qed.

Lemma rename_parent_other : parentId node <> Some fieldId.
Proof.
  intros Hp. destruct (cons_depth n Hc) as [d Hd].
  pose proof (Hd fieldId node fieldId Hid Hp). lia.
Qed.

Lemma rename_self_notin : fieldId ∉ childIds node.
Proof.
  intros H. apply rename_parent_other. eapply rename_listed; eauto.
Qed.

Lemma rename_new_notin : newId ∉ childIds node.
Proof.
  intros H. apply rename_own_child in H as (yn & Hy & _). congruence.
Qed.

Lemma renamed_parent p : p <> Some fieldId -> renamed fieldId newId <$> p = p.
Proof.
  intros H. destruct p as [q|]; [|reflexivity]. simpl. unfold renamed.
  destruct (String.eqb_spec q fieldId) as [->|_]; congruence.
Qed.

(** Every old entry is found under its renamed key, renamed throughout. *)
Lemma renameIndex_lookup x xn :
  byId n !! x = Some xn ->
  exists xn', renameIndex !! renamed fieldId newId x = Some xn' /\
              index xn' = index xn /\
              parentId xn' = renamed fieldId newId <$> parentId xn /\
              childIds xn' = renameIn fieldId newId (childIds xn) /\
              definition xn' = (if x =? fieldId then newDef else definition xn).
Proof.
  intros Hx. unfold renameIndex. rewrite reparentChildren_lookup.
  destruct (decide (x = fieldId)) as [->|Hxid].
  - rewrite Hid in Hx. injection Hx as <-.
    rewrite renamed_self, String.eqb_refl.
    assert (Hl : (match parentId node with
                  | Some p =>
                      match byId n !! p with
                      | Some parentNode =>
                          <[p := withChildIds parentNode
                                   (renameIn fieldId newId (childIds parentNode))]>
                            (<[newId := withDefinition node newDef]> (delete fieldId (byId n)))
                      | None => <[newId := withDefinition node newDef]> (delete fieldId (byId n))
                      end
                  | None => <[newId := withDefinition node newDef]> (delete fieldId (byId n))
                  end) !! newId = Some (withDefinition node newDef)).
    { destruct (parentId node) as [p|]; [|apply lookup_insert_eq].
      destruct (byId n !! p) as [pn|] eqn:Hp; [|apply lookup_insert_eq].
      rewrite lookup_insert_ne by congruence. apply lookup_insert_eq. }
    rewrite Hl. simpl.
    destruct (decide (newId ∈ childIds node)) as [H|_];
      [exfalso; now apply rename_new_notin|].
    eexists. split; [reflexivity|]. simpl.
    rewrite (renamed_parent _ rename_parent_other).
    rewrite (renameIn_notin _ _ _ rename_self_notin). auto.
  - assert (Hxnew : x <> newId) by congruence.
    rewrite (renamed_other _ _ _ Hxid).
    rewrite (proj2 (String.eqb_neq x fieldId) Hxid).
    assert (Hl : exists xn1,
              (match parentId node with
               | Some p =>
                   match byId n !! p with
                   | Some parentNode =>
                       <[p := withChildIds parentNode
                                (renameIn fieldId newId (childIds parentNode))]>
                         (<[newId := withDefinition node newDef]> (delete fieldId (byId n)))
                   | None => <[newId := withDefinition node newDef]> (delete fieldId (byId n))
                   end
               | None => <[newId := withDefinition node newDef]> (delete fieldId (byId n))
               end) !! x = Some xn1 /\
              index xn1 = index xn /\ parentId xn1 = parentId xn /\
              definition xn1 = definition xn /\
              childIds xn1 = renameIn fieldId newId (childIds xn)).
    { assert (Hbase : (<[newId := withDefinition node newDef]> (delete fieldId (byId n))) !! x
                      = Some xn).
      { rewrite lookup_insert_ne by congruence. now rewrite lookup_delete_ne by congruence. }
      assert (Hsame : parentId node <> Some x ->
                      childIds xn = renameIn fieldId newId (childIds xn)).
      { intros Hp. symmetry. apply renameIn_notin. intros Hin. apply Hp.
        eapply rename_listed; eauto. }
      destruct (parentId node) as [p|] eqn:Hpar.
      - destruct (cons_parent_node n Hc fieldId node p Hid Hpar) as (pn & Hp & _).
        rewrite Hp. destruct (decide (x = p)) as [->|Hxp].
        + rewrite lookup_insert_eq. rewrite Hp in Hx. injection Hx as <-.
          eexists. split; [reflexivity|]. auto.
        + rewrite lookup_insert_ne by congruence. exists xn.
          repeat split; auto. apply Hsame. congruence.
      - exists xn. repeat split; auto. }
    destruct Hl as (xn1 & -> & Hi & Hp & Hd & Hch). simpl.
    destruct (decide (x ∈ childIds node)) as [Hin|Hnin].
    + eexists. split; [reflexivity|]. simpl.
      destruct (rename_own_child x Hin) as (xn' & Hx' & Hp').
      rewrite Hx in Hx'. injection Hx' as <-. rewrite Hp'. simpl.
      rewrite renamed_self. auto.
    + exists xn1. split; [reflexivity|]. rewrite Hp.
      rewrite renamed_parent; [auto|].
      intros Hq. apply Hnin. eapply rename_child; eauto.
Qed.

(** Nothing else is in the new index. *)
Lemma renameIndex_keys y yn' :
  renameIndex !! y = Some yn' ->
  exists x xn, byId n !! x = Some xn /\ y = renamed fieldId newId x.
Proof.
  unfold renameIndex. rewrite reparentChildren_lookup. intros Hy.
  destruct (decide (y = newId)) as [->|Hynew].
  { exists fieldId, node. split; [assumption|]. unfold renamed. now rewrite String.eqb_refl. }
  apply fmap_Some in Hy as (v & Hy & _).
  assert (Hy' : is_Some (byId n !! y) /\ y <> fieldId).
  { assert (Hbase : (<[newId := withDefinition node newDef]> (delete fieldId (byId n))) !! y
                    = Some v -> is_Some (byId n !! y) /\ y <> fieldId).
    { rewrite lookup_insert_ne by congruence.
      destruct (decide (y = fieldId)) as [->|Hyid].
      - rewrite lookup_delete_eq. discriminate.
      - rewrite lookup_delete_ne by congruence. eauto. }
    destruct (parentId node) as [p|] eqn:Hpar; [|now apply Hbase].
    destruct (byId n !! p) as [pn|] eqn:Hp; [|now apply Hbase].
    destruct (decide (y = p)) as [->|Hyp].
    - split; [rewrite Hp; eauto|]. intros ->.
      apply rename_parent_other. assumption.
    - rewrite lookup_insert_ne in Hy by congruence. now apply Hbase. }
  destruct Hy' as [[yn Hyn] Hyid]. exists y, yn. split; [assumption|].
  unfold renamed. apply String.eqb_neq in Hyid. now rewrite Hyid.
Qed.

Lemma renamed_key x xn : byId n !! x = Some xn -> renamed fieldId newId x <> fieldId.
Proof.
  intros Hx. unfold renamed. destruct (String.eqb_spec x fieldId); congruence.
Qed.

Lemma renamed_inj x y xn yn :
  byId n !! x = Some xn -> byId n !! y = Some yn ->
  renamed fieldId newId x = renamed fieldId newId y -> x = y.
Proof.
  intros Hx Hy. unfold renamed.
  destruct (String.eqb_spec x fieldId), (String.eqb_spec y fieldId); congruence.
Qed.

Lemma rename_siblingList p l :
  siblingList n p = Some l ->
  siblingList {| byId := renameIndex; rootIds := renameIn fieldId newId (rootIds n) |}
              (renamed fieldId newId <$> p) = Some (renameIn fieldId newId l).
Proof.
  destruct p as [q|]; simpl.
  - destruct (byId n !! q) as [qn|] eqn:Hq; [|discriminate]. intros [= <-].
    destruct (renameIndex_lookup q qn Hq) as (qn' & -> & _ & _ & Hch & _).
    simpl. now rewrite Hch.
  - now intros [= <-].
Qed.

Lemma rename_siblingList_inv p' l' :
  siblingList {| byId := renameIndex; rootIds := renameIn fieldId newId (rootIds n) |} p'
    = Some l' ->
  exists p l, siblingList n p = Some l /\ p' = renamed fieldId newId <$> p /\
              l' = renameIn fieldId newId l.
Proof.
  destruct p' as [q'|]; simpl.
  - destruct (renameIndex !! q') as [qn'|] eqn:Hq'; [|discriminate]. intros [= <-].
    destruct (renameIndex_keys q' qn' Hq') as (q & qn & Hq & ->).
    destruct (renameIndex_lookup q qn Hq) as (qn1 & H1 & _ & _ & H2 & _).
    rewrite Hq' in H1. injection H1 as <-.
    exists (Some q), (childIds qn). simpl. rewrite Hq. auto.
  - intros [= <-]. exists None, (rootIds n). auto.
Qed.

Lemma rename_consistent :
  Consistent {| byId := renameIndex; rootIds := renameIn fieldId newId (rootIds n) |}.
Proof.
  split.
  - intros p' l' i x' Hl' Hi'.
    destruct (rename_siblingList_inv p' l' Hl') as (p & l & Hl & -> & ->).
    apply renameIn_lookup in Hi' as (x & Hi & ->).
    destruct (cons_siblings n Hc p l i x Hl Hi) as (xn & Hx & Hxi & Hxp).
    destruct (renameIndex_lookup x xn Hx) as (xn' & H1 & H2 & H3 & _).
    exists xn'. simpl. split; [exact H1|]. split; congruence.
  - intros y yn' Hy. simpl in Hy.
    destruct (renameIndex_keys y yn' Hy) as (x & xn & Hx & ->).
    destruct (renameIndex_lookup x xn Hx) as (xn' & H1 & _ & H3 & _).
    rewrite Hy in H1. injection H1 as <-.
    destruct (cons_parent n Hc x xn Hx) as (l & Hl & Hin).
    exists (renameIn fieldId newId l). rewrite H3. split.
    + now apply rename_siblingList.
    + rewrite renameIn_renamed. apply list_elem_of_In, in_map, list_elem_of_In, Hin.
  - intros y yn' Hy. simpl in Hy.
    destruct (renameIndex_keys y yn' Hy) as (x & xn & Hx & ->).
    destruct (renameIndex_lookup x xn Hx) as (xn' & H1 & _ & _ & _ & H5).
    rewrite Hy in H1. injection H1 as <-. rewrite H5. unfold renamed.
    destruct (String.eqb_spec x fieldId) as [->|Hxid]; [auto|].
    apply (cons_ids n Hc x xn Hx).
  - destruct (cons_depth n Hc) as [d Hd].
    exists (fun y => if y =? newId then d fieldId else d y).
    assert (Hdr : forall x xn, byId n !! x = Some xn ->
              (if renamed fieldId newId x =? newId then d fieldId
               else d (renamed fieldId newId x)) = d x).
    { intros x xn Hx. unfold renamed.
      destruct (String.eqb_spec x fieldId) as [->|Hxid].
      - now rewrite String.eqb_refl.
      - destruct (String.eqb_spec x newId) as [->|_]; [congruence|reflexivity]. }
    intros y yn' q' Hy Hq'. simpl in Hy.
    destruct (renameIndex_keys y yn' Hy) as (x & xn & Hx & ->).
    destruct (renameIndex_lookup x xn Hx) as (xn' & H1 & _ & H3 & _).
    rewrite Hy in H1. injection H1 as <-. rewrite H3 in Hq'.
    destruct (parentId xn) as [q|] eqn:Hq; [|discriminate].
    simpl in Hq'. injection Hq' as <-.
    destruct (cons_parent_node n Hc x xn q Hx Hq) as (qn & Hqn & _).
    rewrite (Hdr x xn Hx), (Hdr q qn Hqn). eauto.
Qed.

End Rename.

(** The index with [fieldId] taken out of its sibling list, as [removeField]
    and [moveField] do it. *)
Definition detachIndex (n : NormalizedDefinition) (fieldId : string) (node : FieldNode)
    : NormalizedDefinition :=
  match parentId node with
  | Some p =>
      match byId n !! p with
      | Some parentNode =>
          let ids := without fieldId (childIds parentNode) in
          {| byId := reindexChildren (<[p := withChildIds parentNode ids]> (byId n)) ids;
             rootIds := rootIds n |}
      | None => n
      end
  | None =>
      let roots := without fieldId (rootIds n) in
      {| byId := reindexChildren (byId n) roots; rootIds := roots |}
  end.

(** The index with [fieldId] put under [target], as [addField] and
    [moveField] do it. *)
Definition attachIndex (n : NormalizedDefinition) (fieldId : string) (node : FieldNode)
    (target : option string) (idx : option Z) : NormalizedDefinition :=
  match target with
  | Some t =>
      match byId n !! t with
      | Some parentNode =>
          let ids := insertAt (childIds parentNode) fieldId idx in
          {| byId := reindexChildren
                       (<[fieldId := withParentId node (Some t)]>
                          (<[t := withChildIds parentNode ids]> (byId n))) ids;
             rootIds := rootIds n |}
      | None => n
      end
  | None =>
      let roots := insertAt (rootIds n) fieldId idx in
      {| byId := reindexChildren (<[fieldId := withParentId node None]> (byId n)) roots;
         rootIds := roots |}
  end.

(** The parent a truthiness test lets through. *)
Definition effectiveParent (p : option string) : option string :=
  if truthy p then p else None.

Section DetachAttach.

Lemma reindex_proj {B} (f : FieldNode -> B) l (m : gmap string FieldNode) x :
  (forall node i, f (withIndex node i) = f node) ->
  NoDup l -> f <$> reindexChildren m l !! x = f <$> m !! x.
Proof.
  intros Hf Hnd. rewrite reindexChildren_lookup by assumption.
  destruct (m !! x); simpl; [|reflexivity]. unfold reindexed. now rewrite Hf.
Qed.

Lemma filter_reindex (g : string -> bool) (m : gmap string FieldNode) ids :
  NoDup ids ->
  reindexChildren (filter (fun kv => g kv.1 = true) m) ids =
  filter (fun kv => g kv.1 = true) (reindexChildren m ids).
Proof.
  intros Hnd. apply map_eq. intros k.
  rewrite lookup_filter_key, !reindexChildren_lookup by assumption.
  rewrite lookup_filter_key. destruct (g k); reflexivity.
Qed.

Lemma filter_insert_key (g : string -> bool) (m : gmap string FieldNode) k v :
  g k = true ->
  <[k := v]> (filter (fun kv => g kv.1 = true) m) =
  filter (fun kv => g kv.1 = true) (<[k := v]> m).
Proof.
  intros Hk. apply map_eq. intros x. rewrite lookup_filter_key.
  destruct (decide (x = k)) as [->|Hne].
  - now rewrite !lookup_insert_eq, Hk.
  - rewrite !lookup_insert_ne by congruence. now rewrite lookup_filter_key.
Qed.

Variable n : NormalizedDefinition.
Variable fieldId : string.
Variable node : FieldNode.
Hypothesis Hc : Consistent n.
Hypothesis Hid : byId n !! fieldId = Some node.

Lemma listed_under y yn :
  byId n !! y = Some yn -> fieldId ∈ childIds yn -> parentId node = Some y.
Proof.
  intros Hy Hin. destruct (cons_child_node n Hc y yn fieldId Hy Hin) as (node' & H1 & H2).
  congruence.
Qed.

Lemma listed_root : fieldId ∈ rootIds n -> parentId node = None.
Proof.
  intros Hin. destruct (cons_root_node n Hc fieldId Hin) as (node' & H1 & H2). congruence.
Qed.

Lemma parent_not_self : parentId node <> Some fieldId.
Proof.
  intros Hp. destruct (cons_depth n Hc) as [d Hd].
  pose proof (Hd fieldId node fieldId Hid Hp). lia.
Qed.

Lemma detach_NoDup p pn :
  byId n !! p = Some pn -> NoDup (without fieldId (childIds pn)).
Proof.
  intros Hp. apply NoDup_without, (cons_NoDup n Hc (Some p)). simpl. now rewrite Hp.
Qed.

Lemma detach_roots_NoDup : NoDup (without fieldId (rootIds n)).
Proof. apply NoDup_without, (cons_NoDup n Hc None). reflexivity. Qed.

Lemma detach_Detached : Detached (detachIndex n fieldId node) fieldId.
Proof.
  unfold detachIndex. destruct (parentId node) as [p|] eqn:Hpar.
  - destruct (cons_parent_node n Hc fieldId node p Hid Hpar) as (pn & Hp & _).
    rewrite Hp. now apply (detached_from_parent n fieldId node p pn).
  - now apply (detached_from_root n fieldId node).
Qed.

Lemma detach_proj {B} (f : FieldNode -> B) x :
  (forall y i, f (withIndex y i) = f y) ->
  (forall y l, f (withChildIds y l) = f y) ->
  f <$> byId (detachIndex n fieldId node) !! x = f <$> byId n !! x.
Proof.
  intros Hf1 Hf2. unfold detachIndex. destruct (parentId node) as [p|] eqn:Hpar.
  - destruct (cons_parent_node n Hc fieldId node p Hid Hpar) as (pn & Hp & _).
    rewrite Hp. simpl. rewrite reindex_proj by eauto using detach_NoDup.
    destruct (decide (x = p)) as [->|Hne].
    + now rewrite lookup_insert_eq, Hp; simpl; rewrite Hf2.
    + now rewrite lookup_insert_ne by congruence.
  - simpl. apply reindex_proj; [assumption|apply detach_roots_NoDup].
Qed.

Lemma detach_lookup : byId (detachIndex n fieldId node) !! fieldId = Some node.
Proof.
  unfold detachIndex. destruct (parentId node) as [p|] eqn:Hpar.
  - destruct (cons_parent_node n Hc fieldId node p Hid Hpar) as (pn & Hp & _).
    rewrite Hp. simpl. rewrite lookup_reindex_out.
    + rewrite lookup_insert_ne; [assumption|]. intros ->. now apply parent_not_self.
    + eauto using detach_NoDup.
    + rewrite elem_of_without. tauto.
  - simpl. rewrite lookup_reindex_out; [assumption|apply detach_roots_NoDup|].
    rewrite elem_of_without. tauto.
Qed.

Lemma detach_siblingList q :
  siblingList (detachIndex n fieldId node) q = without fieldId <$> siblingList n q.
Proof.
  destruct q as [q|].
  - change (childIds <$> byId (detachIndex n fieldId node) !! q
            = without fieldId <$> (childIds <$> byId n !! q)).
    unfold detachIndex. destruct (parentId node) as [p|] eqn:Hpar.
    + destruct (cons_parent_node n Hc fieldId node p Hid Hpar) as (pn & Hp & _).
      rewrite Hp. simpl. rewrite (reindex_proj childIds) by eauto using detach_NoDup.
      destruct (decide (q = p)) as [->|Hne].
      * now rewrite lookup_insert_eq, Hp.
      * rewrite lookup_insert_ne by congruence.
        destruct (byId n !! q) as [qn|] eqn:Hq; [|reflexivity]. simpl.
        rewrite without_notin; [reflexivity|]. intros Hin.
        apply Hne. pose proof (listed_under q qn Hq Hin). congruence.
    + simpl. rewrite (reindex_proj childIds) by eauto using detach_roots_NoDup.
      destruct (byId n !! q) as [qn|] eqn:Hq; [|reflexivity]. simpl.
      rewrite without_notin; [reflexivity|]. intros Hin.
      pose proof (listed_under q qn Hq Hin). congruence.
  - simpl. unfold detachIndex. destruct (parentId node) as [p|] eqn:Hpar.
    + destruct (cons_parent_node n Hc fieldId node p Hid Hpar) as (pn & Hp & _).
      rewrite Hp. simpl. rewrite without_notin; [reflexivity|].
      intros Hin. pose proof (listed_root Hin). congruence.
    + reflexivity.
Qed.

Lemma subtree_not_parent desc p :
  (forall x, x ∈ desc <-> Descendant (byId n) fieldId x) ->
  parentId node = Some p -> memberOf p (fieldId :: desc) = false.
Proof.
  intros Hdesc Hpar. apply memberOf_false. rewrite not_elem_of_cons. split.
  - intros ->. now apply parent_not_self.
  - rewrite Hdesc. intros Hd. destruct (cons_depth n Hc) as [d Hdep].
    pose proof (Descendant_deeper n Hc d fieldId p Hdep Hd).
    pose proof (Hdep fieldId node p Hid Hpar). lia.
Qed.

Lemma detach_marking desc :
  (forall x, x ∈ desc <-> Descendant (byId n) fieldId x) ->
  SubtreeOf (detachIndex n fieldId node) fieldId (fun x => memberOf x (fieldId :: desc)).
Proof.
  intros Hdesc. eapply SubtreeOf_same_parents.
  - intros x. apply (detach_proj parentId); reflexivity.
  - apply subtree_marking; eauto.
Qed.

End DetachAttach.

Section Attach.

Variable n : NormalizedDefinition.
Variable fieldId : string.
Variable node : FieldNode.
Variable idx : option Z.
Variable r : string -> bool.
Hypothesis Hd : Detached n fieldId.
Hypothesis Hid : byId n !! fieldId = Some node.
Hypothesis Hr : SubtreeOf n fieldId r.

Definition targetOutside (target : option string) : Prop :=
  forall t, target = Some t -> is_Some (byId n !! t) /\ r t = false.

Lemma attach_NoDup target l : siblingList n target = Some l -> NoDup (insertAt l fieldId idx).
Proof.
  intros Hl. apply NoDup_insertAt.
  - eapply det_NoDup; eauto.
  - eapply det_notin; eauto.
Qed.

Lemma attach_Consistent target :
  targetOutside target -> Consistent (attachIndex n fieldId node target idx).
Proof.
  intros Htarget. unfold attachIndex. destruct target as [t|].
  - destruct (Htarget t eq_refl) as [[tn Htn] Hrt]. rewrite Htn.
    now apply (attach_child n fieldId node t tn idx r).
  - now apply attach_root.
Qed.

Lemma attach_target_other target :
  targetOutside target -> forall t, target = Some t -> t <> fieldId.
Proof.
  intros Htarget t Ht ->. destruct (Htarget fieldId Ht) as [_ H]. destruct Hr as [H' _]. congruence.
Qed.

Lemma attach_proj {B} (f : FieldNode -> B) target x :
  targetOutside target ->
  (forall y i, f (withIndex y i) = f y) ->
  (forall y l, f (withChildIds y l) = f y) ->
  (forall y p, f (withParentId y p) = f y) ->
  f <$> byId (attachIndex n fieldId node target idx) !! x = f <$> byId n !! x.
Proof.
  intros Htarget Hf1 Hf2 Hf3. unfold attachIndex. destruct target as [t|].
  - destruct (Htarget t eq_refl) as [[tn Htn] Hrt]. rewrite Htn. simpl.
    rewrite reindex_proj; [|assumption|apply (attach_NoDup (Some t)); simpl; now rewrite Htn].
    destruct (decide (x = fieldId)) as [->|Hne].
    + now rewrite lookup_insert_eq, Hid; simpl; rewrite Hf3.
    + rewrite lookup_insert_ne by congruence.
      destruct (decide (x = t)) as [->|Hne'].
      * now rewrite lookup_insert_eq, Htn; simpl; rewrite Hf2.
      * now rewrite lookup_insert_ne by congruence.
  - simpl. rewrite reindex_proj; [|assumption|now apply (attach_NoDup None)].
    destruct (decide (x = fieldId)) as [->|Hne].
    + now rewrite lookup_insert_eq, Hid; simpl; rewrite Hf3.
    + now rewrite lookup_insert_ne by congruence.
Qed.

Lemma attach_parent target x :
  targetOutside target ->
  parentId <$> byId (attachIndex n fieldId node target idx) !! x =
  if decide (x = fieldId) then Some target else parentId <$> byId n !! x.
Proof.
  intros Htarget. unfold attachIndex. destruct target as [t|].
  - destruct (Htarget t eq_refl) as [[tn Htn] Hrt]. rewrite Htn. simpl.
    rewrite (reindex_proj parentId);
      [|reflexivity|apply (attach_NoDup (Some t)); simpl; now rewrite Htn].
    destruct (decide (x = fieldId)) as [->|Hne].
    + now rewrite lookup_insert_eq.
    + rewrite lookup_insert_ne by congruence.
      destruct (decide (x = t)) as [->|Hne'].
      * now rewrite lookup_insert_eq, Htn.
      * now rewrite lookup_insert_ne by congruence.
  - simpl. rewrite (reindex_proj parentId); [|reflexivity|now apply (attach_NoDup None)].
    destruct (decide (x = fieldId)) as [->|Hne].
    + now rewrite lookup_insert_eq.
    + now rewrite lookup_insert_ne by congruence.
Qed.

Lemma attach_siblingList target q :
  targetOutside target ->
  siblingList (attachIndex n fieldId node target idx) q =
  if decide (q = target) then (fun l => insertAt l fieldId idx) <$> siblingList n q
  else siblingList n q.
Proof.
  intros Htarget. destruct q as [q|].
  - change (childIds <$> byId (attachIndex n fieldId node target idx) !! q
            = if decide (Some q = target)
              then (fun l => insertAt l fieldId idx) <$> (childIds <$> byId n !! q)
              else childIds <$> byId n !! q).
    unfold attachIndex. destruct target as [t|].
    + destruct (Htarget t eq_refl) as [[tn Htn] Hrt]. rewrite Htn. simpl.
      rewrite (reindex_proj childIds);
        [|reflexivity|apply (attach_NoDup (Some t)); simpl; now rewrite Htn].
      pose proof (attach_target_other (Some t) Htarget t eq_refl) as Htid.
      destruct (decide (Some q = Some t)) as [[= ->]|Hne].
      * rewrite lookup_insert_ne by congruence.
        now rewrite lookup_insert_eq, Htn.
      * destruct (decide (q = fieldId)) as [->|Hne'].
        -- now rewrite lookup_insert_eq, Hid.
        -- rewrite !lookup_insert_ne by congruence. reflexivity.
    + simpl. rewrite (reindex_proj childIds); [|reflexivity|now apply (attach_NoDup None)].
      destruct (decide (Some q = None)) as [?|_]; [discriminate|].
      destruct (decide (q = fieldId)) as [->|Hne'].
      * now rewrite lookup_insert_eq, Hid.
      * now rewrite lookup_insert_ne by congruence.
  - unfold attachIndex. destruct target as [t|].
    + destruct (Htarget t eq_refl) as [[tn Htn] Hrt]. rewrite Htn. simpl.
      repeat case_decide; try discriminate; reflexivity.
    + simpl. repeat case_decide; try congruence; reflexivity.
Qed.

End Attach.

(** The parent [moveField] is asked to move under: the current one when
    [toParentId] is left out. *)
Definition requestedParent (node : FieldNode) (toParentId : option (option string))
    : option string :=
  match toParentId with
  | None => parentId node
  | Some t => t
  end.

(** An edit that names no empty string as a new ID. *)
Definition renameTargetNonEmpty (op : EditOp) : bool :=
  match op with
  | UpdateField _ patch =>
      match p_id patch with
      | Some newId => negb (newId =? "")
      | None => true
      end
  | _ => true
  end.

Section StoreEdits.

(** ** updateField *)

Lemma updateField_consistent st fieldId patch :
  Consistent (normalized st) -> p_id patch <> Some EmptyString ->
  Consistent (normalized (snd (updateField st fieldId patch))).
Proof.
  intros Hc Hne. unfold updateField. cbv zeta.
  destruct (byId (normalized st) !! fieldId) as [node|] eqn:Hid; [|exact Hc].
  assert (Hpatch : p_id patch = None \/ p_id patch = Some fieldId ->
     Consistent (normalized (snd
       match patchField (normalized st) fieldId (fun def => Some (applyPatch def patch)) with
       | Some result => (true, setNormalized st result)
       | None => (false, st)
       end))).
  { intros Hp. unfold patchField. rewrite Hid. simpl.
    apply consistent_patch; [assumption..|]. simpl.
    destruct Hp as [-> | ->]; simpl; [apply (cons_ids _ Hc _ _ Hid)|reflexivity]. }
  destruct (p_id patch) as [newId|] eqn:Hp; [|apply Hpatch; auto].
  destruct (String.eqb_spec newId fieldId) as [->|Hnn]; cbn [negb];
    [apply Hpatch; auto|].
  destruct (byId (normalized st) !! newId) eqn:Hnew; [exact Hc|].
  assert (Hdef : def_id (applyPatch (definition node) patch) = newId)
    by (simpl; now rewrite Hp).
  assert (Hne' : newId <> EmptyString) by congruence.
  pose proof (rename_consistent (normalized st) fieldId newId node _
                Hc Hid Hnew Hne' Hdef) as H.
  unfold renameIndex in H.
  pose proof (cons_truthy _ Hc _ _ Hid) as Ht.
  destruct (parentId node) as [p|] eqn:Hpar.
  - rewrite Ht.
    destruct (cons_parent_node _ Hc _ _ _ Hid Hpar) as (pn & Hpn & _).
    rewrite Hpn in H.
    assert (Hp0 : (<[newId := withDefinition node (applyPatch (definition node) patch)]>
                     (delete fieldId (byId (normalized st)))) !! p = Some pn).
    { rewrite lookup_insert_ne by congruence.
      rewrite lookup_delete_ne; [assumption|].
      intros ->. exact (parent_not_self _ _ _ Hc Hid Hpar). }
    rewrite Hp0. simpl.
    rewrite (renameIn_notin fieldId newId (rootIds (normalized st))) in H; [exact H|].
    intros Hin. pose proof (listed_root _ _ _ Hc Hid Hin). congruence.
  - rewrite Ht. simpl. exact H.
Qed.

(** ** removeField *)

Lemma removeField_consistent fuel st fieldId :
  Consistent (normalized st) ->
  Consistent (normalized (snd (removeField fuel st fieldId))).
Proof.
  intros Hc. unfold removeField. cbv zeta.
  destruct (byId (normalized st) !! fieldId) as [node|] eqn:Hid; [|exact Hc].
  destruct (collectDescendants fuel (byId (normalized st)) fieldId) as [desc|] eqn:Hdesc;
    [|exact Hc].
  pose proof (collectDescendants_spec _ _ _ _ Hdesc) as Hspec.
  pose proof (detach_Detached _ _ _ Hc Hid) as Hdet.
  pose proof (detach_marking _ _ _ Hc Hid desc Hspec) as Hmark.
  pose proof (detached_delete _ _ _ Hdet Hmark) as Hfinal.
  unfold detachIndex in Hfinal.
  pose proof (cons_truthy _ Hc _ _ Hid) as Ht.
  destruct (parentId node) as [p|] eqn:Hpar.
  - rewrite Ht.
    destruct (cons_parent_node _ Hc _ _ _ Hid Hpar) as (pn & Hpn & _).
    rewrite Hpn in Hfinal.
    assert (Hrp : negb (memberOf p (fieldId :: desc)) = true).
    { apply negb_true_iff. exact (subtree_not_parent _ _ _ Hc Hid desc p Hspec Hpar). }
    pose proof (lookup_filter_key (fun k => negb (memberOf k (fieldId :: desc)))
                  (byId (normalized st)) p) as H1.
    cbv beta in H1. rewrite H1, Hrp, Hpn. cbn [snd setNormalized normalized].
    pose proof (filter_insert_key (fun k => negb (memberOf k (fieldId :: desc)))
                  (byId (normalized st)) p
                  (withChildIds pn (without fieldId (childIds pn))) Hrp) as H2.
    cbv beta in H2. rewrite H2.
    pose proof (filter_reindex (fun k => negb (memberOf k (fieldId :: desc)))
                  (<[p := withChildIds pn (without fieldId (childIds pn))]>
                     (byId (normalized st)))
                  (without fieldId (childIds pn))
                  (detach_NoDup _ _ Hc p pn Hpn)) as H3.
    cbv beta in H3. rewrite H3. exact Hfinal.
  - cbn [snd setNormalized normalized].
    pose proof (filter_reindex (fun k => negb (memberOf k (fieldId :: desc)))
                  (byId (normalized st)) (without fieldId (rootIds (normalized st)))
                  (detach_roots_NoDup _ _ Hc)) as H3.
    cbv beta in H3. rewrite H3. exact Hfinal.
Qed.

Lemma removeField_mono fuel fuel' st fieldId :
  (fuel <= fuel')%nat -> is_Some (fst (removeField fuel st fieldId)) ->
  removeField fuel' st fieldId = removeField fuel st fieldId.
Proof.
  intros Hle. unfold removeField. cbv zeta.
  destruct (byId (normalized st) !! fieldId) as [node|]; [|reflexivity].
  destruct (collectDescendants fuel (byId (normalized st)) fieldId) as [desc|] eqn:Hdesc.
  - now rewrite (collectDescendants_mono_le _ _ _ _ _ Hle Hdesc).
  - intros [? H]. discriminate.
Qed.

Lemma removeField_returns st :
  Consistent (normalized st) ->
  exists F, forall fuel fieldId, (F <= fuel)%nat -> is_Some (fst (removeField fuel st fieldId)).
Proof.
  intros Hc. destruct (collectDescendants_returns _ Hc) as [F HF].
  exists F. intros fuel fieldId Hle. unfold removeField. cbv zeta.
  destruct (byId (normalized st) !! fieldId) as [node|]; [|simpl; eauto].
  destruct (HF fuel fieldId Hle) as [l ->].
  destruct (match parentId node with Some _ => _ | None => _ end). simpl. eauto.
Qed.

(** ** moveField *)

Lemma detach_is_Some n fieldId node x :
  Consistent n -> byId n !! fieldId = Some node ->
  is_Some (byId (detachIndex n fieldId node) !! x) <-> is_Some (byId n !! x).
Proof.
  intros Hc Hid. rewrite <- (fmap_is_Some definition).
  rewrite (detach_proj n fieldId node Hc Hid definition) by reflexivity.
  apply fmap_is_Some.
Qed.

(** The first half of [moveField], on a consistent index. *)
Lemma detach_pair n fieldId node :
  Consistent n -> byId n !! fieldId = Some node ->
  match parentId node with
  | Some p =>
      if truthy (parentId node) then
        match byId n !! p with
        | Some parentNode =>
            (reindexChildren
               (<[p := withChildIds parentNode (without fieldId (childIds parentNode))]>
                  (byId n))
               (without fieldId (childIds parentNode)), rootIds n)
        | None =>
            (reindexChildren (byId n) (without fieldId (rootIds n)),
             without fieldId (rootIds n))
        end
      else (reindexChildren (byId n) (without fieldId (rootIds n)),
            without fieldId (rootIds n))
  | None => (reindexChildren (byId n) (without fieldId (rootIds n)),
             without fieldId (rootIds n))
  end = (byId (detachIndex n fieldId node), rootIds (detachIndex n fieldId node)).
Proof.
  intros Hc Hid. unfold detachIndex.
  pose proof (cons_truthy _ Hc _ _ Hid) as Ht.
  destruct (parentId node) as [p|] eqn:Hpar; [|reflexivity].
  rewrite Ht. destruct (cons_parent_node _ Hc _ _ _ Hid Hpar) as (pn & Hpn & _).
  now rewrite Hpn.
Qed.

Lemma moveField_unknown fuel st fieldId toIndex toParentId :
  byId (normalized st) !! fieldId = None ->
  moveField fuel st fieldId toIndex toParentId = (Some false, st).
Proof. intros H. unfold moveField. cbv zeta. now rewrite H. Qed.

Lemma moveField_rejects fuel st fieldId node toIndex toParentId t :
  byId (normalized st) !! fieldId = Some node ->
  requestedParent node toParentId = Some t ->
  t = fieldId \/
  (t <> EmptyString /\ byId (normalized st) !! t = None) \/
  (t <> EmptyString /\
   exists desc, collectDescendants fuel (byId (normalized st)) fieldId = Some desc /\
                t ∈ desc) ->
  moveField fuel st fieldId toIndex toParentId = (Some false, st).
Proof.
  intros Hid Ht Hcase. unfold moveField. cbv zeta. rewrite Hid.
  change (match toParentId with None => parentId node | Some t0 => t0 end)
    with (requestedParent node toParentId).
  rewrite Ht.
  destruct (String.eqb_spec t fieldId) as [->|Hne]; [reflexivity|].
  destruct Hcase as [?|[[Hne' Hl]|(Hne' & desc & Hd & Hin)]]; [contradiction| |].
  - rewrite (proj2 (truthy_Some t) Hne'), Hl. reflexivity.
  - rewrite (proj2 (truthy_Some t) Hne').
    destruct (byId (normalized st) !! t); [|reflexivity].
    cbn [andb]. rewrite Hd, (proj2 (memberOf_true t desc) Hin). reflexivity.
Qed.

Lemma moveField_out_of_fuel fuel st fieldId node toIndex toParentId t :
  byId (normalized st) !! fieldId = Some node ->
  requestedParent node toParentId = Some t ->
  t <> fieldId -> t <> EmptyString -> is_Some (byId (normalized st) !! t) ->
  collectDescendants fuel (byId (normalized st)) fieldId = None ->
  moveField fuel st fieldId toIndex toParentId = (None, st).
Proof.
  intros Hid Ht Hne Hne' [tn Htn] Hd. unfold moveField. cbv zeta. rewrite Hid.
  change (match toParentId with None => parentId node | Some t0 => t0 end)
    with (requestedParent node toParentId).
  rewrite Ht, (proj2 (String.eqb_neq t fieldId) Hne), (proj2 (truthy_Some t) Hne'), Htn.
  cbn [andb]. rewrite Hd. reflexivity.
Qed.

Lemma moveField_moves fuel st fieldId node toIndex toParentId :
  Consistent (normalized st) -> byId (normalized st) !! fieldId = Some node ->
  (forall t, effectiveParent (requestedParent node toParentId) = Some t ->
             t <> fieldId /\ is_Some (byId (normalized st) !! t) /\
             exists desc, collectDescendants fuel (byId (normalized st)) fieldId = Some desc /\
                          t ∉ desc) ->
  moveField fuel st fieldId toIndex toParentId =
  (Some true,
   setNormalized st
     (attachIndex (detachIndex (normalized st) fieldId node) fieldId node
        (effectiveParent (requestedParent node toParentId)) (Some toIndex))).
Proof.
  intros Hc Hid Hok. unfold moveField. cbv zeta. rewrite Hid.
  change (match toParentId with None => parentId node | Some t0 => t0 end)
    with (requestedParent node toParentId).
  rewrite (detach_pair _ _ _ Hc Hid).
  cbv beta iota.
  unfold effectiveParent in *.
  destruct (requestedParent node toParentId) as [t|].
  - destruct (truthy (Some t)) eqn:Htr.
    + destruct (Hok t eq_refl) as (Hne & Hkey & desc & Hd & Hnin).
      rewrite (proj2 (String.eqb_neq t fieldId) Hne).
      destruct Hkey as [tn Htn]. rewrite Htn. cbn [andb].
      rewrite Hd, (proj2 (memberOf_false t desc) Hnin).
      unfold attachIndex.
      destruct (proj2 (detach_is_Some _ _ _ t Hc Hid) (ex_intro _ tn Htn)) as [tn' ->].
      reflexivity.
    + assert (t = EmptyString) as ->.
      { destruct (String.eqb_spec t "") as [|Hne]; [assumption|].
        apply truthy_Some in Hne. congruence. }
      assert (Hne : ("" =? fieldId) = false).
      { apply String.eqb_neq. intros <-. now apply (cons_key_nonempty _ Hc _ _ Hid). }
      rewrite Hne. reflexivity.
  - reflexivity.
Qed.

Lemma moveField_consistent fuel st fieldId toIndex toParentId :
  Consistent (normalized st) ->
  Consistent (normalized (snd (moveField fuel st fieldId toIndex toParentId))).
Proof.
  intros Hc.
  destruct (byId (normalized st) !! fieldId) as [node|] eqn:Hid;
    [|now rewrite moveField_unknown].
  assert (Hmove : forall desc,
            (forall x, x ∈ desc <-> Descendant (byId (normalized st)) fieldId x) ->
            (forall t, effectiveParent (requestedParent node toParentId) = Some t ->
                       is_Some (byId (normalized st) !! t) /\
                       memberOf t (fieldId :: desc) = false) ->
            Consistent (attachIndex (detachIndex (normalized st) fieldId node) fieldId node
                          (effectiveParent (requestedParent node toParentId))
                          (Some toIndex))).
  { intros desc Hdesc Hout.
    apply (attach_Consistent _ fieldId node (Some toIndex)
             (fun x => memberOf x (fieldId :: desc))).
    - now apply detach_Detached.
    - now apply detach_lookup.
    - now apply detach_marking.
    - intros t Ht. destruct (Hout t Ht) as [Hkey Hm]. split; [|assumption].
      now apply detach_is_Some. }
  destruct (effectiveParent (requestedParent node toParentId)) as [t|] eqn:Heff.
  - assert (Hreq : requestedParent node toParentId = Some t /\ t <> EmptyString).
    { unfold effectiveParent in Heff.
      destruct (truthy (requestedParent node toParentId)) eqn:Htr; [|discriminate].
      rewrite Heff in Htr. split; [assumption|now apply truthy_Some]. }
    destruct Hreq as [Hreq Hne].
    destruct (decide (t = fieldId)) as [Heq|Hneq];
      [rewrite (moveField_rejects _ _ _ node _ _ t); auto|].
    destruct (byId (normalized st) !! t) as [tn|] eqn:Htn;
      [|rewrite (moveField_rejects _ _ _ node _ _ t); auto].
    destruct (collectDescendants fuel (byId (normalized st)) fieldId) as [desc|] eqn:Hd;
      [|rewrite (moveField_out_of_fuel _ _ _ node _ _ t); eauto].
    destruct (decide (t ∈ desc)) as [Hin|Hnin];
      [rewrite (moveField_rejects _ _ _ node _ _ t); eauto 8|].
    rewrite (moveField_moves _ _ _ node); [| assumption..|].
    + simpl. rewrite Heff. apply (Hmove desc).
      * now apply (collectDescendants_spec _ fuel).
      * intros t' [= <-]. split; [eauto|].
        apply memberOf_false. rewrite not_elem_of_cons. tauto.
    + rewrite Heff. intros t' [= <-]. eauto 8.
  - rewrite (moveField_moves _ _ _ node); [| assumption..|].
    + simpl. rewrite Heff.
      destruct (collectDescendants_returns _ Hc) as [F HF].
      destruct (HF F fieldId (le_n _)) as [desc Hd].
      apply (Hmove desc); [now apply (collectDescendants_spec _ F)|discriminate].
    + rewrite Heff. discriminate.
Qed.

End StoreEdits.

(** In every sibling list the node at position [i] has index [i]. *)
Definition positionsMatch (n : NormalizedDefinition) : Prop :=
  forall p l i x,
    siblingList n p = Some l -> l !! i = Some x ->
    exists node, byId n !! x = Some node /\ index node = i.

(** No two entries share an ID, and an ID is listed once: in one sibling
    list, at one position. *)
Definition idsUnique (n : NormalizedDefinition) : Prop :=
  (forall x y nx ny,
     byId n !! x = Some nx -> byId n !! y = Some ny ->
     def_id (definition nx) = def_id (definition ny) -> x = y) /\
  (forall p l, siblingList n p = Some l -> NoDup l) /\
  (forall p q l l' x,
     siblingList n p = Some l -> siblingList n q = Some l' ->
     x ∈ l -> x ∈ l' -> p = q).

(** What a move of [fieldId] under [target] leaves, in terms of the index
    before it. *)
Record Moved (n n' : NormalizedDefinition) (fieldId : string)
    (target : option string) (toIndex : Z) : Prop := {
  moved_parent : parentId <$> byId n' !! fieldId = Some target;
  moved_others : forall x,
    x <> fieldId -> parentId <$> byId n' !! x = parentId <$> byId n !! x;
  moved_definitions : forall x, definition <$> byId n' !! x = definition <$> byId n !! x;
  moved_lists : forall q,
    siblingList n' q =
    (if decide (q = target)
     then fun l => insertAt (without fieldId l) fieldId (Some toIndex)
     else without fieldId) <$> siblingList n q;
  moved_reindexed : forall q l i x,
    siblingList n' q = Some l -> l !! i = Some x -> index <$> byId n' !! x = Some i
}.

Section Sequences.

Lemma Consistent_positionsMatch n : Consistent n -> positionsMatch n.
Proof.
  intros Hc p l i x Hl Hi.
  destruct (cons_siblings n Hc p l i x Hl Hi) as (node & H1 & H2 & _). eauto.
Qed.

Lemma Consistent_idsUnique n : Consistent n -> idsUnique n.
Proof.
  intros Hc. split; [|split].
  - intros x y nx ny Hx Hy Heq.
    destruct (cons_ids n Hc x nx Hx) as [_ <-].
    destruct (cons_ids n Hc y ny Hy) as [_ <-]. exact Heq.
  - apply (cons_NoDup n Hc).
  - intros p q l l' x Hl Hl' Hx Hx'.
    apply list_elem_of_lookup_1 in Hx as [i Hi], Hx' as [j Hj].
    destruct (cons_siblings n Hc p l i x Hl Hi) as (node & H1 & _ & H2).
    destruct (cons_siblings n Hc q l' j x Hl' Hj) as (node' & H1' & _ & H2').
    congruence.
Qed.

Lemma move_spec n fieldId node target toIndex (desc : list string) :
  Consistent n -> byId n !! fieldId = Some node ->
  (forall x, x ∈ desc <-> Descendant (byId n) fieldId x) ->
  (forall t, target = Some t -> is_Some (byId n !! t) /\ t <> fieldId /\ t ∉ desc) ->
  Consistent (attachIndex (detachIndex n fieldId node) fieldId node target (Some toIndex)) /\
  Moved n (attachIndex (detachIndex n fieldId node) fieldId node target (Some toIndex))
        fieldId target toIndex.
Proof.
  intros Hc Hid Hdesc Hok.
  pose proof (detach_Detached _ _ _ Hc Hid) as Hdet.
  pose proof (detach_lookup _ _ _ Hc Hid) as Hlook.
  pose proof (detach_marking _ _ _ Hc Hid desc Hdesc) as Hmark.
  assert (Hout : targetOutside (detachIndex n fieldId node)
                   (fun x => memberOf x (fieldId :: desc)) target).
  { intros t Ht. destruct (Hok t Ht) as (Hkey & Hne & Hnin). split.
    - now apply detach_is_Some.
    - apply memberOf_false. rewrite not_elem_of_cons. tauto. }
  pose proof (attach_Consistent _ _ _ (Some toIndex) _ Hdet Hlook Hmark target Hout) as Hc'.
  split; [exact Hc'|]. split.
  - rewrite (attach_parent _ _ node (Some toIndex) _ Hdet target _ Hout).
    destruct (decide (fieldId = fieldId)); congruence.
  - intros x Hne.
    rewrite (attach_parent _ _ node (Some toIndex) _ Hdet target _ Hout).
    destruct (decide (x = fieldId)); [contradiction|].
    apply (detach_proj _ _ _ Hc Hid parentId); reflexivity.
  - intros x.
    rewrite (attach_proj _ _ _ (Some toIndex) _ Hdet Hlook definition target x Hout)
      by reflexivity.
    apply (detach_proj _ _ _ Hc Hid definition); reflexivity.
  - intros q.
    rewrite (attach_siblingList _ _ _ (Some toIndex) _ Hdet Hlook Hmark target q Hout).
    rewrite (detach_siblingList _ _ _ Hc Hid q).
    destruct (decide (q = target)); [|reflexivity].
    destruct (siblingList n q); reflexivity.
  - intros q l i x Hl Hi.
    destruct (cons_siblings _ Hc' q l i x Hl Hi) as (xn & -> & <- & _). reflexivity.
Qed.

Lemma moveField_mono fuel fuel' st fieldId toIndex toParentId :
  (fuel <= fuel')%nat -> is_Some (fst (moveField fuel st fieldId toIndex toParentId)) ->
  moveField fuel' st fieldId toIndex toParentId = moveField fuel st fieldId toIndex toParentId.
Proof.
  intros Hle. unfold moveField. cbv zeta.
  destruct (byId (normalized st) !! fieldId) as [node|]; [|reflexivity].
  change (match toParentId with None => parentId node | Some t0 => t0 end)
    with (requestedParent node toParentId).
  destruct (collectDescendants fuel (byId (normalized st)) fieldId) as [desc|] eqn:Hdesc.
  - now rewrite (collectDescendants_mono_le _ _ _ _ _ Hle Hdesc).
  - destruct (requestedParent node toParentId) as [t|]; [|reflexivity].
    destruct (t =? fieldId); [reflexivity|].
    destruct (truthy (Some t)); [|reflexivity].
    destruct (byId (normalized st) !! t); [|reflexivity].
    cbn [andb]. intros [? H]. discriminate.
Qed.

Lemma moveField_returns st :
  Consistent (normalized st) ->
  exists F, forall fuel fieldId toIndex toParentId,
    (F <= fuel)%nat -> is_Some (fst (moveField fuel st fieldId toIndex toParentId)).
Proof.
  intros Hc. destruct (collectDescendants_returns _ Hc) as [F HF].
  exists F. intros fuel fieldId toIndex toParentId Hle.
  destruct (HF fuel fieldId Hle) as [desc Hd].
  destruct (byId (normalized st) !! fieldId) as [node|] eqn:Hid;
    [|rewrite moveField_unknown by assumption; simpl; eauto].
  destruct (effectiveParent (requestedParent node toParentId)) as [t|] eqn:Heff.
  - assert (Hreq : requestedParent node toParentId = Some t /\ t <> EmptyString).
    { unfold effectiveParent in Heff.
      destruct (truthy (requestedParent node toParentId)) eqn:Htr; [|discriminate].
      rewrite Heff in Htr. split; [assumption|now apply truthy_Some]. }
    destruct Hreq as [Hreq Hne].
    destruct (decide (t = fieldId)) as [Heq|Hneq];
      [rewrite (moveField_rejects _ _ _ node _ _ t); simpl; eauto|].
    destruct (byId (normalized st) !! t) as [tn|] eqn:Htn;
      [|rewrite (moveField_rejects _ _ _ node _ _ t); simpl; eauto].
    destruct (decide (t ∈ desc)) as [Hin|Hnin];
      [rewrite (moveField_rejects _ _ _ node _ _ t); simpl; eauto 8|].
    rewrite (moveField_moves _ _ _ node); [simpl; eauto|assumption..|].
    rewrite Heff. intros t' [= <-]. eauto 8.
  - rewrite (moveField_moves _ _ _ node); [simpl; eauto|assumption..|].
    rewrite Heff. discriminate.
Qed.

(** ** One edit *)

Lemma applyEdit_consistent fuel registry op st :
  Consistent (normalized st) -> renameTargetNonEmpty op = true ->
  Consistent (normalized (snd (applyEdit fuel registry op st))).
Proof.
  intros Hc Hok. destruct op as [ty options|fieldId patch|fieldId|fieldId i p]; simpl.
  - now apply addField_consistent.
  - apply updateField_consistent; [assumption|]. simpl in Hok.
    intros Hp. rewrite Hp in Hok. discriminate.
  - pose proof (removeField_consistent fuel st fieldId Hc) as H.
    destruct (removeField fuel st fieldId). exact H.
  - pose proof (moveField_consistent fuel st fieldId i p Hc) as H.
    destruct (moveField fuel st fieldId i p). exact H.
Qed.

Lemma applyEdit_mono fuel fuel' registry op st :
  (fuel <= fuel')%nat -> fst (applyEdit fuel registry op st) = true ->
  applyEdit fuel' registry op st = applyEdit fuel registry op st.
Proof.
  intros Hle. destruct op as [ty options|fieldId patch|fieldId|fieldId i p]; simpl;
    try reflexivity.
  - pose proof (removeField_mono fuel fuel' st fieldId Hle) as H.
    destruct (removeField fuel st fieldId) as [r st1]. simpl in *.
    intros Hr. apply bool_decide_eq_true in Hr. now rewrite (H Hr).
  - pose proof (moveField_mono fuel fuel' st fieldId i p Hle) as H.
    destruct (moveField fuel st fieldId i p) as [r st1]. simpl in *.
    intros Hr. apply bool_decide_eq_true in Hr. now rewrite (H Hr).
Qed.

Lemma applyEdit_returns registry op st :
  Consistent (normalized st) ->
  exists F, forall fuel, (F <= fuel)%nat -> fst (applyEdit fuel registry op st) = true.
Proof.
  intros Hc. destruct op as [ty options|fieldId patch|fieldId|fieldId i p]; simpl;
    try (exists 0%nat; reflexivity).
  - destruct (removeField_returns st Hc) as [F HF]. exists F. intros fuel Hle.
    specialize (HF fuel fieldId Hle). destruct (removeField fuel st fieldId). simpl in *.
    now apply bool_decide_eq_true.
  - destruct (moveField_returns st Hc) as [F HF]. exists F. intros fuel Hle.
    specialize (HF fuel fieldId i p Hle). destruct (moveField fuel st fieldId i p).
    simpl in *. now apply bool_decide_eq_true.
Qed.

(** ** Sequences of edits *)

Lemma applyEdits_consistent registry ops :
  forall st, Consistent (normalized st) -> forallb renameTargetNonEmpty ops = true ->
  exists F, forall fuel, (F <= fuel)%nat ->
    exists st', applyEdits fuel registry ops st = Some st' /\ Consistent (normalized st').
Proof.
  induction ops as [|op ops IH]; intros st Hc Hok.
  - exists 0%nat. intros fuel _. exists st. auto.
  - simpl in Hok. apply andb_true_iff in Hok as [Hop Hops].
    destruct (applyEdit_returns registry op st Hc) as [F1 HF1].
    pose proof (applyEdit_consistent F1 registry op st Hc Hop) as Hc1.
    destruct (IH _ Hc1 Hops) as [F2 HF2].
    exists (Nat.max F1 F2). intros fuel Hle.
    assert (H1 : applyEdit fuel registry op st = applyEdit F1 registry op st).
    { apply applyEdit_mono; [lia|]. apply HF1. lia. }
    cbn [applyEdits]. rewrite H1.
    pose proof (HF1 F1 (le_n _)) as Hr.
    destruct (applyEdit F1 registry op st) as [r st1]. simpl in Hr, Hc1, HF2. subst r.
    apply HF2. lia.
Qed.

End Sequences.

(** The patch [{ id: newId }]. *)
Definition renamePatch (newId : string) : Patch :=
  {| p_id := Some newId; p_fieldType := None; p_question := None; p_required := None;
     p_rules := None; p_inputType := None; p_unit := None; p_options := None;
     p_rows := None; p_columns := None; p_htmlContent := None;
     p_imageUri := None; p_expression := None; p_displayFormat := None;
     p_decimalPlaces := None; p_title := None |}.

Definition sectionWithTwo : list FieldDefinition :=
  [Field (bareDef "s1" "section")
     (Some [Field (bareDef "c1" "text") None; Field (bareDef "c2" "text") None])].

Definition renameThenRemove : list EditOp :=
  [UpdateField "s1" (renamePatch ""); RemoveField "c1"].



Definition editedTree : list FieldDefinition :=
  [Field (bareDef "s1" "section")
     (Some [Field (bareDef "q1" "text") None; Field (bareDef "q2" "text") None]);
   Field (bareDef "r1" "radio") None].

Definition fourEdits : list EditOp :=
  [AddField "text" {| opt_parentId := Some "s1"; opt_index := Some 0%Z; opt_patch := None |};
   UpdateField "q1" (renamePatch "name");
   MoveField "q2" 0 (Some None);
   RemoveField "s1"].


Definition nestedState : FormEngineState :=
  createFormEngine (Some [Field (bareDef "s1" "section")
                            (Some [Field (bareDef "c1" "text") None])]).




(** * Helpers of the store *)

(** X1. [insertAt] puts the item at the requested position, clamped to the ends
    of the list ([undefined] meaning the end), keeps the other items in their
    order, and makes the list one longer. *)
Theorem insertAt_position {A} (arr : list A) (item : A) (index : option Z) :
  let k := match index with
           | None => length arr
           | Some i => Z.to_nat (Z.max 0 (Z.min i (Z.of_nat (length arr))))
           end in
  insertAt arr item index = take k arr ++ item :: drop k arr /\
  insertAt arr item index !! k = Some item /\
  length (insertAt arr item index) = S (length arr).
Proof.
  cbv zeta.
  assert (H : forall k, (k <= length arr)%nat ->
            (take k arr ++ item :: drop k arr) !! k = Some item /\
            length (take k arr ++ item :: drop k arr) = S (length arr)).
  { intros k Hk. split.
    - rewrite lookup_app_r by (rewrite length_take; lia).
      rewrite length_take. replace (k - k `min` length arr)%nat with 0%nat by lia.
      reflexivity.
    - rewrite length_app, length_take. cbn [length]. rewrite length_drop. lia. }
  unfold insertAt. destruct index as [i|].
  - destruct (Z.leb_spec (Z.of_nat (length arr)) i) as [Hi|Hi].
    + replace (Z.to_nat (Z.max 0 (Z.min i (Z.of_nat (length arr))))) with (length arr)
        by lia.
      rewrite take_ge, drop_ge by lia. split; [reflexivity|].
      specialize (H (length arr) (le_n _)).
      rewrite take_ge, drop_ge in H by lia. exact H.
    + destruct (Z.leb_spec i 0) as [Hi0|Hi0].
      * replace (Z.to_nat (Z.max 0 (Z.min i (Z.of_nat (length arr))))) with 0%nat by lia.
        rewrite take_0, drop_0. split; [reflexivity|].
        specialize (H 0%nat (Nat.le_0_l _)). rewrite take_0, drop_0 in H. exact H.
      * replace (Z.to_nat (Z.max 0 (Z.min i (Z.of_nat (length arr))))) with (Z.to_nat i)
          by lia.
        split; [reflexivity|]. apply H. lia.
  - rewrite take_ge, drop_ge by lia. split; [reflexivity|].
    specialize (H (length arr) (le_n _)).
    rewrite take_ge, drop_ge in H by lia. exact H.
Qed.


Definition twoNodes : gmap string FieldNode :=
  byId (normalizeDefinition [Field (bareDef "a" "text") None; Field (bareDef "b" "text") None]).






(** The node [addField] makes for a new field. *)
Definition newNode (m : FieldTypeMeta) (fieldType id : string) (options : AddFieldOptions)
    : FieldNode :=
  {| definition := newFieldDefinition m fieldType id (opt_patch options);
     parentId := effectiveParent (opt_parentId options);
     childIds := []; index := 0 |}.

Section AddField.

Variable registry : gmap string FieldTypeMeta.
Variable st : FormEngineState.
Variable fieldType : string.
Variable options : AddFieldOptions.

Lemma addField_rejects :
  getFieldTypeMeta registry fieldType = None \/
  (exists p, opt_parentId options = Some p /\ p <> EmptyString /\
             byId (normalized st) !! p = None) ->
  addField registry st fieldType options = (None, st).
Proof.
  intros H. unfold addField.
  destruct (getFieldTypeMeta registry fieldType) as [m|]; [|reflexivity].
  destruct H as [H|(p & Hp & Hne & Hnone)]; [discriminate|].
  cbv zeta. rewrite Hp, (proj2 (truthy_Some p) Hne), Hnone. reflexivity.
Qed.

Lemma addField_adds m :
  getFieldTypeMeta registry fieldType = Some m ->
  (forall p, effectiveParent (opt_parentId options) = Some p ->
             is_Some (byId (normalized st) !! p)) ->
  addField registry st fieldType options =
  (Some (generateFieldId fieldType (objectKeys (byId (normalized st)))
           (opt_parentId options)),
   setNormalized st
     (attachIndex
        {| byId := <[generateFieldId fieldType (objectKeys (byId (normalized st)))
                       (opt_parentId options) :=
                       newNode m fieldType
                         (generateFieldId fieldType (objectKeys (byId (normalized st)))
                            (opt_parentId options)) options]>
                     (byId (normalized st));
           rootIds := rootIds (normalized st) |}
        (generateFieldId fieldType (objectKeys (byId (normalized st)))
           (opt_parentId options))
        (newNode m fieldType
           (generateFieldId fieldType (objectKeys (byId (normalized st)))
              (opt_parentId options)) options)
        (effectiveParent (opt_parentId options)) (opt_index options))).
Proof.
  intros Hm Hparent. unfold addField. rewrite Hm. cbv zeta.
  pose proof (generateFieldId_fresh fieldType (byId (normalized st))
                (opt_parentId options)) as Hfresh.
  unfold newNode, attachIndex, effectiveParent in *.
  destruct (opt_parentId options) as [p|]; cbn [truthy] in *.
  - destruct (negb (p =? "")) eqn:Ht.
    + destruct (Hparent p eq_refl) as [pn Hp]. rewrite Hp. cbn [byId rootIds].
      assert (Hne : p <> generateFieldId fieldType (objectKeys (byId (normalized st)))
                           (Some p)) by congruence.
      rewrite (lookup_insert_ne (byId (normalized st)) _ p) by congruence.
      rewrite Hp. cbn [withParentId definition childIds index].
      rewrite (insert_insert_ne _ p _) by assumption.
      rewrite insert_insert_eq. reflexivity.
    + cbn [byId rootIds withParentId definition childIds index].
      rewrite insert_insert_eq. reflexivity.
  - cbn [byId rootIds withParentId definition childIds index].
    rewrite insert_insert_eq. reflexivity.
Qed.

End AddField.

Lemma newFieldDefinition_fieldType m ty id patch :
  def_fieldType (newFieldDefinition m ty id patch) = ty.
Proof.
  unfold newFieldDefinition.
  repeat match goal with
         | |- context [if ?b then _ else _] => destruct b
         end; reflexivity.
Qed.


Definition addUnderSection : AddFieldOptions :=
  {| opt_parentId := Some "s1"; opt_index := Some 0%Z; opt_patch := None |}.


(** The number of starter items [addField] makes for a field type. *)
Definition starterCount (m : FieldTypeMeta) : nat :=
  match defaultOptionCount m with
  | Some c => c
  | None => if hasOptions m || hasMatrix m then 3%nat else 0%nat
  end.

(** The definition before the starter items are made:
    [{ ...defaults, ...patch, id, fieldType }]. *)
Definition suppliedDefinition (m : FieldTypeMeta) (fieldType id : string)
    (patch : option Patch) : FieldDef :=
  withIdAndType
    (applyPatch (applyPatch (bareDef id fieldType) (defaultProps m))
                (match patch with Some p => p | None => emptyPatch end))
    id fieldType.

Definition starterOption (oid : string) : FieldOption :=
  {| opt_id := oid; opt_value := EmptyString; opt_text := None |}.

Definition noOptions : AddFieldOptions :=
  {| opt_parentId := None; opt_index := None; opt_patch := None |}.

Section StarterItems.

Variable gen : list string -> option string -> string.
Hypothesis gen_fresh : forall ids f, gen ids f ∉ ids.
Hypothesis gen_nonempty : forall ids f, gen ids f <> EmptyString.

Lemma starterIds_length count made fieldId :
  length (starterIds gen count made fieldId) = (length made + count)%nat.
Proof.
  revert made. induction count as [|count IH]; intros made; simpl; [lia|].
  rewrite IH, length_app. simpl. lia.
Qed.

Lemma starterIds_NoDup count made fieldId :
  NoDup made -> NoDup (starterIds gen count made fieldId).
Proof.
  revert made. induction count as [|count IH]; intros made Hnd; simpl; [assumption|].
  apply IH. apply NoDup_app. split; [assumption|]. split; [|apply NoDup_singleton].
  intros x Hx Hx'. apply list_elem_of_singleton in Hx'. subst x.
  now apply (gen_fresh made (Some fieldId)).
Qed.

Lemma starterIds_nonempty count made fieldId :
  Forall (fun x => x <> EmptyString) made ->
  Forall (fun x => x <> EmptyString) (starterIds gen count made fieldId).
Proof.
  revert made. induction count as [|count IH]; intros made Hm; simpl; [assumption|].
  apply IH. apply Forall_app. split; [assumption|]. constructor; [|constructor].
  apply gen_nonempty.
Qed.

Lemma starterIds_spec count fieldId :
  length (starterIds gen count [] fieldId) = count /\
  NoDup (starterIds gen count [] fieldId) /\
  Forall (fun x => x <> EmptyString) (starterIds gen count [] fieldId).
Proof.
  split; [apply starterIds_length|].
  split; [apply starterIds_NoDup, NoDup_nil_2|apply starterIds_nonempty, Forall_nil_2].
Qed.

End StarterItems.

Section ScopedIds.

Lemma scopedPrefix_nonempty f suffix :
  suffix <> EmptyString -> scopedPrefix f suffix <> EmptyString.
Proof.
  intros Hs. unfold scopedPrefix. destruct f as [x|]; [|assumption].
  destruct (truthy (Some x)) eqn:Ht; [|assumption].
  apply truthy_Some in Ht. now apply append_nonempty.
Qed.

Lemma generateId_notin prefix ids : generateId prefix ids ∉ ids.
Proof. rewrite list_elem_of_In. apply generateId_fresh. Qed.

Lemma generateOptionId_fresh ids f : generateOptionId ids f ∉ ids.
Proof. apply generateId_notin. Qed.

Lemma generateRowId_fresh ids f : generateRowId ids f ∉ ids.
Proof. apply generateId_notin. Qed.

Lemma generateColumnId_fresh ids f : generateColumnId ids f ∉ ids.
Proof. apply generateId_notin. Qed.

Lemma generateOptionId_nonempty ids f : generateOptionId ids f <> EmptyString.
Proof. apply generateId_nonempty, scopedPrefix_nonempty. discriminate. Qed.

Lemma generateRowId_nonempty ids f : generateRowId ids f <> EmptyString.
Proof. apply generateId_nonempty, scopedPrefix_nonempty. discriminate. Qed.

Lemma generateColumnId_nonempty ids f : generateColumnId ids f <> EmptyString.
Proof. apply generateId_nonempty, scopedPrefix_nonempty. discriminate. Qed.

End ScopedIds.

(** X6. The starter items of a new field: for a field type with options (rows
    and columns for a matrix type), a positive starter count and no items
    supplied by the defaults or the patch, [addField] makes exactly that
    many, with empty values and with IDs that are non-empty and pairwise
    different. So [addField("radio")] on an empty form gives the field
    [radio] three options. *)
Theorem starter_items_contract :
  (forall count fieldId,
     length (starterIds generateOptionId count [] fieldId) = count /\
     NoDup (starterIds generateOptionId count [] fieldId) /\
     Forall (fun x => x <> EmptyString) (starterIds generateOptionId count [] fieldId)) /\
  (forall count fieldId,
     length (starterIds generateRowId count [] fieldId) = count /\
     NoDup (starterIds generateRowId count [] fieldId) /\
     Forall (fun x => x <> EmptyString) (starterIds generateRowId count [] fieldId)) /\
  (forall count fieldId,
     length (starterIds generateColumnId count [] fieldId) = count /\
     NoDup (starterIds generateColumnId count [] fieldId) /\
     Forall (fun x => x <> EmptyString) (starterIds generateColumnId count [] fieldId)) /\
  (forall m fieldType id patch,
     hasOptions m = true -> starterCount m <> 0%nat ->
     noItems (def_options (suppliedDefinition m fieldType id patch)) = true ->
     def_options (newFieldDefinition m fieldType id patch) =
     Some (map starterOption (starterIds generateOptionId (starterCount m) [] id))) /\
  (forall m fieldType id patch,
     hasMatrix m = true -> starterCount m <> 0%nat ->
     noItems (def_rows (suppliedDefinition m fieldType id patch)) = true ->
     noItems (def_columns (suppliedDefinition m fieldType id patch)) = true ->
     def_rows (newFieldDefinition m fieldType id patch) =
     Some (map (fun rid => {| row_id := rid; row_value := EmptyString |})
               (starterIds generateRowId (starterCount m) [] id)) /\
     def_columns (newFieldDefinition m fieldType id patch) =
     Some (map (fun cid => {| col_id := cid; col_value := EmptyString |})
               (starterIds generateColumnId (starterCount m) [] id))) /\
  (fst (addField BUILT_IN_FIELD_TYPES (createFormEngine None) "radio" noOptions)
   = Some "radio" /\
   (def_options ∘ definition) <$>
     byId (normalized (snd (addField BUILT_IN_FIELD_TYPES (createFormEngine None)
                              "radio" noOptions))) !! "radio"
   = Some (Some [starterOption "radio-option"; starterOption "radio-option-1";
                 starterOption "radio-option-2"])).
Proof.
  split; [intros; apply starterIds_spec;
          [apply generateOptionId_fresh|apply generateOptionId_nonempty]|].
  split; [intros; apply starterIds_spec;
          [apply generateRowId_fresh|apply generateRowId_nonempty]|].
  split; [intros; apply starterIds_spec;
          [apply generateColumnId_fresh|apply generateColumnId_nonempty]|].
  split; [|split; [|split; vm_compute; reflexivity]].
  - intros m fieldType id patch Hopt Hcount Hno.
    unfold newFieldDefinition. cbv zeta.
    fold (suppliedDefinition m fieldType id patch). fold (starterCount m).
    rewrite Hopt, Hno. apply Nat.eqb_neq in Hcount. rewrite Hcount. cbn [negb andb].
    destruct (hasMatrix m); cbn [andb]; [|reflexivity].
    repeat match goal with
           | |- context [if ?b then _ else _] => destruct b
           end; reflexivity.
  - intros m fieldType id patch Hmat Hcount Hrows Hcols.
    unfold newFieldDefinition. cbv zeta.
    fold (suppliedDefinition m fieldType id patch). fold (starterCount m).
    rewrite Hmat. apply Nat.eqb_neq in Hcount. rewrite Hcount. cbn [negb andb].
    destruct (hasOptions m && true && noItems _).
    + change (def_rows (withOptions ?d ?o)) with (def_rows d).
      rewrite Hrows.
      change (def_columns (withRows (withOptions ?d ?o) ?r)) with (def_columns d).
      rewrite Hcols. split; reflexivity.
    + rewrite Hrows.
      change (def_columns (withRows ?d ?r)) with (def_columns d).
      rewrite Hcols. split; reflexivity.
Qed.

Section UpdateAndRemove.

Lemma updateField_unknown st fieldId patch :
  byId (normalized st) !! fieldId = None -> updateField st fieldId patch = (false, st).
Proof. intros H. unfold updateField. cbv zeta. now rewrite H. Qed.

Lemma updateField_patches st fieldId patch node :
  byId (normalized st) !! fieldId = Some node ->
  p_id patch = None \/ p_id patch = Some fieldId ->
  updateField st fieldId patch =
  (true, setNormalized st
           (withById (normalized st)
              (<[fieldId := withDefinition node (applyPatch (definition node) patch)]>
                 (byId (normalized st))))).
Proof.
  intros Hid Hp. unfold updateField. cbv zeta. rewrite Hid.
  destruct Hp as [-> | ->].
  - unfold patchField. now rewrite Hid.
  - rewrite String.eqb_refl. cbn [negb]. unfold patchField. now rewrite Hid.
Qed.

Lemma updateField_taken st fieldId patch node newId :
  byId (normalized st) !! fieldId = Some node ->
  p_id patch = Some newId -> newId <> fieldId ->
  is_Some (byId (normalized st) !! newId) ->
  updateField st fieldId patch = (false, st).
Proof.
  intros Hid Hp Hne [x Hx]. unfold updateField. cbv zeta. rewrite Hid, Hp.
  rewrite (proj2 (String.eqb_neq newId fieldId) Hne). cbn [negb]. now rewrite Hx.
Qed.

Lemma updateField_renames st fieldId patch node newId :
  Consistent (normalized st) ->
  byId (normalized st) !! fieldId = Some node ->
  p_id patch = Some newId -> newId <> fieldId ->
  byId (normalized st) !! newId = None ->
  updateField st fieldId patch =
  (true, setNormalized st
           {| byId := renameIndex (normalized st) fieldId newId node
                        (applyPatch (definition node) patch);
              rootIds := renameIn fieldId newId (rootIds (normalized st)) |}).
Proof.
  intros Hc Hid Hp Hne Hnew. unfold updateField. cbv zeta. rewrite Hid, Hp.
  rewrite (proj2 (String.eqb_neq newId fieldId) Hne). cbn [negb]. rewrite Hnew.
  unfold renameIndex.
  pose proof (cons_truthy _ Hc _ _ Hid) as Ht.
  destruct (parentId node) as [p|] eqn:Hpar.
  - rewrite Ht.
    destruct (cons_parent_node _ Hc _ _ _ Hid Hpar) as (pn & Hpn & _).
    rewrite Hpn.
    assert (Hp0 : (<[newId := withDefinition node (applyPatch (definition node) patch)]>
                     (delete fieldId (byId (normalized st)))) !! p = Some pn).
    { rewrite lookup_insert_ne by congruence.
      rewrite lookup_delete_ne; [assumption|].
      intros ->. exact (parent_not_self _ _ _ Hc Hid Hpar). }
    rewrite Hp0.
    rewrite (renameIn_notin fieldId newId (rootIds (normalized st))); [reflexivity|].
    intros Hin. pose proof (listed_root _ _ _ Hc Hid Hin). congruence.
  - rewrite Ht. reflexivity.
Qed.

Lemma removeField_unknown fuel st fieldId :
  byId (normalized st) !! fieldId = None -> removeField fuel st fieldId = (Some false, st).
Proof. intros H. unfold removeField. cbv zeta. now rewrite H. Qed.

Lemma removeField_removes fuel st fieldId node desc :
  Consistent (normalized st) ->
  byId (normalized st) !! fieldId = Some node ->
  collectDescendants fuel (byId (normalized st)) fieldId = Some desc ->
  removeField fuel st fieldId =
  (Some true,
   setNormalized st
     {| byId := filter (fun kv => negb (memberOf kv.1 (fieldId :: desc)) = true)
                  (byId (detachIndex (normalized st) fieldId node));
        rootIds := rootIds (detachIndex (normalized st) fieldId node) |}).
Proof.
  intros Hc Hid Hdesc. unfold removeField. cbv zeta. rewrite Hid, Hdesc.
  pose proof (collectDescendants_spec _ _ _ _ Hdesc) as Hspec.
  unfold detachIndex.
  pose proof (cons_truthy _ Hc _ _ Hid) as Ht.
  destruct (parentId node) as [p|] eqn:Hpar.
  - rewrite Ht.
    destruct (cons_parent_node _ Hc _ _ _ Hid Hpar) as (pn & Hpn & _).
    assert (Hrp : negb (memberOf p (fieldId :: desc)) = true).
    { apply negb_true_iff. exact (subtree_not_parent _ _ _ Hc Hid desc p Hspec Hpar). }
    pose proof (lookup_filter_key (fun k => negb (memberOf k (fieldId :: desc)))
                  (byId (normalized st)) p) as H1.
    cbv beta in H1. rewrite H1, Hrp, Hpn. cbn [byId rootIds].
    pose proof (filter_insert_key (fun k => negb (memberOf k (fieldId :: desc)))
                  (byId (normalized st)) p
                  (withChildIds pn (without fieldId (childIds pn))) Hrp) as H2.
    cbv beta in H2. rewrite H2.
    pose proof (filter_reindex (fun k => negb (memberOf k (fieldId :: desc)))
                  (<[p := withChildIds pn (without fieldId (childIds pn))]>
                     (byId (normalized st)))
                  (without fieldId (childIds pn))
                  (detach_NoDup _ _ Hc p pn Hpn)) as H3.
    cbv beta in H3. rewrite H3. reflexivity.
  - cbn [byId rootIds].
    pose proof (filter_reindex (fun k => negb (memberOf k (fieldId :: desc)))
                  (byId (normalized st)) (without fieldId (rootIds (normalized st)))
                  (detach_roots_NoDup _ _ Hc)) as H3.
    cbv beta in H3. rewrite H3. reflexivity.
Qed.

End UpdateAndRemove.





Section Items.

Lemma filter_length_test {A} (t : A -> bool) (P : A -> Prop) `{forall x, Decision (P x)}
    (l : list A) :
  (forall x, t x = true <-> ~ P x) ->
  negb (Nat.eqb (length (filter P l)) (length l)) = existsb t l.
Proof.
  intros Ht. induction l as [|x l IH]; [reflexivity|].
  rewrite filter_cons. cbn [existsb length].
  pose proof (length_filter P l) as Hle.
  destruct (decide (P x)) as [Hp|Hp].
  - cbn [length]. assert (t x = false) as ->.
    { destruct (t x) eqn:E; [|reflexivity]. apply Ht in E. contradiction. }
    cbn [orb]. rewrite <- IH. reflexivity.
  - rewrite (proj2 (Ht x) Hp). cbn [orb].
    destruct (Nat.eqb_spec (length (filter P l)) (S (length l))); [lia|reflexivity].
Qed.

Lemma addOption_unknown st fieldId value :
  byId (normalized st) !! fieldId = None -> addOption st fieldId value = (None, st).
Proof. intros H. unfold addOption. cbv zeta. now rewrite H. Qed.

Lemma addOption_known st fieldId value node :
  byId (normalized st) !! fieldId = Some node ->
  addOption st fieldId value =
  (Some (generateOptionId (map opt_id (orNil (def_options (definition node)))) (Some fieldId)),
   setNormalized st
     (withById (normalized st)
        (<[fieldId :=
             withDefinition node
               (withOptions (definition node)
                  (Some (orNil (def_options (definition node)) ++
                         [{| opt_id := generateOptionId (map opt_id (orNil (def_options (definition node)))) (Some fieldId);
                            opt_value := value; opt_text := None |}])))]>
           (byId (normalized st))))).
Proof. intros H. unfold addOption, patchField. cbv zeta. now rewrite H. Qed.

Lemma removeOption_spec st fieldId itemId :
  removeOption st fieldId itemId =
  match byId (normalized st) !! fieldId with
  | Some node =>
      match def_options (definition node) with
      | Some items =>
          if existsb (fun o => opt_id o =? itemId) items
          then (true,
                setNormalized st
                  (withById (normalized st)
                     (<[fieldId :=
                          withDefinition node
                            (withOptions (definition node)
                               (Some (filter (fun o => opt_id o <> itemId) items)))]>
                        (byId (normalized st)))))
          else (false, st)
      | None => (false, st)
      end
  | None => (false, st)
  end.
Proof.
  unfold removeOption, patchField.
  destruct (byId (normalized st) !! fieldId) as [node|]; [|reflexivity].
  destruct (def_options (definition node)) as [items|]; [|reflexivity].
  rewrite (filter_length_test (fun o => opt_id o =? itemId) (fun o => opt_id o <> itemId)).
  - destruct (existsb _ items); reflexivity.
  - intros o. destruct (String.eqb_spec (opt_id o) itemId) as [E|E]; split; intros H';
      try reflexivity; try discriminate; [intros H''; now apply H''|exfalso; now apply H'].
Qed.

Lemma addRow_unknown st fieldId value :
  byId (normalized st) !! fieldId = None -> addRow st fieldId value = (None, st).
Proof. intros H. unfold addRow. cbv zeta. now rewrite H. Qed.

Lemma addRow_known st fieldId value node :
  byId (normalized st) !! fieldId = Some node ->
  addRow st fieldId value =
  (Some (generateRowId (map row_id (orNil (def_rows (definition node)))) (Some fieldId)),
   setNormalized st
     (withById (normalized st)
        (<[fieldId :=
             withDefinition node
               (withRows (definition node)
                  (Some (orNil (def_rows (definition node)) ++
                         [{| row_id := generateRowId (map row_id (orNil (def_rows (definition node)))) (Some fieldId);
                            row_value := value |}])))]>
           (byId (normalized st))))).
Proof. intros H. unfold addRow, patchField. cbv zeta. now rewrite H. Qed.

Lemma removeRow_spec st fieldId itemId :
  removeRow st fieldId itemId =
  match byId (normalized st) !! fieldId with
  | Some node =>
      match def_rows (definition node) with
      | Some items =>
          if existsb (fun o => row_id o =? itemId) items
          then (true,
                setNormalized st
                  (withById (normalized st)
                     (<[fieldId :=
                          withDefinition node
                            (withRows (definition node)
                               (Some (filter (fun o => row_id o <> itemId) items)))]>
                        (byId (normalized st)))))
          else (false, st)
      | None => (false, st)
      end
  | None => (false, st)
  end.
Proof.
  unfold removeRow, patchField.
  destruct (byId (normalized st) !! fieldId) as [node|]; [|reflexivity].
  destruct (def_rows (definition node)) as [items|]; [|reflexivity].
  rewrite (filter_length_test (fun o => row_id o =? itemId) (fun o => row_id o <> itemId)).
  - destruct (existsb _ items); reflexivity.
  - intros o. destruct (String.eqb_spec (row_id o) itemId) as [E|E]; split; intros H';
      try reflexivity; try discriminate; [intros H''; now apply H''|exfalso; now apply H'].
Qed.

Lemma addColumn_unknown st fieldId value :
  byId (normalized st) !! fieldId = None -> addColumn st fieldId value = (None, st).
Proof. intros H. unfold addColumn. cbv zeta. now rewrite H. Qed.

Lemma addColumn_known st fieldId value node :
  byId (normalized st) !! fieldId = Some node ->
  addColumn st fieldId value =
  (Some (generateColumnId (map col_id (orNil (def_columns (definition node)))) (Some fieldId)),
   setNormalized st
     (withById (normalized st)
        (<[fieldId :=
             withDefinition node
               (withColumns (definition node)
                  (Some (orNil (def_columns (definition node)) ++
                         [{| col_id := generateColumnId (map col_id (orNil (def_columns (definition node)))) (Some fieldId);
                            col_value := value |}])))]>
           (byId (normalized st))))).
Proof. intros H. unfold addColumn, patchField. cbv zeta. now rewrite H. Qed.

Lemma removeColumn_spec st fieldId itemId :
  removeColumn st fieldId itemId =
  match byId (normalized st) !! fieldId with
  | Some node =>
      match def_columns (definition node) with
      | Some items =>
          if existsb (fun o => col_id o =? itemId) items
          then (true,
                setNormalized st
                  (withById (normalized st)
                     (<[fieldId :=
                          withDefinition node
                            (withColumns (definition node)
                               (Some (filter (fun o => col_id o <> itemId) items)))]>
                        (byId (normalized st)))))
          else (false, st)
      | None => (false, st)
      end
  | None => (false, st)
  end.
Proof.
  unfold removeColumn, patchField.
  destruct (byId (normalized st) !! fieldId) as [node|]; [|reflexivity].
  destruct (def_columns (definition node)) as [items|]; [|reflexivity].
  rewrite (filter_length_test (fun o => col_id o =? itemId) (fun o => col_id o <> itemId)).
  - destruct (existsb _ items); reflexivity.
  - intros o. destruct (String.eqb_spec (col_id o) itemId) as [E|E]; split; intros H';
      try reflexivity; try discriminate; [intros H''; now apply H''|exfalso; now apply H'].
Qed.

End Items.



(** * Answers, selectors and form validation *)

Section Answers.

Lemma state_eta (st : FormEngineState) :
  {| normalized := normalized st; responses := responses st |} = st.
Proof. now destruct st. Qed.

Lemma validateField_cases id n r :
  validateField id n r = [] \/
  (validateField id n r = [requiredError id] /\
   exists node, byId n !! id = Some node /\
     memberOf (def_fieldType (definition node)) NON_INPUT_TYPES = false /\
     resolveEffect visible (definition node) n r = true /\
     resolveEffect required (definition node) n r = true /\
     isResponseEmpty (r !! id) = true).
Proof.
  unfold validateField. destruct (byId n !! id) as [node|]; [|now left].
  cbv zeta.
  destruct (memberOf _ NON_INPUT_TYPES) eqn:E1; [now left|].
  destruct (resolveEffect visible _ n r) eqn:E2; [|now left]. cbn [negb].
  destruct (resolveEffect required _ n r) eqn:E3; [|now left].
  destruct (isResponseEmpty (r !! id)) eqn:E4; [|now left].
  right. split; [reflexivity|]. exists node. auto.
Qed.

Lemma validateField_answered id n r :
  isResponseEmpty (r !! id) = false -> validateField id n r = [].
Proof.
  intros H. destruct (validateField_cases id n r) as [E|(_ & node & _ & _ & _ & _ & E)];
    [assumption|congruence].
Qed.

Lemma validateForm_elem n r e :
  e ∈ validateForm n r <-> exists id, e ∈ validateField id n r.
Proof.
  unfold validateForm. rewrite list_elem_of_In, in_flat_map. split.
  - intros (id & _ & H). exists id. now apply list_elem_of_In.
  - intros (id & H). exists id. split; [|now apply list_elem_of_In].
    apply list_elem_of_In, objectKeys_lookup.
    unfold validateField in H. destruct (byId n !! id); [eauto|].
    apply elem_of_nil in H. contradiction.
Qed.

Lemma NoDup_objectKeys {A} (m : gmap string A) : NoDup (objectKeys m).
Proof. apply NoDup_fst_map_to_list. Qed.

Lemma validate_keys_NoDup n r keys :
  NoDup keys ->
  NoDup (map err_fieldId (flat_map (fun id => validateField id n r) keys)) /\
  (forall k, k ∈ map err_fieldId (flat_map (fun id => validateField id n r) keys) ->
             k ∈ keys).
Proof.
  induction 1 as [|k keys Hk Hnd [IH1 IH2]].
  - split; [apply NoDup_nil_2|]. intros k H. exact H.
  - cbn [flat_map]. rewrite map_app.
    destruct (validateField_cases k n r) as [->|[-> _]].
    + split; [exact IH1|]. intros k' H. right. now apply IH2.
    + cbn [map app requiredError err_fieldId]. split.
      * apply NoDup_cons. split; [|exact IH1]. intros H. apply Hk. now apply IH2.
      * intros k' H. apply elem_of_cons in H as [->|H]; [left|right; now apply IH2].
Qed.

Lemma length_validate n r keys :
  (length (flat_map (fun id => validateField id n r) keys) <= length keys)%nat.
Proof.
  induction keys as [|k keys IH]; [reflexivity|].
  cbn [flat_map]. rewrite length_app. cbn [length].
  destruct (validateField_cases k n r) as [->|[-> _]]; cbn [length]; lia.
Qed.

End Answers.




(** * Scoped identifiers (ids.ts) *)

Section ScopedForm.

Lemma generateId_form prefix ids :
  exists suffix, generateId prefix ids = prefix +:+ suffix /\
                 (suffix = EmptyString <-> prefix ∉ ids).
Proof.
  destruct (decide (prefix ∈ ids)) as [Hin|Hnot].
  - exists ("-" +:+ numberToString (maxSuffix prefix ids + 1)). split.
    + apply generateId_used. now apply list_elem_of_In.
    + split; [discriminate|]. intros H. contradiction.
  - exists EmptyString. split.
    + rewrite generateId_unused; [|now rewrite <- list_elem_of_In].
      clear. induction prefix as [|c p IH]; [reflexivity|].
      rewrite append_cons. now rewrite <- IH.
    + split; [auto|reflexivity].
Qed.

End ScopedForm.


(** * Conditions on a field without an answer, and with a property accessor *)

(** A condition with no property accessor. *)
Definition plainCondition (target : string) (op : ConditionOperator) (e : string)
    : Condition :=
  {| targetId := target; operator := op; expected := e; propertyAccessor := None |}.

Definition lengthCondition : Condition :=
  {| targetId := "q"; operator := Op.empty; expected := "";
     propertyAccessor := Some "length" |}.

Section EdgeConditions.

Lemma parseFloat_null : isNaN (parseFloat "null") = true.
Proof. vm_compute. reflexivity. Qed.

Lemma containsMatch_empty_text e : containsMatch "" e = false.
Proof.
  destruct (containsMatch "" e) eqn:E; [|reflexivity]. exfalso.
  apply containsMatch_words in E as [Hne (pre & post & H)].
  assert (Hw : wordsOf "" = []) by reflexivity. rewrite Hw in H.
  symmetry in H. apply app_eq_nil in H as [_ H]. apply app_eq_nil in H as [H _].
  contradiction.
Qed.

End EdgeConditions.

(** X15. A condition (without property accessor) on a field that has no answer:
    [empty] holds and [notEmpty] does not; [contains], [includes] and the
    four magnitude comparisons never hold; [equals] holds exactly when the
    expected text is empty and [notEquals] exactly when it is not, except on
    a numeric target (a text field with numeric input, an expression with a
    numeric format), where neither holds. *)
Theorem unanswered_condition (target : string) (e : string) (def : FieldDef) :
  let numericTarget := isNumericExpr def || isNumericText def in
  evaluateCondition (plainCondition target Op.empty e) def None = true /\
  evaluateCondition (plainCondition target Op.notEmpty e) def None = false /\
  evaluateCondition (plainCondition target Op.contains e) def None = false /\
  evaluateCondition (plainCondition target Op.includes e) def None = false /\
  (forall op, NUMERIC_OPERATORS op = true ->
     evaluateCondition (plainCondition target op e) def None = false) /\
  evaluateCondition (plainCondition target Op.equals e) def None =
    (if numericTarget then false else e =? "") /\
  evaluateCondition (plainCondition target Op.notEquals e) def None =
    (if numericTarget then false else negb (e =? "")).
Proof.
  cbv zeta. unfold evaluateCondition, evaluateConditionTraced, plainCondition.
  cbn [propertyAccessor operator expected getActualValue resolveOptionValue
       NUMERIC_OPERATORS isNumberValue isEmpty orb negb snd stringOf orEmptyString
       isArray].
  rewrite parseFloat_null. cbn [orb].
  split; [reflexivity|]. split; [reflexivity|].
  split; [|split; [|split; [|split]]].
  - destruct (isNumericExpr def || isNumericText def); cbn [snd];
      [reflexivity|apply containsMatch_empty_text].
  - destruct (isNumericExpr def || isNumericText def); reflexivity.
  - intros op Hop. destruct op; try discriminate Hop;
      cbn [NUMERIC_OPERATORS orb snd]; reflexivity.
  - destruct (isNumericExpr def || isNumericText def); cbn [snd]; [reflexivity|].
    apply String.eqb_sym.
  - destruct (isNumericExpr def || isNumericText def); cbn [snd]; [reflexivity|].
    now rewrite String.eqb_sym.
Qed.

(** X16. A condition with a (non-empty) property accessor sees a number, whatever
    the answer: [empty] never holds and [notEmpty] always does, also for a
    field without an answer or with an empty list; [contains] and [includes]
    never hold; the other operators compare the number with the expected
    text read as a number, and fail when that is no number. The number is 0
    for a field without an answer and for an accessor other than [length]
    and [count] (in any case). *)
Theorem propertyAccessor_contract (c : Condition) (def : FieldDef)
    (response : option FieldResponse) (acc : string) :
  propertyAccessor c = Some acc -> acc <> EmptyString ->
  let count := applyPropertyAccessor (getActualValue def response) acc in
  (operator c = Op.empty -> evaluateCondition c def response = false) /\
  (operator c = Op.notEmpty -> evaluateCondition c def response = true) /\
  (operator c = Op.contains \/ operator c = Op.includes ->
   evaluateCondition c def response = false) /\
  (operator c <> Op.empty -> operator c <> Op.notEmpty ->
   evaluateCondition c def response =
   if isNaN count || isNaN (parseFloat (expected c)) then false
   else evaluateNumeric count (parseFloat (expected c)) (operator c)) /\
  (response = None -> count = numberOfNat 0) /\
  (toLowerCase acc <> "length" -> toLowerCase acc <> "count" -> count = numberOfNat 0).
Proof.
  intros Hacc Hne. cbv zeta.
  assert (Ht : truthy (Some acc) = true) by now apply truthy_Some.
  assert (Hgen : operator c <> Op.empty -> operator c <> Op.notEmpty ->
    evaluateCondition c def response =
    if isNaN (applyPropertyAccessor (getActualValue def response) acc)
       || isNaN (parseFloat (expected c)) then false
    else evaluateNumeric (applyPropertyAccessor (getActualValue def response) acc)
           (parseFloat (expected c)) (operator c)).
  { intros H1 H2. unfold evaluateCondition, evaluateConditionTraced.
    rewrite Hacc, Ht. cbv zeta. cbn [resolveOptionValue isNumberValue].
    rewrite orb_true_r. cbn [orb].
    destruct (operator c); try contradiction; reflexivity. }
  split; [|split; [|split; [|split; [|split]]]].
  - intros Hop. unfold evaluateCondition, evaluateConditionTraced.
    rewrite Hacc, Ht, Hop. reflexivity.
  - intros Hop. unfold evaluateCondition, evaluateConditionTraced.
    rewrite Hacc, Ht, Hop. reflexivity.
  - intros Hop. rewrite Hgen by (destruct Hop as [H|H]; rewrite H; discriminate).
    destruct (_ || _); [reflexivity|].
    destruct Hop as [H|H]; rewrite H; reflexivity.
  - exact Hgen.
  - intros ->. unfold applyPropertyAccessor. cbn [getActualValue]. cbv zeta.
    now destruct (_ && _).
  - intros H1 H2. unfold applyPropertyAccessor. cbv zeta.
    apply String.eqb_neq in H1, H2. now rewrite H1, H2.
Qed.

Lemma propertyAccessor_contract_witness :
  evaluateCondition lengthCondition (bareDef "q" "check") None = false.
Proof.
  apply (proj1 (propertyAccessor_contract lengthCondition (bareDef "q" "check") None
                  "length" eq_refl ltac:(discriminate))).
  reflexivity.
Defined.

(** * Rebuilding the tree from a consistent index *)

(** Only sections have children. *)
Definition sectionParents (n : NormalizedDefinition) : Prop :=
  forall x node, byId n !! x = Some node -> childIds node <> [] ->
                 def_fieldType (definition node) = "section".

(** The body of the [map] callback of [build]. *)
Definition buildOne (fuel : nat) (n : NormalizedDefinition) (id : string)
    : option FieldDefinition :=
  match byId n !! id with
  | None => Some (Field (bareDef id "text") None)
  | Some node =>
      match childIds node with
      | [] => Some (Field (definition node) None)
      | _ :: _ =>
          match build fuel n (childIds node) with
          | Some fs => Some (Field (definition node) (Some fs))
          | None => None
          end
      end
  end.

(** [x] is [a] or one of its descendants. *)
Definition inSubtree (n : NormalizedDefinition) (a x : string) : Prop :=
  x = a \/ Descendant (byId n) a x.

(** The IDs of [ids] are different keys with the same parent. *)
Definition siblingsUnder (n : NormalizedDefinition) (p : option string)
    (ids : list string) : Prop :=
  NoDup ids /\
  forall x, x ∈ ids -> exists node, byId n !! x = Some node /\ parentId node = p.

(** What [build] leaves for a key: the definition of its node, with the
    rebuilt children when there are any. *)
Definition Built (n : NormalizedDefinition) (parent : option string) (i : nat)
    (d : FieldDefinition) : Prop :=
  exists node, byId n !! fieldId d = Some node /\ parentId node = parent /\
    index node = i /\ fieldAttrs d = definition node /\
    match childIds node with
    | [] => fieldChildren d = None
    | _ :: _ => exists fuel fs, fieldChildren d = Some fs /\
                                build fuel n (childIds node) = Some fs
    end.

Section Hydration.

Variable n : NormalizedDefinition.
Hypothesis Hc : Consistent n.

Lemma build_Forall2 fuel ids t :
  build (S fuel) n ids = Some t <->
  Forall2 (fun id d => buildOne fuel n id = Some d) ids t.
Proof. rewrite build_S. unfold buildOne. apply mapM_Some. Qed.

Lemma sibling_not_descendant c1 c2 n1 n2 :
  byId n !! c1 = Some n1 -> byId n !! c2 = Some n2 -> parentId n1 = parentId n2 ->
  ~ Descendant (byId n) c2 c1.
Proof.
  intros H1 H2 Hp Hd.
  apply (Descendant_parent n Hc) in Hd as (node & q & Hn & Hq & Hcase).
  rewrite H1 in Hn. injection Hn as <-. rewrite Hq in Hp. symmetry in Hp.
  destruct (cons_parent_node n Hc c2 n2 q H2 Hp) as (qn & Hqn & Hin).
  assert (Hdown : Descendant (byId n) q c2) by (eapply Descendant_child; eauto).
  destruct Hcase as [->|Hcase].
  - exact (Descendant_irrefl n Hc c2 Hdown).
  - apply (Descendant_irrefl n Hc c2). eapply Descendant_trans; eauto.
Qed.

Lemma subtrees_disjoint c1 c2 n1 n2 x :
  c1 <> c2 -> byId n !! c1 = Some n1 -> byId n !! c2 = Some n2 ->
  parentId n1 = parentId n2 -> inSubtree n c1 x -> inSubtree n c2 x -> False.
Proof.
  intros Hne H1 H2 Hp. destruct (cons_depth n Hc) as [d Hd].
  remember (S (d x)) as k eqn:Hk. assert (Hlt : (d x < k)%nat) by lia. clear Hk.
  revert x Hlt. induction k as [|k IH]; intros x Hlt Hx1 Hx2; [lia|].
  destruct Hx1 as [->|Hx1], Hx2 as [E|Hx2].
  - congruence.
  - exact (sibling_not_descendant c1 c2 n1 n2 H1 H2 Hp Hx2).
  - subst x. symmetry in Hp. exact (sibling_not_descendant c2 c1 n2 n1 H2 H1 Hp Hx1).
  - apply (Descendant_parent n Hc) in Hx1 as (node & q & Hn & Hq & Hcase1).
    apply (Descendant_parent n Hc) in Hx2 as (node' & q' & Hn' & Hq' & Hcase2).
    rewrite Hn in Hn'. injection Hn' as <-. rewrite Hq in Hq'. injection Hq' as <-.
    specialize (Hd x node q Hn Hq).
    apply (IH q); [lia| |]; unfold inSubtree; tauto.
Qed.

Lemma children_siblings x node :
  byId n !! x = Some node -> siblingsUnder n (Some x) (childIds node).
Proof.
  intros Hx. split.
  - apply (cons_NoDup n Hc (Some x)). simpl. now rewrite Hx.
  - intros c Hin. exact (cons_child_node n Hc x node c Hx Hin).
Qed.

Lemma roots_siblings : siblingsUnder n None (rootIds n).
Proof.
  split.
  - now apply (cons_NoDup n Hc None).
  - intros c Hin. exact (cons_root_node n Hc c Hin).
Qed.

Lemma children_subtree x node y :
  byId n !! x = Some node ->
  (exists a, a ∈ childIds node /\ inSubtree n a y) <-> Descendant (byId n) x y.
Proof.
  intros Hx. rewrite Descendant_inv. split.
  - intros (a & Ha & [->|Hd]); exists node; split; eauto.
  - intros (node' & Hn & Hcase). rewrite Hx in Hn. injection Hn as <-.
    destruct Hcase as [Hy|(c & Hcin & Hd)].
    + exists y. split; [assumption|now left].
    + exists c. split; [assumption|now right].
Qed.

Lemma buildOne_id fuel id d : buildOne fuel n id = Some d -> fieldId d = id.
Proof.
  unfold buildOne. destruct (byId n !! id) as [node|] eqn:Hn.
  - assert (Hid : def_id (definition node) = id) by apply (cons_ids n Hc id node Hn).
    destruct (childIds node); [intros [= <-]; exact Hid|].
    destruct (build fuel n _); [|discriminate]. intros [= <-]. exact Hid.
  - intros [= <-]. reflexivity.
Qed.

Lemma build_ids fuel ids t : build fuel n ids = Some t -> map fieldId t = ids.
Proof.
  destruct fuel as [|fuel]; [discriminate|]. rewrite build_Forall2.
  induction 1 as [|id d ids t Hd _ IH]; [reflexivity|].
  cbn [map]. now rewrite (buildOne_id fuel id d Hd), IH.
Qed.

(** The IDs of the rebuilt fields: the listed keys and their descendants,
    each once. *)
Lemma build_treeIds fuel :
  forall p ids t, siblingsUnder n p ids -> build fuel n ids = Some t ->
    NoDup (treeIds t) /\
    forall x, x ∈ treeIds t <-> exists a, a ∈ ids /\ inSubtree n a x.
Proof.
  induction fuel as [|fuel IHf]; intros p ids t Hs Hb; [discriminate|].
  apply build_Forall2 in Hb.
  assert (Hone : forall id d node,
            byId n !! id = Some node -> buildOne fuel n id = Some d ->
            NoDup (fieldIds d) /\ forall x, x ∈ fieldIds d <-> inSubtree n id x).
  { intros id d node Hn Hd. unfold buildOne in Hd. rewrite Hn in Hd.
    assert (Hid : def_id (definition node) = id) by apply (cons_ids n Hc id node Hn).
    destruct (childIds node) as [|c cs] eqn:Hch.
    - injection Hd as <-. cbn [fieldIds]. rewrite Hid. split.
      + apply NoDup_singleton.
      + intros x. rewrite list_elem_of_singleton. unfold inSubtree. split; [auto|].
        intros [H|H]; [assumption|]. exfalso.
        apply Descendant_inv in H as (node' & Hn' & Hcase).
        rewrite Hn in Hn'. injection Hn' as <-. rewrite Hch in Hcase.
        destruct Hcase as [H|(c & H & _)]; apply elem_of_nil in H; contradiction.
    - rewrite <- Hch in Hd.
      destruct (build fuel n (childIds node)) as [fs|] eqn:Hfs; [|discriminate].
      injection Hd as <-. cbn [fieldIds]. rewrite Hid.
      destruct (IHf (Some id) (childIds node) fs (children_siblings id node Hn) Hfs)
        as [Hnd Hin].
      fold (treeIds fs).
      assert (Hiff : forall x, x ∈ treeIds fs <-> Descendant (byId n) id x).
      { intros x. rewrite Hin. now apply children_subtree. }
      split.
      + apply NoDup_cons. split; [|assumption]. rewrite Hiff.
        apply (Descendant_irrefl n Hc).
      + intros x. rewrite elem_of_cons, Hiff. reflexivity. }
  revert Hs. induction Hb as [|id d ids t Hd _ IH]; intros [Hnd Hkeys].
  - split; [apply NoDup_nil_2|]. intros x. split.
    + intros H. apply elem_of_nil in H. contradiction.
    + intros (a & H & _). apply elem_of_nil in H. contradiction.
  - apply NoDup_cons in Hnd as [Hnotin Hnd].
    destruct (Hkeys id (list_elem_of_here _ _)) as (node & Hn & Hp).
    destruct (Hone id d node Hn Hd) as [Hd1 Hd2].
    destruct IH as [IH1 IH2].
    { split; [assumption|]. intros x Hx. apply Hkeys. now right. }
    unfold treeIds. cbn [flat_map]. fold (treeIds t). split.
    + apply NoDup_app. split; [assumption|]. split; [|assumption].
      intros x Hx1 Hx2. apply Hd2 in Hx1. apply IH2 in Hx2 as (a & Ha & Hx2).
      destruct (Hkeys a) as (an & Han & Hpa); [now right|].
      apply (subtrees_disjoint id a node an x); try assumption; [|congruence].
      intros ->. contradiction.
    + intros x. rewrite elem_of_app, Hd2, IH2. split.
      * intros [H|(a & Ha & H)]; [exists id; split; [left|assumption]|].
        exists a. split; [now right|assumption].
      * intros (a & Ha & H). apply elem_of_cons in Ha as [->|Ha]; [now left|].
        right. eauto.
Qed.

(** Every key is a root or a descendant of a root. *)
Lemma key_under_root x node :
  byId n !! x = Some node -> exists a, a ∈ rootIds n /\ inSubtree n a x.
Proof.
  destruct (cons_depth n Hc) as [d Hd].
  remember (S (d x)) as k eqn:Hk. assert (Hlt : (d x < k)%nat) by lia. clear Hk.
  revert x node Hlt. induction k as [|k IH]; intros x node Hlt Hx; [lia|].
  destruct (parentId node) as [q|] eqn:Hp.
  - destruct (cons_parent_node n Hc x node q Hx Hp) as (qn & Hqn & Hin).
    specialize (Hd x node q Hx Hp).
    destruct (IH q qn ltac:(lia) Hqn) as (a & Ha & Hsub).
    exists a. split; [assumption|]. right. destruct Hsub as [->|Hsub].
    + eapply Descendant_child; eauto.
    + eapply Descendant_child_of; eauto.
  - exists x. split; [|now left]. exact (cons_parent_root n Hc x node Hx Hp).
Qed.

Lemma under_root_key a x :
  a ∈ rootIds n -> inSubtree n a x -> is_Some (byId n !! x).
Proof.
  intros Ha [->|Hd].
  - destruct (cons_root_node n Hc a Ha) as (node & Hn & _). eauto.
  - apply (Descendant_parent n Hc) in Hd as (node & q & Hn & _). eauto.
Qed.

(** With enough call stack [build] returns. *)
Lemma build_returns :
  exists F, forall fuel ids, (F <= fuel)%nat -> exists t, build fuel n ids = Some t.
Proof.
  destruct (cons_depth n Hc) as [d Hd].
  destruct (depth_bound n d) as [D HD].
  assert (H : forall fuel ids,
            (forall a node, a ∈ ids -> byId n !! a = Some node -> (D < d a + fuel)%nat) ->
            exists t, build (S fuel) n ids = Some t).
  { induction fuel as [|fuel IH]; intros ids Hids.
    - assert (Hall : Forall (fun id => is_Some (buildOne 0 n id)) ids).
      { apply Forall_forall. intros a Ha. unfold buildOne.
        destruct (byId n !! a) as [node|] eqn:Hn; [|eauto].
        specialize (Hids a node Ha Hn). specialize (HD a node Hn). lia. }
      clear Hids. induction Hall as [|a ids [x Hx] _ [t Ht]].
      + exists []. reflexivity.
      + exists (x :: t). apply build_Forall2. apply build_Forall2 in Ht.
        now constructor.
    - assert (Hall : Forall (fun id => is_Some (buildOne (S fuel) n id)) ids).
      { apply Forall_forall. intros a Ha. unfold buildOne.
        destruct (byId n !! a) as [node|] eqn:Hn; [|eauto].
        destruct (childIds node) as [|c cs] eqn:Hch; [eauto|]. rewrite <- Hch.
        destruct (IH (childIds node)) as [fs ->]; [|eauto].
        intros c' cn Hin Hcn.
        destruct (cons_child_node n Hc a node c' Hn Hin) as (cn' & Hcn' & Hp).
        rewrite Hcn in Hcn'. injection Hcn' as <-.
        specialize (Hd c' cn a Hcn Hp). specialize (Hids a node Ha Hn). lia. }
      clear Hids. induction Hall as [|a ids [x Hx] _ [t Ht]].
      + exists []. reflexivity.
      + exists (x :: t). apply build_Forall2. apply build_Forall2 in Ht.
        now constructor. }
  exists (S (S D)). intros fuel ids Hle.
  destruct fuel as [|fuel]; [lia|]. apply H. intros a node _ Hn. lia.
Qed.

(** ** The rebuilt tree, field by field *)

Lemma build_lookup fuel p ids t :
  siblingList n p = Some ids -> build fuel n ids = Some t ->
  forall i d, t !! i = Some d -> Built n p i d.
Proof.
  intros Hl Hb i d Hi. destruct fuel as [|fuel]; [discriminate|].
  apply build_Forall2 in Hb.
  destruct (Forall2_lookup_r _ _ _ _ _ Hb Hi) as (id & Hid & Hd).
  destruct (cons_siblings n Hc p ids i id Hl Hid) as (node & Hn & Hidx & Hp).
  pose proof (buildOne_id fuel id d Hd) as Hfid. exists node.
  split; [now rewrite Hfid|]. split; [assumption|]. split; [assumption|].
  clear Hfid. unfold buildOne in Hd. rewrite Hn in Hd.
  destruct (childIds node) as [|c cs] eqn:Hch.
  - injection Hd as <-. split; reflexivity.
  - rewrite <- Hch in Hd.
    destruct (build fuel n (childIds node)) as [fs|] eqn:Hfs; [|discriminate].
    injection Hd as <-. split; [reflexivity|]. exists fuel, fs.
    rewrite <- Hch. split; [reflexivity|assumption].
Qed.

Lemma Occurs_Built fuel t :
  build fuel n (rootIds n) = Some t ->
  forall parent i lvl d, Occurs t parent i lvl d -> Built n parent i d.
Proof.
  intros Hb parent i lvl d. induction 1 as [i d Hi|parent j lvl a l i c _ IH Hty Hi].
  - exact (build_lookup fuel None (rootIds n) t eq_refl Hb i d Hi).
  - destruct IH as (node & Hn & _ & _ & Hattrs & Hch).
    unfold fieldId in Hn. cbn [fieldAttrs fieldChildren] in Hn, Hattrs, Hch.
    destruct (childIds node) as [|c0 cs] eqn:Hcs; [discriminate|].
    destruct Hch as (fuel' & fs & [= <-] & Hfs). rewrite <- Hcs in Hfs.
    apply (build_lookup fuel' (Some (def_id a)) (childIds node) l); try assumption.
    simpl. now rewrite Hn.
Qed.

Lemma Built_nodeOf parent i d :
  sectionParents n -> Built n parent i d ->
  byId n !! fieldId d = Some (nodeOf parent i d).
Proof.
  intros Hs (node & Hn & Hp & Hi & Hattrs & Hch). rewrite Hn. f_equal.
  assert (Hchs : childIds node = childIdsOf d).
  { destruct d as [a fs]. cbn [fieldAttrs fieldChildren] in Hattrs, Hch.
    destruct (childIds node) as [|c cs] eqn:Hcs.
    - rewrite Hch. reflexivity.
    - destruct Hch as (fuel & l & -> & Hl). cbn [childIdsOf]. rewrite Hattrs.
      rewrite (Hs _ _ Hn) by (rewrite Hcs; discriminate). simpl (_ =? _).
      symmetry. exact (build_ids fuel _ _ Hl). }
  destruct node as [def par chs idx]. cbn [definition parentId childIds index] in *.
  unfold nodeOf. now rewrite Hattrs, Hp, Hi, Hchs.
Qed.

Lemma key_Occurs fuel t :
  sectionParents n -> build fuel n (rootIds n) = Some t ->
  forall x node, byId n !! x = Some node ->
    exists parent i lvl d, Occurs t parent i lvl d /\ fieldId d = x.
Proof.
  intros Hs Hb. destruct (cons_depth n Hc) as [d Hd].
  intros x. remember (S (d x)) as k eqn:Hk.
  assert (Hlt : (d x < k)%nat) by lia. clear Hk.
  revert x Hlt. induction k as [|k IH]; intros x Hlt node Hx; [lia|].
  destruct (parentId node) as [q|] eqn:Hp.
  - destruct (cons_parent_node n Hc x node q Hx Hp) as (qn & Hqn & Hin).
    specialize (Hd x node q Hx Hp).
    destruct (IH q ltac:(lia) qn Hqn) as (parent & j & lvl & dq & Ho & Hq).
    destruct (Occurs_Built fuel t Hb parent j lvl dq Ho)
      as (qn' & Hqn' & _ & _ & Hattrs & Hch).
    rewrite Hq, Hqn in Hqn'. injection Hqn' as <-.
    destruct dq as [a fs]. cbn [fieldAttrs fieldChildren] in *. subst a.
    destruct (childIds qn) as [|c0 cs] eqn:Hcs;
      [apply elem_of_nil in Hin; contradiction|].
    destruct Hch as (fuel' & l & -> & Hl). rewrite <- Hcs in Hl, Hin.
    apply list_elem_of_lookup_1 in Hin as [i Hi].
    rewrite <- (build_ids fuel' _ _ Hl) in Hi.
    rewrite list_lookup_fmap in Hi.
    destruct (l !! i) as [c|] eqn:Hli; [|discriminate]. injection Hi as Hi.
    exists (Some (def_id (definition qn))), i, (S lvl), c. split; [|assumption].
    apply (Occurs_child t parent j lvl (definition qn) l i c); try assumption.
    apply (Hs q qn Hqn). rewrite Hcs. discriminate.
  - pose proof (cons_parent_root n Hc x node Hx Hp) as Hin.
    apply list_elem_of_lookup_1 in Hin as [i Hi].
    rewrite <- (build_ids fuel _ _ Hb) in Hi.
    rewrite list_lookup_fmap in Hi.
    destruct (t !! i) as [c|] eqn:Hti; [|discriminate]. injection Hi as Hi.
    exists None, i, 0%nat, c. split; [|assumption]. now apply Occurs_root.
Qed.

Lemma build_normalize fuel t :
  sectionParents n -> build fuel n (rootIds n) = Some t -> normalizeDefinition t = n.
Proof.
  intros Hs Hb.
  assert (Hu : uniqueIds t).
  { apply (build_treeIds fuel None (rootIds n) t roots_siblings Hb). }
  assert (Hroots : rootIds (normalizeDefinition t) = rootIds n).
  { rewrite normalizeDefinition_rootIds. exact (build_ids fuel _ _ Hb). }
  assert (Hmap : byId (normalizeDefinition t) = byId n).
  { apply map_eq. intros k.
    destruct (byId n !! k) as [node|] eqn:Hk.
    - destruct (key_Occurs fuel t Hs Hb k node Hk) as (parent & i & lvl & d & Ho & Hd).
      pose proof (Occurs_lookup t parent i lvl d Hu Ho) as H1.
      pose proof (Built_nodeOf parent i d Hs (Occurs_Built fuel t Hb parent i lvl d Ho))
        as H2.
      rewrite Hd in H1, H2. congruence.
    - destruct (byId (normalizeDefinition t) !! k) as [node|] eqn:Hk'; [|reflexivity].
      destruct (normalizeDefinition_entry t k node Hu Hk')
        as (parent & i & lvl & d & Ho & Hd & _).
      pose proof (Built_nodeOf parent i d Hs (Occurs_Built fuel t Hb parent i lvl d Ho))
        as H2.
      rewrite Hd in H2. congruence. }
  destruct (normalizeDefinition t) as [m' r'], n as [m r]. simpl in *. congruence.
Qed.

End Hydration.



(** * The answers of a form, for export *)

(** The type of the field is registered as a container. *)
Definition isContainer (registry : gmap string FieldTypeMeta) (node : FieldNode) : bool :=
  match getFieldTypeMeta registry (def_fieldType (definition node)) with
  | Some m => answerType m =? "container"
  | None => false
  end.

(** The item of a field: none for an ID that is no key, for a type that is
    not registered and for a container, display or [none] type. *)
Definition itemOf (registry : gmap string FieldTypeMeta) (n : NormalizedDefinition)
    (r : gmap string FieldResponse) (id : string) : option HydratedResponseItem :=
  match byId n !! id with
  | None => None
  | Some node =>
      let def := definition node in
      match getFieldTypeMeta registry (def_fieldType def) with
      | None => None
      | Some m =>
          if (answerType m =? "container") || (answerType m =? "display")
             || (answerType m =? "none") then None
          else Some {| item_id := id;
                       item_text :=
                         match orElse (def_question def) (def_title def) with
                         | Some t => t
                         | None => EmptyString
                         end;
                       item_answer := extractAnswer (r !! id) (answerType m) |}
      end
  end.

(** The fields the walk comes to, starting from [ids]: the listed ones, and
    the children of a container it comes to. *)
Inductive Reached (registry : gmap string FieldTypeMeta) (n : NormalizedDefinition)
    (ids : list string) : string -> Prop :=
  | Reached_here x : x ∈ ids -> Reached registry n ids x
  | Reached_child p pn x :
      Reached registry n ids p -> byId n !! p = Some pn ->
      isContainer registry pn = true -> x ∈ childIds pn ->
      Reached registry n ids x.

(** One iteration of the loop of [walk]: the items it pushes. *)
Definition walkOne (fuel : nat) (registry : gmap string FieldTypeMeta)
    (n : NormalizedDefinition) (r : gmap string FieldResponse) (id : string)
    : option (list HydratedResponseItem) :=
  match byId n !! id with
  | None => Some []
  | Some node =>
      if isContainer registry node then hydrateWalk fuel registry n r (childIds node)
      else Some (option_list (itemOf registry n r id))
  end.

Definition threeKinds : FormEngineState :=
  createFormEngine (Some [Field (bareDef "s1" "section")
                            (Some [Field (bareDef "c1" "text") None]);
                          Field (bareDef "h1" "html") None]).

Section ResponseHydration.

Variable registry : gmap string FieldTypeMeta.
Variable n : NormalizedDefinition.
Variable r : gmap string FieldResponse.
Hypothesis Hc : Consistent n.

Lemma hydrateWalk_nil fuel : hydrateWalk (S fuel) registry n r [] = Some [].
Proof. reflexivity. Qed.

Lemma hydrateWalk_cons fuel id ids :
  hydrateWalk (S fuel) registry n r (id :: ids) =
  match walkOne fuel registry n r id, hydrateWalk (S fuel) registry n r ids with
  | Some a, Some b => Some (a ++ b)
  | _, _ => None
  end.
Proof.
  cbn [hydrateWalk foldr]. unfold walkOne, itemOf, isContainer.
  destruct (byId n !! id) as [node|]; [|now destruct (foldr _ _ ids)].
  cbv zeta. destruct (getFieldTypeMeta registry _) as [m|];
    [|now destruct (foldr _ _ ids)].
  destruct (answerType m =? "container"); [reflexivity|]. cbn [orb].
  destruct (_ || _); now destruct (foldr _ _ ids).
Qed.

Lemma itemOf_id id it : itemOf registry n r id = Some it -> item_id it = id.
Proof.
  unfold itemOf. destruct (byId n !! id) as [node|]; [|discriminate]. cbv zeta.
  destruct (getFieldTypeMeta registry _) as [m|]; [|discriminate].
  destruct (_ || _ || _); [discriminate|]. now intros [= <-].
Qed.

Lemma itemOf_container id node :
  byId n !! id = Some node -> isContainer registry node = true ->
  itemOf registry n r id = None.
Proof.
  unfold itemOf, isContainer. intros -> H. cbv zeta.
  destruct (getFieldTypeMeta registry _) as [m|]; [|reflexivity]. now rewrite H.
Qed.

Lemma Reached_nil x : ~ Reached registry n [] x.
Proof. induction 1 as [x H|]; [apply elem_of_nil in H|]; contradiction. Qed.

Lemma Reached_app l1 l2 x :
  Reached registry n (l1 ++ l2) x <-> Reached registry n l1 x \/ Reached registry n l2 x.
Proof.
  split.
  - induction 1 as [x H|p pn x _ IH Hp Hcont Hx].
    + apply elem_of_app in H as [H|H]; [left|right]; now apply Reached_here.
    + destruct IH as [IH|IH]; [left|right]; eapply Reached_child; eauto.
  - intros [H|H]; induction H as [x H|p pn x _ IH Hp Hcont Hx].
    + apply Reached_here, elem_of_app. now left.
    + eapply Reached_child; eauto.
    + apply Reached_here, elem_of_app. now right.
    + eapply Reached_child; eauto.
Qed.

Lemma Reached_single id node x :
  byId n !! id = Some node ->
  Reached registry n [id] x <->
  x = id \/ (isContainer registry node = true /\ Reached registry n (childIds node) x).
Proof.
  intros Hn. split.
  - induction 1 as [x H|p pn x _ IH Hp Hcont Hx].
    + apply list_elem_of_singleton in H. now left.
    + right. destruct IH as [->|[Hcn IH]].
      * rewrite Hn in Hp. injection Hp as <-. split; [assumption|].
        now apply Reached_here.
      * split; [assumption|]. eapply Reached_child; eauto.
  - intros [->|[Hcn H]]; [apply Reached_here, list_elem_of_here|].
    induction H as [x H|p pn x _ IH Hp Hcont Hx].
    + apply (Reached_child _ _ _ id node); try assumption.
      apply Reached_here, list_elem_of_here.
    + eapply Reached_child; eauto.
Qed.

Lemma Reached_subtree p ids x :
  siblingsUnder n p ids -> Reached registry n ids x ->
  exists a, a ∈ ids /\ inSubtree n a x.
Proof.
  intros _. induction 1 as [x H|q qn x _ IH Hq Hcont Hx].
  - exists x. split; [assumption|now left].
  - destruct IH as (a & Ha & Hsub). exists a. split; [assumption|]. right.
    destruct Hsub as [->|Hsub].
    + eapply Descendant_child; eauto.
    + eapply Descendant_child_of; eauto.
Qed.

(** The items of a walk: one for each field the walk comes to that has an
    item, and none twice. *)
Lemma hydrateWalk_spec fuel :
  forall p ids items,
    siblingsUnder n p ids -> hydrateWalk fuel registry n r ids = Some items ->
    NoDup (map item_id items) /\
    forall it, it ∈ items <->
               exists x, Reached registry n ids x /\ itemOf registry n r x = Some it.
Proof.
  induction fuel as [|fuel IHf]; [discriminate|].
  intros p ids. induction ids as [|id ids IH]; intros items Hs Hw.
  - rewrite hydrateWalk_nil in Hw. injection Hw as <-. split; [apply NoDup_nil_2|].
    intros it. split.
    + intros H. apply elem_of_nil in H. contradiction.
    + intros (x & H & _). now apply Reached_nil in H.
  - rewrite hydrateWalk_cons in Hw.
    destruct (walkOne fuel registry n r id) as [a|] eqn:Ha; [|discriminate].
    destruct (hydrateWalk (S fuel) registry n r ids) as [b|] eqn:Hb; [|discriminate].
    injection Hw as <-. destruct Hs as [Hnd Hkeys].
    apply NoDup_cons in Hnd as [Hnotin Hnd].
    assert (Hs' : siblingsUnder n p ids).
    { split; [assumption|]. intros x Hx. apply Hkeys. now right. }
    destruct (IH b Hs' eq_refl) as [IH1 IH2].
    destruct (Hkeys id (list_elem_of_here _ _)) as (node & Hn & Hp).
    assert (Hs1 : siblingsUnder n p [id]).
    { split; [apply NoDup_singleton|]. intros x Hx.
      apply list_elem_of_singleton in Hx as ->. eauto. }
    assert (Hone : NoDup (map item_id a) /\
              forall it, it ∈ a <->
                exists x, Reached registry n [id] x /\ itemOf registry n r x = Some it).
    { unfold walkOne in Ha. rewrite Hn in Ha.
      destruct (isContainer registry node) eqn:Hcont.
      - destruct (IHf (Some id) (childIds node) a (children_siblings n Hc id node Hn) Ha)
          as [H1 H2].
        split; [assumption|]. intros it. rewrite H2. split.
        + intros (x & Hx & Hit). exists x. split; [|assumption].
          apply (Reached_single id node x Hn). auto.
        + intros (x & Hx & Hit). exists x. split; [|assumption].
          apply (Reached_single id node x Hn) in Hx as [->|[_ Hx]]; [|assumption].
          rewrite (itemOf_container id node Hn Hcont) in Hit. discriminate.
      - injection Ha as <-.
        assert (Hiff : forall x, Reached registry n [id] x <-> x = id).
        { intros x. rewrite (Reached_single id node x Hn), Hcont.
          split; [intros [H|[H _]]; [assumption|discriminate]|auto]. }
        split.
        + destruct (itemOf registry n r id); [apply NoDup_singleton|apply NoDup_nil_2].
        + intros it. split.
          * intros H. exists id. split; [now apply Hiff|].
            destruct (itemOf registry n r id) as [it'|]; cbn [option_list] in H.
            -- apply list_elem_of_singleton in H. now subst.
            -- apply elem_of_nil in H. contradiction.
          * intros (x & Hx & Hit). apply Hiff in Hx. subst x. rewrite Hit.
            apply list_elem_of_here. }
    destruct Hone as [H1 H2]. split.
    + rewrite map_app. apply NoDup_app. split; [assumption|]. split; [|assumption].
      intros x Hx1 Hx2.
      apply list_elem_of_fmap in Hx1 as (it1 & -> & Hit1).
      apply list_elem_of_fmap in Hx2 as (it2 & Heq & Hit2).
      apply H2 in Hit1 as (x1 & Hr1 & Hi1). apply IH2 in Hit2 as (x2 & Hr2 & Hi2).
      apply itemOf_id in Hi1, Hi2. rewrite Hi1 in Heq. rewrite Hi2 in Heq. subst x2.
      destruct (Reached_subtree p [id] x1 Hs1 Hr1) as (a1 & Ha1 & Hsub1).
      apply list_elem_of_singleton in Ha1 as ->.
      destruct (Reached_subtree p ids x1 Hs' Hr2) as (a2 & Ha2 & Hsub2).
      destruct (Hkeys a2) as (an & Han & Hpa); [now right|].
      apply (subtrees_disjoint n Hc id a2 node an x1); try assumption; [|congruence].
      intros ->. contradiction.
    + intros it. rewrite elem_of_app, H2, IH2. split.
      * intros [(x & Hx & Hit)|(x & Hx & Hit)]; exists x; (split; [|assumption]);
          apply (Reached_app [id] ids); auto.
      * intros (x & Hx & Hit). apply (Reached_app [id] ids) in Hx as [Hx|Hx]; eauto.
Qed.

(** With enough call stack the walk returns. *)
Lemma hydrateWalk_returns :
  exists F, forall fuel ids, (F <= fuel)%nat ->
    exists items, hydrateWalk fuel registry n r ids = Some items.
Proof.
  destruct (cons_depth n Hc) as [d Hd].
  destruct (depth_bound n d) as [D HD].
  assert (H : forall fuel ids,
            (forall a node, a ∈ ids -> byId n !! a = Some node -> (D < d a + fuel)%nat) ->
            exists items, hydrateWalk (S fuel) registry n r ids = Some items).
  { induction fuel as [|fuel IH]; intros ids Hids.
    - induction ids as [|a ids IHl]; [exists []; reflexivity|].
      rewrite hydrateWalk_cons. destruct IHl as [b ->].
      { intros a' node Ha'. apply Hids. now right. }
      unfold walkOne. destruct (byId n !! a) as [node|] eqn:Hn; [|eauto].
      exfalso. specialize (Hids a node (list_elem_of_here _ _) Hn).
      specialize (HD a node Hn). lia.
    - induction ids as [|a ids IHl]; [exists []; reflexivity|].
      rewrite hydrateWalk_cons. destruct IHl as [b ->].
      { intros a' node Ha'. apply Hids. now right. }
      unfold walkOne. destruct (byId n !! a) as [node|] eqn:Hn; [|eauto].
      destruct (isContainer registry node); [|eauto].
      destruct (IH (childIds node)) as [items ->]; [|eauto].
      intros c cn Hin Hcn.
      destruct (cons_child_node n Hc a node c Hn Hin) as (cn' & Hcn' & Hp).
      rewrite Hcn in Hcn'. injection Hcn' as <-.
      specialize (Hd c cn a Hcn Hp).
      specialize (Hids a node (list_elem_of_here _ _) Hn). lia. }
  exists (S (S D)). intros fuel ids Hle.
  destruct fuel as [|fuel]; [lia|]. apply H. intros a node _ Hn. lia.
Qed.

End ResponseHydration.



(** * Edits that undo each other *)

Section IndexExtensionality.

(** A consistent index is determined by its sibling lists and its
    definitions: parents and positions can be read off the lists. *)
Lemma consistent_ext n1 n2 :
  Consistent n1 -> Consistent n2 ->
  (forall q, siblingList n1 q = siblingList n2 q) ->
  (forall x, definition <$> byId n1 !! x = definition <$> byId n2 !! x) ->
  n1 = n2.
Proof.
  intros H1 H2 Hsib Hdef.
  assert (Hroots : rootIds n1 = rootIds n2).
  { specialize (Hsib None). simpl in Hsib. congruence. }
  assert (Hmap : byId n1 = byId n2).
  { apply map_eq. intros x. specialize (Hdef x).
    destruct (byId n1 !! x) as [a|] eqn:Ea, (byId n2 !! x) as [b|] eqn:Eb;
      try discriminate; [|reflexivity].
    simpl in Hdef. injection Hdef as Hdef. f_equal.
    assert (Hch : childIds a = childIds b).
    { specialize (Hsib (Some x)). simpl in Hsib. rewrite Ea, Eb in Hsib.
      simpl in Hsib. congruence. }
    destruct (cons_parent n1 H1 x a Ea) as (l & Hl & Hin).
    apply list_elem_of_lookup_1 in Hin as [i Hi].
    destruct (cons_siblings n1 H1 _ l i x Hl Hi) as (a' & Ea' & Hia & _).
    rewrite Ea in Ea'. injection Ea' as <-.
    rewrite Hsib in Hl.
    destruct (cons_siblings n2 H2 _ l i x Hl Hi) as (b' & Eb' & Hib & Hpb).
    rewrite Eb in Eb'. injection Eb' as <-.
    destruct a, b. simpl in *. congruence. }
  destruct n1, n2. simpl in *. congruence.
Qed.

Lemma sibling_keys n q l x :
  Consistent n -> siblingList n q = Some l -> x ∈ l -> is_Some (byId n !! x).
Proof.
  intros Hc Hl Hx. apply list_elem_of_lookup_1 in Hx as [i Hi].
  destruct (cons_siblings n Hc q l i x Hl Hi) as (node & Hn & _). eauto.
Qed.

Lemma without_insertAt id l idx : id ∉ l -> without id (insertAt l id idx) = l.
Proof.
  intros Hnot. destruct (insertAt_split l id idx) as (l1 & l2 & -> & ->).
  apply not_elem_of_app in Hnot as [Hn1 Hn2].
  unfold without. rewrite !filter_app, filter_cons.
  destruct (decide (id <> id)) as [E|_]; [congruence|].
  fold (without id l1). fold (without id l2).
  now rewrite !without_notin.
Qed.

Lemma setNormalized_same st n :
  n = normalized st -> {| normalized := n; responses := responses st |} = st.
Proof. intros ->. now destruct st. Qed.

End IndexExtensionality.



Section MoveBack.

Lemma insertAt_without id l k :
  NoDup l -> l !! k = Some id ->
  insertAt (without id l) id (Some (Z.of_nat k)) = l.
Proof.
  intros Hnd Hk.
  pose proof (take_drop_middle l k id Hk) as Hl.
  pose proof (lookup_lt_Some l k id Hk) as Hlt.
  assert (Hlen : length (take k l) = k) by (rewrite length_take; lia).
  remember (take k l) as l1 eqn:E1. remember (drop (S k) l) as l2 eqn:E2.
  subst l. clear E1 E2 Hk Hlt.
  apply NoDup_app in Hnd as (_ & Hdisj & Hnd2).
  apply NoDup_cons in Hnd2 as [Hn2 _].
  assert (Hn1 : id ∉ l1).
  { intros H. apply (Hdisj id H). left. }
  assert (Hw : without id (l1 ++ id :: l2) = l1 ++ l2).
  { unfold without. rewrite filter_app, filter_cons.
    destruct (decide (id <> id)) as [E|_]; [congruence|].
    fold (without id l1). fold (without id l2). now rewrite !without_notin. }
  rewrite Hw. unfold insertAt. rewrite length_app, Hlen.
  destruct (Z.leb_spec (Z.of_nat (k + length l2)) (Z.of_nat k)) as [H|H].
  - assert (Hl2 : length l2 = 0%nat) by lia.
    destruct l2; [|discriminate]. now rewrite app_nil_r.
  - destruct (Z.leb_spec (Z.of_nat k) 0) as [H0|H0].
    + assert (k = 0%nat) by lia. subst k. destruct l1; [reflexivity|discriminate].
    + rewrite Nat2Z.id.
      rewrite take_app_length' by (symmetry; exact Hlen).
      rewrite drop_app_length' by (symmetry; exact Hlen). reflexivity.
Qed.

Lemma without_twice id l : without id (without id l) = without id l.
Proof.
  apply without_notin. rewrite elem_of_without. tauto.
Qed.

(** [collectDescendants] reads the child lists of the subtree only. *)
Lemma collectDescendants_ext (m m' : gmap string FieldNode) fuel :
  forall a,
    (forall x, x = a \/ Descendant m a x -> childIds <$> m' !! x = childIds <$> m !! x) ->
    collectDescendants fuel m' a = collectDescendants fuel m a.
Proof.
  induction fuel as [|fuel IH]; intros a Hsame; [reflexivity|].
  rewrite !collectDescendants_S.
  pose proof (Hsame a (or_introl eq_refl)) as Ha.
  destruct (m !! a) as [node|] eqn:Hn, (m' !! a) as [node'|] eqn:Hn';
    try discriminate; [|reflexivity].
  simpl in Ha. injection Ha as Ha. rewrite Ha.
  assert (Hch : forall c, c ∈ childIds node ->
            collectDescendants fuel m' c = collectDescendants fuel m c).
  { intros c Hc. apply IH. intros x [->|Hx]; apply Hsame; right.
    - eapply Descendant_child; eauto.
    - eapply Descendant_step; eauto. }
  clear Ha. induction (childIds node) as [|c cs IHcs]; [reflexivity|].
  cbn [foldr]. rewrite (Hch c) by left. rewrite IHcs; [reflexivity|].
  intros c' Hc'. apply Hch. now right.
Qed.

End MoveBack.



Section RenameBack.

Lemma renamed_back a b x : x <> b -> renamed b a (renamed a b x) = x.
Proof.
  intros Hx. unfold renamed. destruct (String.eqb_spec x a) as [->|Hxa].
  - now rewrite String.eqb_refl.
  - apply String.eqb_neq in Hx. now rewrite Hx.
Qed.

Lemma renameIn_back a b l : b ∉ l -> renameIn b a (renameIn a b l) = l.
Proof.
  intros Hb. rewrite !renameIn_renamed, map_map.
  induction l as [|x l IH]; [reflexivity|].
  apply not_elem_of_cons in Hb as [Hx Hl]. cbn [map].
  rewrite renamed_back by congruence. now rewrite IH.
Qed.

Lemma renamePatch_back def a b :
  def_id def = a -> applyPatch (applyPatch def (renamePatch b)) (renamePatch a) = def.
Proof. intros <-. now destruct def. Qed.

End RenameBack.



Section ItemUndo.

Lemma filter_keeps_all {A} (P : A -> Prop) `{forall x, Decision (P x)} (l : list A) :
  (forall x, x ∈ l -> P x) -> filter P l = l.
Proof.
  intros Hall. induction l as [|x l IH]; [reflexivity|].
  rewrite filter_cons. destruct (decide (P x)) as [_|Hn].
  - rewrite IH; [reflexivity|]. intros y Hy. apply Hall. now right.
  - exfalso. apply Hn, Hall. left.
Qed.

Lemma withDefinition_same node : withDefinition node (definition node) = node.
Proof. now destruct node. Qed.

Lemma withById_same n : withById n (byId n) = n.
Proof. now destruct n. Qed.

Lemma setNormalized_id st : setNormalized st (normalized st) = st.
Proof. now destruct st. Qed.

Lemma withOptions_same def items : def_options def = Some items -> withOptions def (Some items) = def.
Proof. intros <-. now destruct def. Qed.

Lemma removeOption_after_add st fieldId value node :
  byId (normalized st) !! fieldId = Some node ->
  removeOption (snd (addOption st fieldId value)) fieldId
    (generateOptionId (map opt_id (orNil (def_options (definition node)))) (Some fieldId)) =
  (true,
   setNormalized st
     (withById (normalized st)
        (<[fieldId := withDefinition node
                        (withOptions (definition node) (Some (orNil (def_options (definition node)))))]>
           (byId (normalized st))))).
Proof.
  intros Hid. rewrite (addOption_known st fieldId value node Hid). cbn [snd].
  set (items := orNil (def_options (definition node))).
  pose proof (generateOptionId_fresh (map opt_id items) (Some fieldId)) as Hfresh.
  set (newId := generateOptionId (map opt_id items) (Some fieldId)) in *.
  rewrite removeOption_spec. cbn [normalized setNormalized withById byId].
  rewrite lookup_insert_eq. cbn [definition withDefinition].
  change (def_options (withOptions (definition node) (Some (items ++ [{| opt_id := newId; opt_value := value; opt_text := None |}]))))
    with (Some (items ++ [{| opt_id := newId; opt_value := value; opt_text := None |}])).
  cbv beta iota. rewrite existsb_app. cbn [existsb opt_id]. rewrite String.eqb_refl.
  cbn [orb]. rewrite orb_true_r.
  assert (Hfilter : filter (fun o : FieldOption => opt_id o <> newId) (items ++ [{| opt_id := newId; opt_value := value; opt_text := None |}]) = items).
  { rewrite filter_app, filter_cons, filter_nil.
    destruct (decide (opt_id {| opt_id := newId; opt_value := value; opt_text := None |} <> newId)) as [E|_]; [now contradiction E|].
    rewrite app_nil_r. apply filter_keeps_all. intros o Ho Heq. apply Hfresh.
    rewrite <- Heq. apply list_elem_of_fmap. eauto. }
  rewrite Hfilter. unfold setNormalized, withById. cbn [normalized responses rootIds byId].
  now rewrite insert_insert_eq.
Qed.

Lemma withRows_same def items : def_rows def = Some items -> withRows def (Some items) = def.
Proof. intros <-. now destruct def. Qed.

Lemma removeRow_after_add st fieldId value node :
  byId (normalized st) !! fieldId = Some node ->
  removeRow (snd (addRow st fieldId value)) fieldId
    (generateRowId (map row_id (orNil (def_rows (definition node)))) (Some fieldId)) =
  (true,
   setNormalized st
     (withById (normalized st)
        (<[fieldId := withDefinition node
                        (withRows (definition node) (Some (orNil (def_rows (definition node)))))]>
           (byId (normalized st))))).
Proof.
  intros Hid. rewrite (addRow_known st fieldId value node Hid). cbn [snd].
  set (items := orNil (def_rows (definition node))).
  pose proof (generateRowId_fresh (map row_id items) (Some fieldId)) as Hfresh.
  set (newId := generateRowId (map row_id items) (Some fieldId)) in *.
  rewrite removeRow_spec. cbn [normalized setNormalized withById byId].
  rewrite lookup_insert_eq. cbn [definition withDefinition].
  change (def_rows (withRows (definition node) (Some (items ++ [{| row_id := newId; row_value := value |}]))))
    with (Some (items ++ [{| row_id := newId; row_value := value |}])).
  cbv beta iota. rewrite existsb_app. cbn [existsb row_id]. rewrite String.eqb_refl.
  cbn [orb]. rewrite orb_true_r.
  assert (Hfilter : filter (fun o : MatrixRow => row_id o <> newId) (items ++ [{| row_id := newId; row_value := value |}]) = items).
  { rewrite filter_app, filter_cons, filter_nil.
    destruct (decide (row_id {| row_id := newId; row_value := value |} <> newId)) as [E|_]; [now contradiction E|].
    rewrite app_nil_r. apply filter_keeps_all. intros o Ho Heq. apply Hfresh.
    rewrite <- Heq. apply list_elem_of_fmap. eauto. }
  rewrite Hfilter. unfold setNormalized, withById. cbn [normalized responses rootIds byId].
  now rewrite insert_insert_eq.
Qed.

Lemma withColumns_same def items : def_columns def = Some items -> withColumns def (Some items) = def.
Proof. intros <-. now destruct def. Qed.

Lemma removeColumn_after_add st fieldId value node :
  byId (normalized st) !! fieldId = Some node ->
  removeColumn (snd (addColumn st fieldId value)) fieldId
    (generateColumnId (map col_id (orNil (def_columns (definition node)))) (Some fieldId)) =
  (true,
   setNormalized st
     (withById (normalized st)
        (<[fieldId := withDefinition node
                        (withColumns (definition node) (Some (orNil (def_columns (definition node)))))]>
           (byId (normalized st))))).
Proof.
  intros Hid. rewrite (addColumn_known st fieldId value node Hid). cbn [snd].
  set (items := orNil (def_columns (definition node))).
  pose proof (generateColumnId_fresh (map col_id items) (Some fieldId)) as Hfresh.
  set (newId := generateColumnId (map col_id items) (Some fieldId)) in *.
  rewrite removeColumn_spec. cbn [normalized setNormalized withById byId].
  rewrite lookup_insert_eq. cbn [definition withDefinition].
  change (def_columns (withColumns (definition node) (Some (items ++ [{| col_id := newId; col_value := value |}]))))
    with (Some (items ++ [{| col_id := newId; col_value := value |}])).
  cbv beta iota. rewrite existsb_app. cbn [existsb col_id]. rewrite String.eqb_refl.
  cbn [orb]. rewrite orb_true_r.
  assert (Hfilter : filter (fun o : MatrixColumn => col_id o <> newId) (items ++ [{| col_id := newId; col_value := value |}]) = items).
  { rewrite filter_app, filter_cons, filter_nil.
    destruct (decide (col_id {| col_id := newId; col_value := value |} <> newId)) as [E|_]; [now contradiction E|].
    rewrite app_nil_r. apply filter_keeps_all. intros o Ho Heq. apply Hfresh.
    rewrite <- Heq. apply list_elem_of_fmap. eauto. }
  rewrite Hfilter. unfold setNormalized, withById. cbn [normalized responses rootIds byId].
  now rewrite insert_insert_eq.
Qed.

End ItemUndo.


(** * Conditions on choice fields *)

(** Field types answered by a list of selected options, and by one. *)
Definition MANY_CHOICE_TYPES : list string := ["check"; "multiselectdropdown"; "ranking"].
Definition ONE_CHOICE_TYPES : list string :=
  ["radio"; "dropdown"; "boolean"; "slider"; "rating"].

Definition manySelected (l : list SelectedOption) : FieldResponse :=
  {| answer := None; selected := Some (SelectedMany l); multitextAnswers := None;
     signatureData := None; signatureImage := None;
     markupData := None; markupImage := None |}.

Definition oneSelected (o : SelectedOption) : FieldResponse :=
  {| answer := None; selected := Some (SelectedOne o); multitextAnswers := None;
     signatureData := None; signatureImage := None;
     markupData := None; markupImage := None |}.

Section ChoiceValues.

Lemma many_choice_value def r :
  def_fieldType def ∈ MANY_CHOICE_TYPES ->
  getActualValue def (Some r) =
    match selected r with
    | Some (SelectedMany l) => VArray (map (fun o => EString (sel_id o)) l)
    | _ => VArray []
    end /\
  isNumericExpr def = false /\ isNumericText def = false.
Proof.
  intros H. unfold MANY_CHOICE_TYPES in H.
  unfold getActualValue, isNumericExpr, isNumericText. cbv zeta.
  repeat (apply elem_of_cons in H as [->|H]); [| | |apply elem_of_nil in H; contradiction];
    repeat split; reflexivity.
Qed.

Lemma one_choice_value def r o :
  def_fieldType def ∈ ONE_CHOICE_TYPES -> selected r = Some (SelectedOne o) ->
  getActualValue def (Some r) = VString (sel_id o) /\
  isNumericExpr def = false /\ isNumericText def = false.
Proof.
  intros H Hsel. unfold ONE_CHOICE_TYPES in H.
  unfold getActualValue, isNumericExpr, isNumericText. cbv zeta. rewrite Hsel.
  repeat (apply elem_of_cons in H as [->|H]);
    [| | | | |apply elem_of_nil in H; contradiction];
    repeat split; reflexivity.
Qed.

Lemma elementString_ids (l : list SelectedOption) :
  map elementString (map (fun o => EString (sel_id o)) l) = map sel_id l.
Proof. rewrite map_map. reflexivity. Qed.

End ChoiceValues.

(** X23. Conditions on choice fields (with no property accessor). For a
    field answered by a list of selected options (check, multiselectdropdown,
    ranking): [includes] holds exactly when the expected text is the ID of a
    selected option; [equals] never holds and [notEquals] always does;
    [empty] holds exactly when nothing is selected; [contains] looks for the
    words of the expected text in the selected IDs joined by commas. For a
    field answered by one selected option (radio, dropdown, boolean, slider,
    rating): [equals] holds exactly when the expected text is the ID of the
    selected option, [notEquals] exactly when it is not, and [includes]
    never holds. *)
Theorem choice_conditions (target e : string) (def : FieldDef) :
  (def_fieldType def ∈ MANY_CHOICE_TYPES ->
   forall l,
     evaluateCondition (plainCondition target Op.includes e) def (Some (manySelected l))
       = memberOf e (map sel_id l) /\
     evaluateCondition (plainCondition target Op.equals e) def (Some (manySelected l))
       = false /\
     evaluateCondition (plainCondition target Op.notEquals e) def (Some (manySelected l))
       = true /\
     evaluateCondition (plainCondition target Op.empty e) def (Some (manySelected l))
       = Nat.eqb (length l) 0 /\
     evaluateCondition (plainCondition target Op.notEmpty e) def (Some (manySelected l))
       = negb (Nat.eqb (length l) 0) /\
     evaluateCondition (plainCondition target Op.contains e) def (Some (manySelected l))
       = containsMatch (joinWith "," (map sel_id l)) e) /\
  (def_fieldType def ∈ ONE_CHOICE_TYPES ->
   forall o,
     evaluateCondition (plainCondition target Op.equals e) def (Some (oneSelected o))
       = (sel_id o =? e) /\
     evaluateCondition (plainCondition target Op.notEquals e) def (Some (oneSelected o))
       = negb (sel_id o =? e) /\
     evaluateCondition (plainCondition target Op.includes e) def (Some (oneSelected o))
       = false /\
     evaluateCondition (plainCondition target Op.contains e) def (Some (oneSelected o))
       = containsMatch (sel_id o) e).
Proof.
  split.
  - intros Hty l.
    destruct (many_choice_value def (manySelected l) Hty) as (Hv & HnE & HnT).
    cbn [selected manySelected] in Hv.
    unfold evaluateCondition, evaluateConditionTraced, plainCondition.
    cbn [propertyAccessor operator expected]. rewrite Hv, HnE, HnT.
    cbn [resolveOptionValue NUMERIC_OPERATORS isNumberValue orb snd isEmpty isArray
         stringOf orEmptyString].
    rewrite !elementString_ids, !length_map. repeat split; reflexivity.
  - intros Hty o.
    destruct (one_choice_value def (oneSelected o) o Hty eq_refl) as (Hv & HnE & HnT).
    unfold evaluateCondition, evaluateConditionTraced, plainCondition.
    cbn [propertyAccessor operator expected]. rewrite Hv, HnE, HnT.
    cbn [resolveOptionValue NUMERIC_OPERATORS isNumberValue orb andb snd isArray
         stringOf orEmptyString].
    repeat split; reflexivity.
Qed.

